(** * monitorswitcher: DDC/CI transport, display enumeration and the
      monitorboss feature operations

    Shallow embedding of
      - [pyddc/macos.py]      (packet codec, exchange loop, IORegistry walk),
      - [test/pyddc/vcp_dummy.py] (the in-memory monitor used by the tests),
      - [monitorboss/impl.py] (get / set / toggle of a VCP feature),
    followed by the properties of the specification that concern them.

    Python integers are unbounded, so they are [Z]; a [bytearray] is a list
    of [Z] whose [append] and item assignment check the range 0..255;
    exceptions are values of [exn] carried by a result type; code that
    touches the outside world (the I2C bus, the IORegistry, the dummy
    monitor's module-level dictionaries) threads that world explicitly. *)

From Stdlib Require Import ZArith List String Ascii Lia Bool.
From stdpp Require Import base option list gmap strings.

Open Scope Z_scope.

(** ** Python run-time model *)

Module Py.

(** What [MonitorBossError] was raised for: one constructor per message
    of [monitorboss/impl.py]. *)
Inductive mb_message : Type :=
| msg_failed_to_list_vcps
| msg_monitor_does_not_exist (mon : Z)
| msg_could_not_list_information (mon : Z)
| msg_could_not_get (mon : Z)
| msg_not_readable
| msg_could_not_set (mon val : Z)
| msg_not_writeable
| msg_above_max (val : Z).

(** The exception classes the modelled code raises or catches.
    [MonitorBossError m cause] is [raise MonitorBossError(m) from cause].
    [UnicodeDecodeError] is a subclass of [ValueError]: a clause
    [except ValueError] catches it too (see [is_ValueError]). *)
Inductive exn : Type :=
| IndexError
| KeyError
| ValueError
| UnicodeDecodeError
| TypeError
| OSError
| VCPError
| AssertionError
| AttributeError
| MonitorBossError (m : mb_message) (cause : exn).

(** [isinstance(e, ValueError)] *)
Definition is_ValueError (e : exn) : bool :=
  match e with
  | ValueError | UnicodeDecodeError => true
  | _ => false
  end.

Inductive result (A : Type) : Type :=
| Ok (a : A)
| Raise (e : exn).
Arguments Ok {A} a.
Arguments Raise {A} e.

Definition bind {A B} (r : result A) (k : A -> result B) : result B :=
  match r with
  | Ok a => k a
  | Raise e => Raise e
  end.

(** [len(l)] *)
Definition len {A} (l : list A) : Z := Z.of_nat (length l).

(** [l[i]]: a negative index counts from the end, anything outside
    [-len .. len-1] raises [IndexError]. *)
Definition getitem {A} (l : list A) (i : Z) : result A :=
  let j := if i <? 0 then len l + i else i in
  if (0 <=? j) && (j <? len l) then
    match l !! Z.to_nat j with
    | Some x => Ok x
    | None => Raise IndexError
    end
  else Raise IndexError.

(** [bytearray.append(x)]: [ValueError] unless [0 <= x < 256]. *)
Definition bytearray_append (b : list Z) (x : Z) : result (list Z) :=
  if (0 <=? x) && (x <? 256) then Ok (b ++ [x]) else Raise ValueError.

(** [b[i] = x] on a bytearray. *)
Definition bytearray_setitem (b : list Z) (i x : Z) : result (list Z) :=
  let j := if i <? 0 then len b + i else i in
  if (0 <=? j) && (j <? len b) then
    if (0 <=? x) && (x <? 256) then Ok (<[Z.to_nat j := x]> b)
    else Raise ValueError
  else Raise IndexError.

(** Values read from the IORegistry after conversion to Python
    collections: strings, numbers and dictionaries. *)
#[warnings="-register-all"]
Inductive plist : Type :=
| PStr (s : string)
| PInt (z : Z)
| PDict (d : list (string * plist)).

(** [if v:] for a value that may be [None]. *)
Definition truthy (v : option plist) : bool :=
  match v with
  | None => false
  | Some (PStr s) => negb (String.eqb s "")
  | Some (PInt z) => negb (z =? 0)
  | Some (PDict d) => match d with [] => false | _ :: _ => true end
  end.

(** [d.get(k)] on a dictionary held as its items. *)
Fixpoint dict_get (d : list (string * plist)) (k : string) : option plist :=
  match d with
  | [] => None
  | (k', v) :: rest => if String.eqb k' k then Some v else dict_get rest k
  end.

(** [v.get(k)]: only a dictionary has [get]. *)
Definition get_method (v : plist) (k : string) : result (option plist) :=
  match v with
  | PDict d => Ok (dict_get d k)
  | _ => Raise AttributeError
  end.

(** [a in b] on strings. *)
Definition str_contains (a b : string) : bool :=
  match String.index 0 a b with
  | Some _ => true
  | None => false
  end.

(** A [bytes] object is a [string], whose characters are bytes. *)
Definition byte_value (c : ascii) : Z := Z.of_N (N_of_ascii c).

Definition byte_between (lo hi : Z) (c : ascii) : bool :=
  (lo <=? byte_value c) && (byte_value c <=? hi).

(** Whether a byte string is well-formed UTF-8, as the strict decoder
    checks it: no stray or missing continuation byte, no overlong form
    (lead bytes 0xC0 and 0xC1, 0xE0 before 0xA0, 0xF0 before 0x90), no
    surrogate (0xED from 0xA0 on), nothing above U+10FFFF (0xF4 from
    0x90 on, lead bytes from 0xF5). *)
Fixpoint utf8_valid (b : string) : bool :=
  match b with
  | EmptyString => true
  | String c0 b1 =>
      let x := byte_value c0 in
      if x <? 0x80 then utf8_valid b1
      else if (0xC2 <=? x) && (x <=? 0xDF) then
        match b1 with
        | String c1 b2 => byte_between 0x80 0xBF c1 && utf8_valid b2
        | _ => false
        end
      else if (0xE0 <=? x) && (x <=? 0xEF) then
        match b1 with
        | String c1 (String c2 b3) =>
            byte_between (if x =? 0xE0 then 0xA0 else 0x80)
              (if x =? 0xED then 0x9F else 0xBF) c1
            && byte_between 0x80 0xBF c2 && utf8_valid b3
        | _ => false
        end
      else if (0xF0 <=? x) && (x <=? 0xF4) then
        match b1 with
        | String c1 (String c2 (String c3 b4)) =>
            byte_between (if x =? 0xF0 then 0x90 else 0x80)
              (if x =? 0xF4 then 0x8F else 0xBF) c1
            && byte_between 0x80 0xBF c2 && byte_between 0x80 0xBF c3
            && utf8_valid b4
        | _ => false
        end
      else false
  end.

(** [b.decode()]: the text, or [UnicodeDecodeError] when the bytes are
    not UTF-8. A [str] is kept as its UTF-8 encoding; the names the
    modelled code compares with or searches for are ASCII, for which
    equality and [in] on the encoding are equality and [in] on the
    text. *)
Definition decode (b : string) : result string :=
  if utf8_valid b then Ok b else Raise UnicodeDecodeError.

End Py.

Export Py.

Notation "x <- r ;; k" := (Py.bind r (fun x => k))
  (at level 100, r at next level, right associativity).

(** Code with side effects: the world [W] is threaded through, and an
    exception leaves the world as it was when it was raised. *)
Definition io (W A : Type) : Type := W -> result A * W.

Definition io_ret {W A} (a : A) : io W A := fun w => (Ok a, w).

Definition io_raise {W A} (e : exn) : io W A := fun w => (Raise e, w).

Definition io_bind {W A B} (m : io W A) (k : A -> io W B) : io W B :=
  fun w =>
    match m w with
    | (Ok a, w') => k a w'
    | (Raise e, w') => (Raise e, w')
    end.

(** [try: m except <handler matches>: ...]: [handler e] is [Some k] when an
    [except] clause catches [e]. *)
Definition io_try {W A} (m : io W A) (handler : exn -> option (io W A))
  : io W A :=
  fun w =>
    match m w with
    | (Ok a, w') => (Ok a, w')
    | (Raise e, w') =>
        match handler e with
        | Some k => k w'
        | None => (Raise e, w')
        end
    end.

Definition io_lift {W A} (r : result A) : io W A := fun w => (r, w).

Notation "x <~ m ;; k" := (io_bind m (fun x => k))
  (at level 100, m at next level, right associativity).

(** ** pyddc/macos.py: packet codec *)

Module Macos.

Definition read_buffer_size : Z := 11.
Definition KERN_SUCCESS : Z := 0.
Definition MACH_PORT_NULL : Z := 0.
Definition ARM64_DDC_DATA_ADDRESS : Z := 0x51.
Definition ARM64_DDC_7BIT_ADDRESS : Z := 0x37.

(** [for i in range(i, i + count): chkd ^= data[i]] *)
Fixpoint checksum_loop (chkd : Z) (data : list Z) (i : Z) (count : nat)
  : result Z :=
  match count with
  | O => Ok chkd
  | S k =>
      x <- getitem data i ;;
      checksum_loop (Z.lxor chkd x) data (i + 1) k
  end.

(** [checksum(chk, data, start, end)]; [range(start, end + 1)] has
    [max 0 (end + 1 - start)] elements. *)
Definition checksum (chk : Z) (data : list Z) (start end_ : Z) : result Z :=
  checksum_loop chk data start (Z.to_nat (end_ + 1 - start)).

(** [for snd in send: packet.append(snd)] *)
Fixpoint append_all (packet : list Z) (send : list Z) : result (list Z) :=
  match send with
  | [] => Ok packet
  | snd :: rest =>
      packet' <- bytearray_append packet snd ;;
      append_all packet' rest
  end.

(** The seed expression of line 116: the conditional binds loosest,
    [<<] binds tighter than [^]. *)
Definition checksum_seed (send : list Z) : Z :=
  if len send =? 1 then Z.shiftl ARM64_DDC_7BIT_ADDRESS 1
  else Z.lxor (Z.shiftl ARM64_DDC_7BIT_ADDRESS 1) ARM64_DDC_DATA_ADDRESS.

(** Lines 110-117 of [performDDCCommunication]: building the packet. *)
Definition encode (send : list Z) : result (list Z) :=
  packet <- bytearray_append [] (Z.lor 0x80 (len send + 1)) ;;
  packet <- bytearray_append packet (len send) ;;
  packet <- append_all packet send ;;
  packet <- bytearray_append packet 0 ;;
  c <- checksum (checksum_seed send) packet 0 (len packet - 2) ;;
  bytearray_setitem packet (-1) c.

(** Line 132: [checksum(0x50, rep, 0, len(rep) - 2) == rep[-1]]. *)
Definition validate (rep : list Z) : result bool :=
  c <- checksum 0x50 rep 0 (len rep - 2) ;;
  final <- getitem rep (-1) ;;
  Ok (c =? final).

(** *** Transport exchange *)

(** The two IOKit bus calls and [time.sleep], as the module sees them:
    each bus call returns its status (and, for a read, the reply buffer)
    and moves the world on; [time.sleep] returns once the delay is over,
    or raises, as it does with [ValueError] for a negative duration. *)
Class IOAVBus (World service float : Type) : Type := {
  IOAVServiceWriteI2C :
    service -> Z -> Z -> list Z -> Z -> World -> Z * World;
  IOAVServiceReadI2C :
    service -> Z -> Z -> Z -> World -> (Z * list Z) * World;
  time_sleep : float -> io World unit
}.

Section Exchange.
Context {World service float : Type} `{!IOAVBus World service float}.

Variable ioavservice : service.
Variable packet : list Z.
Variable read_reply : bool.
Variable writeSleepTime : float.
Variable numOfWriteCycles : Z.
Variable readSleepTime : float.
Variable retrySleepTime : float.

(** The calls of lines 126 and 130, with the constant arguments filled
    in. *)
Definition write_packet : io World Z :=
  fun w =>
    let '(ret, w) :=
      IOAVServiceWriteI2C ioavservice ARM64_DDC_7BIT_ADDRESS
        ARM64_DDC_DATA_ADDRESS packet (len packet) w in
    (Ok ret, w).

Definition read_buffer : io World (Z * list Z) :=
  fun w =>
    let '(r, w) :=
      IOAVServiceReadI2C ioavservice ARM64_DDC_7BIT_ADDRESS
        ARM64_DDC_DATA_ADDRESS read_buffer_size w in
    (Ok r, w).

(** Lines 124-126: every cycle sleeps, then overwrites [success] with
    the status of its own write. *)
Fixpoint write_cycles (k : nat) (success : bool) : io World bool :=
  match k with
  | O => io_ret success
  | S k' =>
      _ <~ time_sleep writeSleepTime ;;
      ret <~ write_packet ;;
      write_cycles k' (ret =? 0)
  end.

(** Lines 124-132: one pass of the retry loop's body, up to the test
    of [success]. *)
Definition attempt (success : bool) : io World (bool * list Z) :=
  success <~ write_cycles (Z.to_nat (Z.max numOfWriteCycles 1)) success ;;
  if read_reply then
    _ <~ time_sleep readSleepTime ;;
    r <~ read_buffer ;;
    let '(ret, rep) := r in
    if ret =? 0 then
      valid <~ io_lift (validate rep) ;;
      io_ret (valid, rep)
    else io_ret (success, rep)
  else io_ret (success, []).

(** Lines 122-139: [k] passes are left. *)
Fixpoint retry_loop (k : nat) (success : bool) (rep : list Z)
  : io World (bool * list Z) :=
  match k with
  | O => io_ret (success, rep)
  | S k' =>
      r <~ attempt success ;;
      if fst r then io_ret r
      else
        _ <~ time_sleep retrySleepTime ;;
        retry_loop k' (fst r) (snd r)
  end.

End Exchange.

(** [performDDCCommunication]; [ioavservice] may be [None], which the
    leading [assert] refuses. The two [print] calls leave no trace in
    the model. *)
Definition performDDCCommunication
    {World service float : Type} `{!IOAVBus World service float}
    (ioavservice : option service) (send : list Z) (read_reply : bool)
    (writeSleepTime : float) (numOfWriteCycles : Z) (readSleepTime : float)
    (numOfRetryAttempts : Z) (retrySleepTime : float)
  : io World (bool * list Z) :=
  match ioavservice with
  | None => io_raise AssertionError
  | Some service_ =>
      packet <~ io_lift (encode send) ;;
      retry_loop service_ packet read_reply writeSleepTime numOfWriteCycles
        readSleepTime retrySleepTime (Z.to_nat numOfRetryAttempts) false []
  end.

(** [read]: returns [(val_cur, val_max)], or [None]. *)
Definition read
    {World service float : Type} `{!IOAVBus World service float}
    (ioavservice : option service) (command : Z)
    (writeSleepTime : float) (numOfWriteCycles : Z) (readSleepTime : float)
    (numOfRetryAttempts : Z) (retrySleepTime : float)
  : io World (option (Z * Z)) :=
  r <~ performDDCCommunication ioavservice [command] true writeSleepTime
         numOfWriteCycles readSleepTime numOfRetryAttempts retrySleepTime ;;
  let '(success, reply) := r in
  if success then
    io_lift (
      r6 <- getitem reply 6 ;;
      r7 <- getitem reply 7 ;;
      r8 <- getitem reply 8 ;;
      r9 <- getitem reply 9 ;;
      Ok (Some (r8 * 256 + r9, r6 * 256 + r7)))
  else io_ret None.

(** *** Display enumeration *)

Section Enumeration.
Context {service : Type}.

(** The dataclass [IOregService]. *)
Record IOregService : Type := mkIOregService {
  edidUUID : option plist;
  manufacturerID : option plist;
  productName : option plist;
  serialNumber : option plist;
  alphanumericSerialNumber : option plist;
  location : option plist;
  ioDisplayLocation : option string;
  transportUpstream : option plist;
  transportDownstream : option plist;
  service_ : option service;
  serviceLocation : option Z;
  displayAttributes : option plist
}.


(** Attribute assignments [o.field = v]. *)
Definition set_edidUUID (v : option plist) (o : IOregService) : IOregService :=
  mkIOregService v (manufacturerID o) (productName o) (serialNumber o) (alphanumericSerialNumber o) (location o) (ioDisplayLocation o) (transportUpstream o) (transportDownstream o) (service_ o) (serviceLocation o) (displayAttributes o).
Definition set_manufacturerID (v : option plist) (o : IOregService) : IOregService :=
  mkIOregService (edidUUID o) v (productName o) (serialNumber o) (alphanumericSerialNumber o) (location o) (ioDisplayLocation o) (transportUpstream o) (transportDownstream o) (service_ o) (serviceLocation o) (displayAttributes o).
Definition set_productName (v : option plist) (o : IOregService) : IOregService :=
  mkIOregService (edidUUID o) (manufacturerID o) v (serialNumber o) (alphanumericSerialNumber o) (location o) (ioDisplayLocation o) (transportUpstream o) (transportDownstream o) (service_ o) (serviceLocation o) (displayAttributes o).
Definition set_serialNumber (v : option plist) (o : IOregService) : IOregService :=
  mkIOregService (edidUUID o) (manufacturerID o) (productName o) v (alphanumericSerialNumber o) (location o) (ioDisplayLocation o) (transportUpstream o) (transportDownstream o) (service_ o) (serviceLocation o) (displayAttributes o).
Definition set_alphanumericSerialNumber (v : option plist) (o : IOregService) : IOregService :=
  mkIOregService (edidUUID o) (manufacturerID o) (productName o) (serialNumber o) v (location o) (ioDisplayLocation o) (transportUpstream o) (transportDownstream o) (service_ o) (serviceLocation o) (displayAttributes o).
Definition set_location (v : option plist) (o : IOregService) : IOregService :=
  mkIOregService (edidUUID o) (manufacturerID o) (productName o) (serialNumber o) (alphanumericSerialNumber o) v (ioDisplayLocation o) (transportUpstream o) (transportDownstream o) (service_ o) (serviceLocation o) (displayAttributes o).
Definition set_ioDisplayLocation (v : option string) (o : IOregService) : IOregService :=
  mkIOregService (edidUUID o) (manufacturerID o) (productName o) (serialNumber o) (alphanumericSerialNumber o) (location o) v (transportUpstream o) (transportDownstream o) (service_ o) (serviceLocation o) (displayAttributes o).
Definition set_transportUpstream (v : option plist) (o : IOregService) : IOregService :=
  mkIOregService (edidUUID o) (manufacturerID o) (productName o) (serialNumber o) (alphanumericSerialNumber o) (location o) (ioDisplayLocation o) v (transportDownstream o) (service_ o) (serviceLocation o) (displayAttributes o).
Definition set_transportDownstream (v : option plist) (o : IOregService) : IOregService :=
  mkIOregService (edidUUID o) (manufacturerID o) (productName o) (serialNumber o) (alphanumericSerialNumber o) (location o) (ioDisplayLocation o) (transportUpstream o) v (service_ o) (serviceLocation o) (displayAttributes o).
Definition set_service (v : option service) (o : IOregService) : IOregService :=
  mkIOregService (edidUUID o) (manufacturerID o) (productName o) (serialNumber o) (alphanumericSerialNumber o) (location o) (ioDisplayLocation o) (transportUpstream o) (transportDownstream o) v (serviceLocation o) (displayAttributes o).
Definition set_serviceLocation (v : option Z) (o : IOregService) : IOregService :=
  mkIOregService (edidUUID o) (manufacturerID o) (productName o) (serialNumber o) (alphanumericSerialNumber o) (location o) (ioDisplayLocation o) (transportUpstream o) (transportDownstream o) (service_ o) v (displayAttributes o).
Definition set_displayAttributes (v : option plist) (o : IOregService) : IOregService :=
  mkIOregService (edidUUID o) (manufacturerID o) (productName o) (serialNumber o) (alphanumericSerialNumber o) (location o) (ioDisplayLocation o) (transportUpstream o) (transportDownstream o) (service_ o) (serviceLocation o) v.

(** [IOregService()] *)
Definition IOregService_new : IOregService :=
  mkIOregService None None None None None None None None None None None None.

(** One node of the registry, by what the IOKit calls answer for it:
    [IORegistryEntryGetName] (status and the bytes of the name),
    [IORegistryEntryGetPath] (the bytes it leaves in the buffer, up to
    the NUL padding that [rstrip] removes once they are decoded),
    [IORegistryEntryCreateCFProperty] per key, and
    [IOAVServiceCreateWithService], which gives NULL when no channel
    can be made. *)
Record RegistryEntry : Type := mkRegistryEntry {
  entry_name_ret : Z;
  entry_name : string;
  entry_path : string;
  entry_property : string -> option plist;
  entry_av_service : option service
}.

(** The host registry: the status [IORegistryEntryCreateIterator]
    answers with, and the nodes of the IOService plane in the order
    the recursive iterator yields them. *)
Record Registry : Type := mkRegistry {
  create_iterator_ret : Z;
  tree : list RegistryEntry
}.

Inductive io_object : Type := obj_ioregRoot | obj_iterator.

(** What the enumeration mutates: the store of [IOregService] objects
    (a reference is an index into it), the iterator's remaining nodes,
    and the objects handed to [IOObjectRelease]. *)
Record EnumWorld : Type := mkEnumWorld {
  heap : list IOregService;
  iterator : list RegistryEntry;
  released : list io_object
}.

Definition ref : Type := nat.

Definition alloc (o : IOregService) : io EnumWorld ref :=
  fun w => (Ok (length (heap w)),
            mkEnumWorld (heap w ++ [o]) (iterator w) (released w)).

(** Attribute assignment on the object behind a reference. *)
Definition update (r : ref) (f : IOregService -> IOregService)
  : io EnumWorld unit :=
  fun w => (Ok tt,
            mkEnumWorld (alter f r (heap w)) (iterator w) (released w)).

Definition IOObjectRelease (o : io_object) : io EnumWorld unit :=
  fun w => (Ok tt, mkEnumWorld (heap w) (iterator w) (released w ++ [o])).

Definition IORegistryEntryCreateCFProperty (entry : RegistryEntry)
    (key : string) : option plist :=
  entry_property entry key.

(** [getIORegServiceAppleCDC2Properties] *)
Definition getIORegServiceAppleCDC2Properties (entry : RegistryEntry)
  : io EnumWorld ref :=
  ioregService <~ alloc IOregService_new ;;
  let edid := IORegistryEntryCreateCFProperty entry "EDID UUID" in
  _ <~ (if truthy edid
        then update ioregService (set_edidUUID edid)
        else io_ret tt) ;;
  cpath <~ io_lift (decode (entry_path entry)) ;;
  _ <~ update ioregService (set_ioDisplayLocation (Some cpath)) ;;
  let NSDictDisplayAttrs :=
    IORegistryEntryCreateCFProperty entry "DisplayAttributes" in
  _ <~ (if truthy NSDictDisplayAttrs then
          _ <~ update ioregService
                 (set_displayAttributes NSDictDisplayAttrs) ;;
          match NSDictDisplayAttrs with
          | Some (PDict displayAttrs) =>
              match dict_get displayAttrs "ProductAttributes" with
              | Some productAttributes =>
                  m <~ io_lift (get_method productAttributes "ManufacturerID") ;;
                  _ <~ update ioregService (set_manufacturerID m) ;;
                  n <~ io_lift (get_method productAttributes "ProductName") ;;
                  _ <~ update ioregService (set_productName n) ;;
                  sn <~ io_lift (get_method productAttributes "SerialNumber") ;;
                  _ <~ update ioregService (set_serialNumber sn) ;;
                  a <~ io_lift (get_method productAttributes "AlphanumericSerialNumber") ;;
                  update ioregService (set_alphanumericSerialNumber a)
              | None => io_ret tt
              end
          | Some (PStr displayAttrs) =>
              (* substring test, then indexing a string by a string *)
              if str_contains "ProductAttributes" displayAttrs
              then io_raise TypeError else io_ret tt
          | Some (PInt _) => io_raise TypeError
          | None => io_ret tt
          end
        else io_ret tt) ;;
  let NSDictTransport := IORegistryEntryCreateCFProperty entry "Transport" in
  _ <~ (match NSDictTransport with
        | Some transport =>
            if truthy NSDictTransport then
              u <~ io_lift (get_method transport "Upstream") ;;
              _ <~ update ioregService (set_transportUpstream u) ;;
              d <~ io_lift (get_method transport "Downstream") ;;
              update ioregService (set_transportDownstream d)
            else io_ret tt
        | None => io_ret tt
        end) ;;
  io_ret ioregService.

(** [location == "External"] *)
Definition is_External (location : option plist) : bool :=
  match location with
  | Some (PStr s) => String.eqb s "External"
  | _ => false
  end.

(** [setIORegServiceDCPAVServiceProxy] *)
Definition setIORegServiceDCPAVServiceProxy (entry : RegistryEntry)
    (ioregService : ref) : io EnumWorld unit :=
  let location_ := IORegistryEntryCreateCFProperty entry "Location" in
  if truthy location_ then
    _ <~ update ioregService (set_location location_) ;;
    if is_External location_ then
      let ioavService := entry_av_service entry in
      update ioregService (set_service ioavService)
    else io_ret tt
  else io_ret tt.

(** The named tuple [ObjectOfInterest]. *)
Record ObjectOfInterest : Type := mkObjectOfInterest {
  name : string;
  entry : RegistryEntry;
  preceedingEntry : option RegistryEntry
}.

(** The [while True] of [ioregIterateToNextObjectOfInterest]: [it] is
    what [IOIteratorNext] has still to yield ([MACH_PORT_NULL] once it
    is empty), [entry_] the node of the previous turn. The name of every
    node taken off the iterator is decoded, of interest or not. *)
Fixpoint iterate_loop (interests : list string)
    (entry_ : option RegistryEntry) (it : list RegistryEntry)
  : result (option ObjectOfInterest) * list RegistryEntry :=
  match it with
  | [] => (Ok None, [])
  | e :: rest =>
      if negb (entry_name_ret e =? KERN_SUCCESS) then (Ok None, rest)
      else
        match decode (entry_name e) with
        | Raise err => (Raise err, rest)
        | Ok name_ =>
            if existsb (fun interest => str_contains interest name_) interests
            then (Ok (Some (mkObjectOfInterest name_ e entry_)), rest)
            else iterate_loop interests (Some e) rest
        end
  end.

(** [ioregIterateToNextObjectOfInterest] *)
Definition ioregIterateToNextObjectOfInterest (interests : list string)
  : io EnumWorld (option ObjectOfInterest) :=
  fun w =>
    let '(o, rest) := iterate_loop interests None (iterator w) in
    (o, mkEnumWorld (heap w) rest (released w)).

Definition keyDCPAVServiceProxy : string := "DCPAVServiceProxy".
Definition keysFramebuffer : list string :=
  ["AppleCLCD2"; "IOMobileFramebufferShim"].

(** [x in keysFramebuffer] *)
Definition in_list (x : string) (l : list string) : bool :=
  existsb (String.eqb x) l.

(** The [while True] of [getIoregServicesForMatching] (lines 237-247).
    Every turn takes at least one node off the iterator, so
    [S (length (iterator w))] turns always reach the [break]; see
    [matching_loop_fuel]. *)
Fixpoint matching_loop (fuel : nat) (serviceLocation_ : Z)
    (ioregService : ref) (ioregServicesForMatching : list ref)
  : io EnumWorld (list ref) :=
  match fuel with
  | O => io_ret ioregServicesForMatching
  | S fuel' =>
      objectOfInterest <~
        ioregIterateToNextObjectOfInterest
          ([keyDCPAVServiceProxy] ++ keysFramebuffer) ;;
      match objectOfInterest with
      | None => io_ret ioregServicesForMatching
      | Some o =>
          if in_list (name o) keysFramebuffer then
            ioregService' <~ getIORegServiceAppleCDC2Properties (entry o) ;;
            let serviceLocation' := serviceLocation_ + 1 in
            _ <~ update ioregService'
                   (set_serviceLocation (Some serviceLocation')) ;;
            matching_loop fuel' serviceLocation' ioregService'
              ioregServicesForMatching
          else if String.eqb (name o) keyDCPAVServiceProxy then
            _ <~ setIORegServiceDCPAVServiceProxy (entry o) ioregService ;;
            matching_loop fuel' serviceLocation_ ioregService
              (ioregServicesForMatching ++ [ioregService])
          else
            matching_loop fuel' serviceLocation_ ioregService
              ioregServicesForMatching
      end
  end.

(** [try: body finally: handler] *)
Definition io_finally {A} (body : io EnumWorld A)
    (handler : io EnumWorld unit) : io EnumWorld A :=
  fun w =>
    let '(r, w1) := body w in
    match handler w1 with
    | (Ok _, w2) => (r, w2)
    | (Raise e, w2) => (Raise e, w2)
    end.

(** [getIoregServicesForMatching], run against a registry. *)
Definition getIoregServicesForMatching (reg : Registry)
  : io EnumWorld (list ref) :=
  let serviceLocation_ := 0 in
  let ioregServicesForMatching := [] in
  io_finally
    (fun w =>
       let ret := create_iterator_ret reg in
       let w := mkEnumWorld (heap w) (tree reg) (released w) in
       if negb (ret =? KERN_SUCCESS) then io_ret ioregServicesForMatching w
       else
         (ioregService <~ alloc IOregService_new ;;
          matching_loop (S (length (tree reg))) serviceLocation_
            ioregService ioregServicesForMatching) w)
    (_ <~ IOObjectRelease obj_ioregRoot ;; IOObjectRelease obj_iterator).

Definition empty_world : EnumWorld := mkEnumWorld [] [] [].

(** Lines 255-256: [displays] and [ddc_displays], as the objects the
    references stand for once the enumeration is over. *)
Definition has_service (h : list IOregService) (r : ref) : bool :=
  match h !! r with
  | Some o => match service_ o with Some _ => true | None => false end
  | None => false
  end.

Definition ddc_displays (reg : Registry) : result (list IOregService) :=
  match getIoregServicesForMatching reg empty_world with
  | (Ok displays, w) =>
      Ok (omap (fun d => heap w !! d) (filter (fun d => has_service (heap w) d = true) displays))
  | (Raise e, _) => Raise e
  end.

End Enumeration.

Arguments IOregService : clear implicits.
Arguments RegistryEntry : clear implicits.
Arguments Registry : clear implicits.
Arguments EnumWorld : clear implicits.
Arguments ObjectOfInterest : clear implicits.

End Macos.

(** ** pyddc: the VCP interface *)

Module Pyddc.

(** Modelled from the spec: the descriptor [VCPCommand] of
    [pyddc/vcp_codes.py], which is not among the sources. The spec's data
    model gives its fields; the sources read [code] and [discrete]. *)
Record VCPCommand : Type := mkVCPCommand {
  com_name : string;
  com_desc : string;
  code : Z;
  discrete : bool;
  readable : bool;
  writeable : bool;
  param_names : list (string * Z)
}.

(** Modelled from the spec: what the class [VCPCommand] itself, as
    opposed to one of its instances, answers when asked for [name]. The
    data model makes [name] a field of each descriptor; whether the class
    carries an attribute of that name as well (slots and named tuples do,
    plain per-instance fields do not) is not said, so it is a parameter:
    [false] makes the expression [VCPCommand.name] raise
    [AttributeError]. *)
Class VCPCommandClass : Type := {
  VCPCommand_has_name : bool
}.

(** [VCPCommand.name], evaluated on the class. *)
Definition VCPCommand_name `{!VCPCommandClass} : result unit :=
  if VCPCommand_has_name then Ok tt else Raise AttributeError.

(** [VCPFeatureReturn(value, max)] *)
Record VCPFeatureReturn : Type := mkVCPFeatureReturn {
  value : Z;
  max_ : Z
}.

(** Modelled from the spec: "the declared maximum for a continuous
    feature" that section 4.4 has [set_feature] compare a value with.
    Where a maximum is declared is not among the sources, so it is a
    parameter: for a monitor and a command, the maximum, or [None] when
    none is declared. *)
Class DeclaredMaxima (VCP : Type) : Type := {
  declared_maximum : VCP -> VCPCommand -> option Z
}.

(** The abstract base class [ABCVCP]: what a platform supplies. [World]
    is whatever the platform's monitors live in, [VCP] an instance of the
    class. (The capability string, which no property below reads, is
    left out.) *)
Class ABCVCP (World VCP float : Type) : Type := {
  _set_vcp_feature : VCP -> VCPCommand -> Z -> float -> io World unit;
  _get_vcp_feature : VCP -> VCPCommand -> float -> io World VCPFeatureReturn;
  get_vcps : io World (list VCP)
}.

Section Public.
Context {World VCP float : Type} `{!ABCVCP World VCP float}
  `{!DeclaredMaxima VCP}.

(** Modelled from the spec: the test of section 4.4 on the value of a
    write: it "exceeds the declared maximum for a continuous feature, or
    is absent from param_names's value set for a discrete feature". *)
Definition out_of_range (self : VCP) (com : VCPCommand) (val : Z) : bool :=
  if discrete com then negb (existsb (Z.eqb val) (map snd (param_names com)))
  else
    match declared_maximum self com with
    | Some maximum => val >? maximum
    | None => false
    end.

(** Modelled from the spec: [ABCVCP.set_vcp_feature], whose file is not
    among the sources. Section 4.4: it "fails with Unsupported if not
    writable" (the [TypeError] that [set_attribute] reports as "not a
    writeable feature"), "fails with ValueOutOfRange" on a value that is
    out of range (the [ValueError] that [set_attribute] reports as "above
    the max"), and else hands the value to the platform. *)
Definition set_vcp_feature (self : VCP) (com : VCPCommand) (val : Z)
    (timeout : float) : io World unit :=
  if negb (writeable com) then io_raise TypeError
  else if out_of_range self com val then io_raise ValueError
  else _set_vcp_feature self com val timeout.

(** Modelled from the spec: [ABCVCP.get_vcp_feature]; section 4.4: it
    "fails with Unsupported if not readable", else asks the platform. *)
Definition get_vcp_feature (self : VCP) (com : VCPCommand)
    (timeout : float) : io World VCPFeatureReturn :=
  if negb (readable com) then io_raise TypeError
  else _get_vcp_feature self com timeout.

End Public.

End Pyddc.

(** ** test/pyddc/vcp_dummy.py *)

Module VcpDummy.
Import Pyddc.

(** [None] marks a continuous feature, a list the accepted values of a
    discrete one. *)
Definition supported_codes : gmap Z (option (list Z)) :=
  <[4 := Some []]> (<[16 := None]> (<[18 := None]>
    (<[96 := Some [27; 15; 17]]> (<[170 := Some [1; 2; 4]]> ∅)))).

Definition unknown_max_values : gmap Z Z :=
  <[16 := 80]> (<[18 := 100]> ∅).

(** [current_values] is a module-level dictionary: every [DummyVCP]
    reads and writes the same one. It is the world of this platform;
    this is its content when the module is loaded. *)
Definition current_values : gmap Z Z :=
  <[16 := 75]> (<[18 := 75]> (<[96 := 27]> (<[170 := 2]> ∅))).

(** An instance of [DummyVCP] carries nothing of its own. *)
Inductive DummyVCP : Type := mkDummyVCP.

Section Dummy.
Context {float : Type} {class_ : VCPCommandClass}.

(** [DummyVCP._set_vcp_feature]. The texts of the exceptions are not
    modelled, but building the one of line 47 evaluates
    [VCPCommand.name], on the class, before there is a [ValueError] to
    raise. *)
Definition dummy_set_vcp_feature (self : DummyVCP) (com : VCPCommand)
    (val : Z) (timeout : float) : io (gmap Z Z) unit :=
  fun current_values =>
    let code := code com in
    match supported_codes !! code with
    | None => (Raise OSError, current_values)
    | Some None =>
        match unknown_max_values !! code with
        | None => (Raise KeyError, current_values)
        | Some maxv =>
            if val >? maxv then
              match VCPCommand_name with
              | Ok _ => (Raise ValueError, current_values)
              | Raise err => (Raise err, current_values)
              end
            else (Ok tt, <[code := val]> current_values)
        end
    | Some (Some params) =>
        if existsb (Z.eqb val) params
        then (Ok tt, <[code := val]> current_values)
        else (Raise OSError, current_values)
    end.

(** [DummyVCP._get_vcp_feature] *)
Definition dummy_get_vcp_feature (self : DummyVCP) (com : VCPCommand)
    (timeout : float) : io (gmap Z Z) VCPFeatureReturn :=
  fun current_values =>
    let code := code com in
    match supported_codes !! code with
    | None => (Raise OSError, current_values)
    | Some _ =>
        let maxv :=
          if negb (discrete com) then
            match unknown_max_values !! code with
            | Some m => Ok m
            | None => Raise KeyError
            end
          else Ok 0 in
        match maxv with
        | Raise e => (Raise e, current_values)
        | Ok maxv =>
            match current_values !! code with
            | Some v => (Ok (mkVCPFeatureReturn v maxv), current_values)
            | None => (Raise KeyError, current_values)
            end
        end
    end.

(** [DummyVCP.get_vcps] *)
Definition dummy_get_vcps : io (gmap Z Z) (list DummyVCP) :=
  io_ret [mkDummyVCP; mkDummyVCP; mkDummyVCP].

#[export] Instance DummyVCP_ABCVCP : ABCVCP (gmap Z Z) DummyVCP float := {
  _set_vcp_feature := dummy_set_vcp_feature;
  _get_vcp_feature := dummy_get_vcp_feature;
  get_vcps := dummy_get_vcps
}.

End Dummy.

End VcpDummy.

(** ** monitorboss/impl.py *)

Module Impl.
Import Pyddc.

(** What the functions read off their [attr] argument: [attr.value.com]
    and [attr.value.short_desc]. The [with] blocks around a monitor call
    [__enter__] and [__exit__] of [ABCVCP], which are not among the
    sources and run outside the [try]; the functions are modelled for a
    monitor whose [__enter__] returns it and whose [__exit__] returns
    [None], without raising and without touching what the operations
    read or write. *)
Record Feature : Type := mkFeature {
  com : VCPCommand;
  short_desc : string
}.

(** The dataclass [ToggledAttribute]. *)
Record ToggledAttribute : Type := mkToggledAttribute {
  old : Z;
  new : Z
}.

Section Impl.
Context {World VCP float : Type} `{!ABCVCP World VCP float}
  `{!DeclaredMaxima VCP}.

(** [list_monitors] *)
Definition list_monitors : io World (list VCP) :=
  io_try get_vcps
    (fun err =>
       match err with
       | VCPError =>
           Some (io_raise (MonitorBossError msg_failed_to_list_vcps err))
       | _ => None
       end).

(** [_get_monitor] *)
Definition _get_monitor (mon : Z) : io World VCP :=
  monitors <~ list_monitors ;;
  io_try (io_lift (getitem monitors mon))
    (fun err =>
       match err with
       | IndexError =>
           Some (io_raise (MonitorBossError (msg_monitor_does_not_exist mon) err))
       | _ => None
       end).

(** [get_attribute] *)
Definition get_attribute (mon : Z) (attr : Feature) (timeout : float)
  : io World VCPFeatureReturn :=
  monitor <~ _get_monitor mon ;;
  io_try (get_vcp_feature monitor (com attr) timeout)
    (fun err =>
       match err with
       | VCPError =>
           Some (io_raise (MonitorBossError (msg_could_not_get mon) err))
       | TypeError =>
           Some (io_raise (MonitorBossError msg_not_readable err))
       | _ => None
       end).

(** [set_attribute] *)
Definition set_attribute (mon : Z) (attr : Feature) (val : Z)
    (timeout : float) : io World Z :=
  monitor <~ _get_monitor mon ;;
  _ <~ io_try (set_vcp_feature monitor (com attr) val timeout)
         (fun err =>
            match err with
            | VCPError =>
                Some (io_raise (MonitorBossError (msg_could_not_set mon val) err))
            | TypeError =>
                Some (io_raise (MonitorBossError msg_not_writeable err))
            | _ =>
                if is_ValueError err then
                  Some (io_raise (MonitorBossError (msg_above_max val) err))
                else None
            end) ;;
  io_ret val.

(** [toggle_attribute] *)
Definition toggle_attribute (mon : Z) (attr : Feature) (val1 val2 : Z)
    (timeout : float) : io World ToggledAttribute :=
  got <~ get_attribute mon attr timeout ;;
  let cur_val := value got in
  let new_val := if cur_val =? val1 then val2 else val1 in
  _ <~ set_attribute mon attr new_val timeout ;;
  io_ret (mkToggledAttribute cur_val new_val).

End Impl.

End Impl.

(** ** The codec as the specification words it *)

Module CodecSpec.

(** "fold every byte into the seed via XOR" *)
Definition xor_fold (seed : Z) (bytes : list Z) : Z :=
  foldl Z.lxor seed bytes.

Definition is_byte (x : Z) : Prop := 0 <= x < 256.

(** Reply validation as the specification states it: the fold, seeded
    with 0x50, of [reply[0..len-2)], compared with the final byte. *)
Definition validate_as_specified (reply : list Z) : bool :=
  xor_fold 0x50 (take (length reply - 2) reply) =? List.last reply 0.

(** The packet as the specification states it: header, length, payload,
    and the fold of everything before the checksum. *)
Definition packet_as_specified (payload : list Z) : list Z :=
  let n := len payload in
  let body := [Z.lor 0x80 (n + 1); n] ++ payload in
  let seed :=
    if n =? 1 then Z.shiftl Macos.ARM64_DDC_7BIT_ADDRESS 1
    else Z.lxor (Z.shiftl Macos.ARM64_DDC_7BIT_ADDRESS 1)
           Macos.ARM64_DDC_DATA_ADDRESS in
  body ++ [xor_fold seed body].

(** A reply as a monitor answers a luminance read (current 75 of 100). *)
Definition luminance_reply : list Z :=
  [0x6E; 0x88; 0x02; 0x00; 0x10; 0x00; 0x00; 0x64; 0x00; 0x4B; 0x8B].

End CodecSpec.

(** ** A simulated transport *)

Module SimulatedTransport.

(** What the bus saw, in order. *)
Inductive event : Type :=
| ev_sleep (microseconds : Z)
| ev_write (packet : list Z)
| ev_read (size : Z).

(** A bus that answers from a script: the statuses of the writes to
    come, the status and buffer of the reads to come. *)
Record Bus : Type := mkBus {
  write_script : list Z;
  read_script : list (Z * list Z);
  log : list event
}.

Definition kIOReturnError : Z := 0xE00002BC.

Definition sim_write (_ : unit) (_ _ : Z) (packet : list Z) (_ : Z) (b : Bus)
  : Z * Bus :=
  match write_script b with
  | [] => (kIOReturnError, mkBus [] (read_script b) (log b ++ [ev_write packet]))
  | st :: rest => (st, mkBus rest (read_script b) (log b ++ [ev_write packet]))
  end.

Definition sim_read (_ : unit) (_ _ : Z) (size : Z) (b : Bus)
  : (Z * list Z) * Bus :=
  match read_script b with
  | [] => ((kIOReturnError, replicate (Z.to_nat size) 0),
           mkBus (write_script b) [] (log b ++ [ev_read size]))
  | r :: rest => (r, mkBus (write_script b) rest (log b ++ [ev_read size]))
  end.

(** [time.sleep]: a negative duration is refused with [ValueError]
    before anything happens. *)
Definition sim_sleep (d : Z) : io Bus unit :=
  fun b =>
    if d <? 0 then (Raise ValueError, b)
    else (Ok tt, mkBus (write_script b) (read_script b) (log b ++ [ev_sleep d])).

#[export] Instance Bus_IOAVBus : Macos.IOAVBus Bus unit Z := {
  IOAVServiceWriteI2C := sim_write;
  IOAVServiceReadI2C := sim_read;
  time_sleep := sim_sleep
}.

Definition is_read (e : event) : bool :=
  match e with ev_read _ => true | _ => false end.

Definition is_write (e : event) : bool :=
  match e with ev_write _ => true | _ => false end.

Definition reads (l : list event) : nat := length (List.filter is_read l).

Definition writes (l : list event) : nat := length (List.filter is_write l).

Definition zeros : list Z := replicate 11 0.

End SimulatedTransport.

(** ** A simulated registry *)

Module SimulatedRegistry.
Import Macos.

(** Channels are told apart by a label. *)
Definition node (name_ : string) (path : string)
    (props : list (string * plist)) (av : option string)
  : RegistryEntry string :=
  mkRegistryEntry KERN_SUCCESS name_ path (dict_get props) av.

Definition product (name_ : string) (serial : Z) : list (string * plist) :=
  [("DisplayAttributes",
    PDict [("ProductAttributes",
            PDict [("ManufacturerID", PStr "DEL");
                   ("ProductName", PStr name_);
                   ("SerialNumber", PInt serial)])]);
   ("Transport", PDict [("Upstream", PStr "DP"); ("Downstream", PStr "DP")])].

(** A laptop with its built-in panel and one external monitor. *)
Definition laptop_tree : list (RegistryEntry string) :=
  [ node "AppleARMPE" "IOService:/AppleARMPE" [] None;
    node "AppleCLCD2" "IOService:/AppleARMPE/disp0" (product "Color LCD" 0) None;
    node "DCPAVServiceProxy" "IOService:/AppleARMPE/dcp"
      [("Location", PStr "Embedded")] (Some "av-embedded");
    node "IOMobileFramebufferShim" "IOService:/AppleARMPE/dispext0"
      (product "DELL U2720Q" 1234) None;
    node "DCPAVServiceProxy" "IOService:/AppleARMPE/dcpext"
      [("Location", PStr "External")] (Some "av-external") ].

Definition laptop : Registry string := mkRegistry KERN_SUCCESS laptop_tree.

(** The same machine when the iterator cannot be created. *)
Definition laptop_no_iterator : Registry string :=
  mkRegistry 0xE00002BC laptop_tree.

End SimulatedRegistry.

(** ** Vocabulary of the statements *)

Module TransportSpec.
Import Macos.

Section Pass.
Context {World service float : Type} `{!IOAVBus World service float}.

Variable ioavservice : service.
Variable writeSleepTime readSleepTime retrySleepTime : float.
Variable numOfWriteCycles : Z.

(** The bus traffic of one pass that expects a reply: the write cycles,
    the sleep before the read, and the read, whose status and buffer are
    the result. It returns when each of its sleeps does. *)
Definition read_after_writes (packet : list Z) : io World (Z * list Z) :=
  _ <~ write_cycles ioavservice packet writeSleepTime
         (Z.to_nat (Z.max numOfWriteCycles 1)) false ;;
  _ <~ time_sleep readSleepTime ;;
  read_buffer ioavservice.

(** The same after the sleep that follows a pass that failed. *)
Definition read_after_retry (packet : list Z) : io World (Z * list Z) :=
  _ <~ time_sleep retrySleepTime ;;
  read_after_writes packet.

(** A duration that [time.sleep] accepts, in whatever state the bus
    is. *)
Definition sleeps (t : float) : Prop :=
  forall w : World, exists w', time_sleep t w = (Ok tt, w').

End Pass.

End TransportSpec.

Module EnumerationSpec.
Import Macos.

Section Channels.
Context {service : Type}.

Section Good.
Variable good : service -> Prop.

(** Every channel held by an object of the store is a good one. *)
Definition services_ok (h : list (IOregService service)) : Prop :=
  forall (r : nat) o s, h !! r = Some o -> service_ o = Some s -> good s.

(** A computation that leaves the iterator alone and keeps the
    channels of the store good, whether it returns or raises. *)
Definition keeps {A} (m : io (EnumWorld service) A) : Prop :=
  forall w,
    iterator (snd (m w)) = iterator w
    /\ (services_ok (heap w) -> services_ok (heap (snd (m w)))).

End Good.

(** A channel that comes from a [DCPAVServiceProxy] node among [nodes]
    whose [Location] property is ["External"]. *)
Definition from_external_proxy (nodes : list (RegistryEntry service))
    (s : service) : Prop :=
  exists e,
    e ∈ nodes
    /\ entry_name e = keyDCPAVServiceProxy
    /\ entry_property e "Location" = Some (PStr "External")
    /\ entry_av_service e = Some s.

End Channels.

End EnumerationSpec.

Module DummySpec.
Import Pyddc VcpDummy.

Definition valid_monitor (mon : Z) : bool := (-3 <=? mon) && (mon <? 3).

(** The values the dummy monitor takes for a code. *)
Definition accepts (code_ val : Z) : bool :=
  match supported_codes !! code_ with
  | None => false
  | Some None =>
      match unknown_max_values !! code_ with
      | None => false
      | Some maxv => negb (val >? maxv)
      end
  | Some (Some params) => existsb (Z.eqb val) params
  end.

(** When the dummy monitor can answer a read of a command. *)
Definition answers (c : VCPCommand) : bool :=
  match supported_codes !! code c with
  | None => false
  | Some _ =>
      discrete c
      || match unknown_max_values !! code c with
         | Some _ => true
         | None => false
         end
  end.

End DummySpec.

(** ** Simulated monitors *)

Module SimulatedMonitors.
Import Pyddc Impl.

Definition luminance : Feature :=
  mkFeature (mkVCPCommand "image_luminance" "image luminance" 16 false true true [])
    "luminance".

Definition input_source : Feature :=
  mkFeature
    (mkVCPCommand "input_source" "input source" 96 true true true
       [("usbc", 27); ("dp1", 15); ("hdmi1", 17)])
    "input source".

(** A feature of [monitorboss] that the dummy monitor does not support. *)
Definition power_mode : Feature :=
  mkFeature
    (mkVCPCommand "display_power_mode" "display power mode" 214 true true true
       [("on", 1); ("standby", 2); ("suspend", 3); ("off_soft", 4);
        ("off_hard", 5)])
    "power mode".

(** A class [VCPCommand] that carries an attribute [name] itself, and
    one that keeps [name] in its instances only. *)
Definition named_class : VCPCommandClass := {| VCPCommand_has_name := true |}.

Definition plain_class : VCPCommandClass := {| VCPCommand_has_name := false |}.

(** Maxima as the example of the specification declares them: 100 for
    luminance, and for contrast; and no declared maximum at all. *)
Definition registry_maxima {VCP : Type} : DeclaredMaxima VCP :=
  {| declared_maximum :=
       fun _ c => if (code c =? 16) || (code c =? 18) then Some 100 else None |}.

Definition no_maxima {VCP : Type} : DeclaredMaxima VCP :=
  {| declared_maximum := fun _ _ => None |}.

(** A monitor that acknowledges every write and ignores it: what
    [set_attribute] returns is still the argument. *)
Inductive DeafVCP : Type := mkDeafVCP.

#[export] Instance DeafVCP_ABCVCP : ABCVCP Z DeafVCP Z := {
  _set_vcp_feature := fun _ _ _ _ => io_ret tt;
  _get_vcp_feature := fun _ _ _ => fun w => (Ok (mkVCPFeatureReturn w 100), w);
  get_vcps := io_ret [mkDeafVCP]
}.

End SimulatedMonitors.

(** ** A scripted exchange *)

Module ScriptedExchange.
Import Macos CodecSpec SimulatedTransport TransportSpec.

(** Two replies with a wrong checksum, then a good one, then another
    good one that must never be read. *)
Definition flaky_bus : Bus :=
  mkBus (replicate 8 0)
    [(0, [0x6E; 0x88; 0x02; 0x00; 0x10; 0x00; 0x00; 0x64; 0x00; 0x4B; 0x00]);
     (0, [0x6E; 0x88; 0x02; 0x00; 0x10; 0x00; 0x00; 0x64; 0x00; 0x4B; 0xFF]);
     (0, luminance_reply);
     (0, [0x6E; 0x88; 0x02; 0x00; 0x10; 0x00; 0x00; 0x64; 0x00; 0x32; 0xF2])]
    [].

Definition request : list Z := [0x82; 0x01; 0x10; 0xFD].

Definition pass : io Bus (Z * list Z) :=
  read_after_writes tt 10000 50000 2 request.

Definition next_pass : io Bus (Z * list Z) :=
  read_after_retry tt 10000 50000 10000 2 request.

End ScriptedExchange.

(** ** Bus traffic *)

Module TrafficSpec.
Import SimulatedTransport.

(** A stretch of the log that holds [nw] writes, all of them of [packet],
    and [nr] reads. *)
Definition traffic (packet : list Z) (nw nr : nat) (d : list event) : Prop :=
  writes d = nw
  /\ reads d = nr
  /\ Forall (fun e => is_write e = true -> e = ev_write packet) d.

(** What [read] decodes from a reply: (current, maximum), each from two
    bytes, high byte first. *)
Definition decoded (reply : list Z) : Z * Z :=
  (nth 8 reply 0 * 256 + nth 9 reply 0, nth 6 reply 0 * 256 + nth 7 reply 0).

End TrafficSpec.

(** ** The registry walk, node by node *)

Module WalkSpec.
Import Macos.

Section Walk.
Context {service : Type}.

(** The two tests of the loop body on the name of a node. *)
Definition is_framebuffer (e : RegistryEntry service) : bool :=
  in_list (entry_name e) keysFramebuffer.

Definition is_proxy (e : RegistryEntry service) : bool :=
  String.eqb (entry_name e) keyDCPAVServiceProxy.

(** The nodes the walk acts on: those named exactly as a framebuffer or
    as the proxy, up to the first node whose name cannot be read. *)
Fixpoint relevant (it : list (RegistryEntry service))
  : list (RegistryEntry service) :=
  match it with
  | [] => []
  | e :: rest =>
      if negb (entry_name_ret e =? KERN_SUCCESS) then []
      else if is_framebuffer e || is_proxy e then e :: relevant rest
      else relevant rest
  end.

(** The location numbers of the handles the walk appends, one per proxy
    node: the number of framebuffer nodes met before it, or [None] when
    there was none. *)
Fixpoint locations (count : Z) (it : list (RegistryEntry service))
  : list (option Z) :=
  match it with
  | [] => []
  | e :: rest =>
      if negb (entry_name_ret e =? KERN_SUCCESS) then []
      else if is_framebuffer e then locations (count + 1) rest
      else if is_proxy e then
        (if count =? 0 then None else Some count) :: locations count rest
      else locations count rest
  end.

(** The handle a proxy node is applied to, as a reference into a store
    that held nothing before the enumeration: the blank handle made
    before the loop is at 0, the handle of the k-th framebuffer at k. *)
Definition handle_of (location_ : option Z) : ref :=
  match location_ with
  | None => 0%nat
  | Some k => Z.to_nat k
  end.

(** The body of the loop of [getIoregServicesForMatching], applied to a
    list of nodes one after the other. *)
Fixpoint walk (nodes : list (RegistryEntry service)) (serviceLocation_ : Z)
    (ioregService : ref) (ioregServicesForMatching : list ref)
  : io (EnumWorld service) (list ref) :=
  match nodes with
  | [] => io_ret ioregServicesForMatching
  | e :: rest =>
      if is_framebuffer e then
        ioregService' <~ getIORegServiceAppleCDC2Properties e ;;
        _ <~ update ioregService'
               (set_serviceLocation (Some (serviceLocation_ + 1))) ;;
        walk rest (serviceLocation_ + 1) ioregService' ioregServicesForMatching
      else if is_proxy e then
        _ <~ setIORegServiceDCPAVServiceProxy e ioregService ;;
        walk rest serviceLocation_ ioregService
          (ioregServicesForMatching ++ [ioregService])
      else walk rest serviceLocation_ ioregService ioregServicesForMatching
  end.

(** Whether every name the walk decodes is UTF-8: the names of the
    nodes up to the first one whose name cannot be read. *)
Fixpoint names_decode (it : list (RegistryEntry service)) : bool :=
  match it with
  | [] => true
  | e :: rest =>
      if negb (entry_name_ret e =? KERN_SUCCESS) then true
      else utf8_valid (entry_name e) && names_decode rest
  end.

(** A display node whose path is UTF-8 and whose [DisplayAttributes]
    and [Transport] properties are each absent (or empty) or a
    dictionary, the [ProductAttributes] inside the former being absent
    or a dictionary too. *)
Definition wellformed_display (e : RegistryEntry service) : Prop :=
  utf8_valid (entry_path e) = true
  /\ (truthy (entry_property e "DisplayAttributes") = false
      \/ exists d, entry_property e "DisplayAttributes" = Some (PDict d)
                   /\ (dict_get d "ProductAttributes" = None
                       \/ exists p, dict_get d "ProductAttributes" = Some (PDict p)))
  /\ (truthy (entry_property e "Transport") = false
      \/ exists t, entry_property e "Transport" = Some (PDict t)).

(** The names [getIoregServicesForMatching] asks the iterator for. *)
Definition interests : list string := [keyDCPAVServiceProxy] ++ keysFramebuffer.

(** A computation whose result and store depend on the store alone. *)
Definition heap_only {A} (m : io (EnumWorld service) A) : Prop :=
  forall w1 w2,
    heap w1 = heap w2 ->
    fst (m w1) = fst (m w2) /\ heap (snd (m w1)) = heap (snd (m w2)).

(** A computation that changes no object of the store but the one at
    [r], and adds none. *)
Definition touches (r : ref) {A} (m : io (EnumWorld service) A) : Prop :=
  forall w,
    length (heap (snd (m w))) = length (heap w)
    /\ forall r', r' <> r -> heap (snd (m w)) !! r' = heap w !! r'.

(** A computation that always returns, and never raises. *)
Definition returns {A} (m : io (EnumWorld service) A) : Prop :=
  forall w, exists a w', m w = (Ok a, w').

(** A computation that, when it returns, returns [a]. *)
Definition yields {A} (a : A) (m : io (EnumWorld service) A) : Prop :=
  forall w a' w', m w = (Ok a', w') -> a' = a.

End Walk.

End WalkSpec.

(** ** A registry with nodes the walk has no use for *)

Module NoisyRegistry.
Import Macos SimulatedRegistry.

(** The laptop of [SimulatedRegistry] with a node whose name only
    contains a framebuffer name, and, at the end, a node whose name
    cannot be read followed by one more display. *)
Definition noisy_tree : list (RegistryEntry string) :=
  [ node "AppleARMPE" "IOService:/AppleARMPE" [] None;
    node "AppleCLCD2" "IOService:/AppleARMPE/disp0" (product "Color LCD" 0) None;
    node "AppleCLCD2Backlight" "IOService:/AppleARMPE/disp0/bl" [] None;
    node "DCPAVServiceProxy" "IOService:/AppleARMPE/dcp"
      [("Location", PStr "Embedded")] (Some "av-embedded");
    node "IOMobileFramebufferShim" "IOService:/AppleARMPE/dispext0"
      (product "DELL U2720Q" 1234) None;
    node "DCPAVServiceProxy" "IOService:/AppleARMPE/dcpext"
      [("Location", PStr "External")] (Some "av-external");
    mkRegistryEntry 0xE00002BC "" "" (fun _ => None) None;
    node "IOMobileFramebufferShim" "IOService:/AppleARMPE/dispext1"
      (product "LG HDR 4K" 77) None;
    node "DCPAVServiceProxy" "IOService:/AppleARMPE/dcpext1"
      [("Location", PStr "External")] (Some "av-external-1") ].

Definition noisy : Registry string := mkRegistry KERN_SUCCESS noisy_tree.

(** A display whose [Transport] property is a string instead of a
    dictionary. *)
Definition odd_tree : list (RegistryEntry string) :=
  [ node "AppleCLCD2" "IOService:/AppleARMPE/disp0"
      [("Transport", PStr "DP")] None;
    node "DCPAVServiceProxy" "IOService:/AppleARMPE/dcp"
      [("Location", PStr "External")] (Some "av-external") ].

Definition odd : Registry string := mkRegistry KERN_SUCCESS odd_tree.

(** One display followed by two proxy nodes, the second of them not
    external. *)
Definition twin_tree : list (RegistryEntry string) :=
  [ node "IOMobileFramebufferShim" "IOService:/AppleARMPE/dispext0"
      (product "DELL U2720Q" 1234) None;
    node "DCPAVServiceProxy" "IOService:/AppleARMPE/dcpext"
      [("Location", PStr "External")] (Some "av-external");
    node "DCPAVServiceProxy" "IOService:/AppleARMPE/dcp"
      [("Location", PStr "Embedded")] (Some "av-embedded") ].

Definition twin : Registry string := mkRegistry KERN_SUCCESS twin_tree.

(** The laptop with one more node, of no interest to the walk, whose
    name is the single byte 0xFF, which is not UTF-8. *)
Definition garbled_tree : list (RegistryEntry string) :=
  laptop_tree
  ++ [ node (String (ascii_of_N 0xFF) EmptyString) "IOService:/AppleARMPE/x"
         [] None ].

Definition garbled : Registry string := mkRegistry KERN_SUCCESS garbled_tree.

End NoisyRegistry.

Example encode_luminance_read :
  Macos.encode [0x10] = Ok [0x82; 0x01; 0x10; 0xFD].
Proof. reflexivity. Qed.

Example encode_luminance_write :
  Macos.encode [0x03; 0x10; 0x00; 0x32] = Ok [0x85; 0x04; 0x03; 0x10; 0x00; 0x32; 0x9F].
Proof. reflexivity. Qed.

(** ** Properties of the packet codec *)

Module CodecProofs.
Import Macos CodecSpec.

Lemma len_app {A} (l k : list A) : len (l ++ k) = len l + len k.
Proof. unfold len. rewrite length_app. lia. Qed.

Lemma len_nonneg {A} (l : list A) : 0 <= len l.
Proof. unfold len. lia. Qed.

(** Case analysis on the integer comparisons of the goal. *)
Ltac zcases :=
  repeat match goal with
    | |- context [?a <? ?b] => destruct (Z.ltb_spec a b)
    | |- context [?a <=? ?b] => destruct (Z.leb_spec a b)
    | |- context [?a >? ?b] => rewrite (Z.gtb_ltb a b)
    | |- context [?a =? ?b] => destruct (Z.eqb_spec a b)
    end;
  cbn [andb orb negb]; try lia.

Lemma getitem_nonneg {A} (l : list A) (i : nat) (x : A) :
  l !! i = Some x -> getitem l (Z.of_nat i) = Ok x.
Proof.
  intros H. unfold getitem, len.
  pose proof (lookup_lt_Some _ _ _ H) as Hlt.
  zcases. rewrite Nat2Z.id, H. reflexivity.
Qed.

Lemma getitem_last {A} (l : list A) (x : A) :
  getitem (l ++ [x]) (-1) = Ok x.
Proof.
  unfold getitem. rewrite len_app. unfold len. cbn [length].
  zcases.
  replace (Z.to_nat (Z.of_nat (length l) + Z.of_nat 1 + -1)) with (length l) by lia.
  rewrite lookup_app_r by lia. rewrite Nat.sub_diag. reflexivity.
Qed.

Lemma getitem_nil {A} (i : Z) : getitem (@nil A) i = Raise IndexError.
Proof. unfold getitem, len. cbn [length]. zcases; reflexivity. Qed.

(** The loop of [checksum] over indices that exist is the fold of the
    slice it walks. *)
Lemma checksum_loop_fold (count : nat) :
  forall (chkd : Z) (data : list Z) (i : nat),
    (i + count <= length data)%nat ->
    checksum_loop chkd data (Z.of_nat i) count
    = Ok (xor_fold chkd (take count (drop i data))).
Proof.
  induction count as [|k IH]; intros chkd data i Hle.
  - reflexivity.
  - destruct (lookup_lt_is_Some_2 data i ltac:(lia)) as [x Hx].
    cbn [checksum_loop]. rewrite (getitem_nonneg _ _ _ Hx). cbn [bind].
    replace (Z.of_nat i + 1) with (Z.of_nat (S i)) by lia.
    rewrite IH by lia.
    rewrite (drop_S _ _ _ Hx). reflexivity.
Qed.

(** [checksum(chk, data, 0, len(data) - 2)] folds every element but the
    last. *)
Lemma checksum_all_but_last (chk : Z) (body : list Z) (final : Z) :
  checksum chk (body ++ [final]) 0 (len (body ++ [final]) - 2)
  = Ok (xor_fold chk body).
Proof.
  unfold checksum. rewrite len_app. unfold len. cbn [length].
  replace (Z.to_nat (Z.of_nat (length body) + Z.of_nat 1 - 2 + 1 - 0))
    with (length body) by lia.
  change 0 with (Z.of_nat 0).
  rewrite (checksum_loop_fold (length body) chk (body ++ [final]) 0)
    by (rewrite length_app; cbn [length]; lia).
  rewrite drop_0, take_app_length. reflexivity.
Qed.

Lemma validate_snoc (body : list Z) (final : Z) :
  validate (body ++ [final]) = Ok (xor_fold 0x50 body =? final).
Proof.
  unfold validate. rewrite checksum_all_but_last. cbn [bind].
  rewrite getitem_last. reflexivity.
Qed.

Lemma validate_nil : validate [] = Raise IndexError.
Proof. reflexivity. Qed.

Lemma snoc_decompose {A} (l : list A) (d : A) :
  l <> [] -> l = take (length l - 1) l ++ [List.last l d].
Proof.
  induction l as [|a [|b l'] IH]; intros Hne.
  - congruence.
  - reflexivity.
  - specialize (IH ltac:(discriminate)).
    change (List.last (a :: b :: l') d) with (List.last (b :: l') d).
    replace (length (a :: b :: l') - 1)%nat with (S (length (b :: l') - 1))
      by (simpl; lia).
    rewrite firstn_cons. simpl app. f_equal. exact IH.
Qed.

(** *** Bytes stay bytes *)

Lemma is_byte_log2 (x : Z) : is_byte x <-> 0 <= x /\ Z.log2 x < 8.
Proof.
  unfold is_byte. split.
  - intros [H0 H1]. split; [lia|].
    destruct (Z.eq_dec x 0) as [->|Hx]; [reflexivity|].
    apply Z.log2_lt_pow2; lia.
  - intros [H0 H1]. split; [lia|].
    destruct (Z.eq_dec x 0) as [->|Hx]; [lia|].
    change 256 with (2 ^ 8). apply Z.log2_lt_pow2; lia.
Qed.

Lemma is_byte_lxor (a b : Z) : is_byte a -> is_byte b -> is_byte (Z.lxor a b).
Proof.
  rewrite !is_byte_log2. intros [Ha Hla] [Hb Hlb]. split.
  - apply Z.lxor_nonneg. tauto.
  - pose proof (Z.log2_lxor a b Ha Hb). lia.
Qed.

Lemma is_byte_lor (a b : Z) : is_byte a -> is_byte b -> is_byte (Z.lor a b).
Proof.
  rewrite !is_byte_log2. intros [Ha Hla] [Hb Hlb]. split.
  - apply Z.lor_nonneg. tauto.
  - rewrite (Z.log2_lor a b Ha Hb). lia.
Qed.

Lemma xor_fold_is_byte (l : list Z) :
  forall seed, is_byte seed -> Forall is_byte l -> is_byte (xor_fold seed l).
Proof.
  induction l as [|x l IH]; intros seed Hs Hl; [exact Hs|].
  inversion Hl; subst. apply IH; [apply is_byte_lxor|]; assumption.
Qed.

Lemma xor_fold_seed (l : list Z) :
  forall seed, xor_fold seed l = Z.lxor seed (xor_fold 0 l).
Proof.
  induction l as [|x l IH]; intros seed; unfold xor_fold in *; cbn [foldl].
  - rewrite Z.lxor_0_r. reflexivity.
  - rewrite IH, (IH (Z.lxor 0 x)), Z.lxor_0_l, Z.lxor_assoc. reflexivity.
Qed.

Lemma xor_fold_app (l k : list Z) (seed : Z) :
  xor_fold seed (l ++ k) = xor_fold (xor_fold seed l) k.
Proof. unfold xor_fold. apply foldl_app. Qed.

(** *** The packet builder, step by step *)

Lemma bytearray_append_Ok (b : list Z) (x : Z) :
  is_byte x -> bytearray_append b x = Ok (b ++ [x]).
Proof. unfold is_byte, bytearray_append. intros H. zcases. reflexivity. Qed.

Lemma bytearray_append_inv (b q : list Z) (x : Z) :
  bytearray_append b x = Ok q -> q = b ++ [x] /\ is_byte x.
Proof.
  unfold bytearray_append, is_byte.
  destruct (Z.leb_spec 0 x), (Z.ltb_spec x 256); cbn [andb];
    intros Heq; inversion Heq; subst; split; (reflexivity || lia).
Qed.

Lemma append_all_Ok (send : list Z) :
  forall packet, Forall is_byte send -> append_all packet send = Ok (packet ++ send).
Proof.
  induction send as [|x send IH]; intros packet Hs; cbn [append_all].
  - rewrite app_nil_r. reflexivity.
  - inversion Hs; subst. rewrite bytearray_append_Ok by assumption.
    cbn [bind]. rewrite IH by assumption. rewrite <- app_assoc. reflexivity.
Qed.

Lemma append_all_inv (send : list Z) :
  forall packet q,
    append_all packet send = Ok q -> q = packet ++ send /\ Forall is_byte send.
Proof.
  induction send as [|x send IH]; intros packet q H; cbn [append_all] in H.
  - inversion H; subst. rewrite app_nil_r. split; [reflexivity|constructor].
  - destruct (bytearray_append packet x) as [p'|e] eqn:Hx; cbn [bind] in H;
      [|discriminate].
    apply bytearray_append_inv in Hx as [-> Hbx].
    apply IH in H as [-> Hrest]. rewrite <- app_assoc.
    split; [reflexivity|constructor; assumption].
Qed.

Lemma bytearray_setitem_last (body : list Z) (x c : Z) :
  bytearray_setitem (body ++ [x]) (-1) c
  = if (0 <=? c) && (c <? 256) then Ok (body ++ [c]) else Raise ValueError.
Proof.
  unfold bytearray_setitem. rewrite len_app. unfold len. cbn [length].
  destruct (Z.ltb_spec (-1) 0); [|lia].
  destruct (Z.leb_spec 0 (Z.of_nat (length body) + Z.of_nat 1 + -1)); [|lia].
  destruct (Z.ltb_spec (Z.of_nat (length body) + Z.of_nat 1 + -1)
              (Z.of_nat (length body) + Z.of_nat 1)); [|lia].
  cbn [andb].
  replace (Z.to_nat (Z.of_nat (length body) + Z.of_nat 1 + -1))
    with (length body + 0)%nat by lia.
  rewrite insert_app_r. reflexivity.
Qed.

Lemma checksum_seed_is_byte (send : list Z) : is_byte (checksum_seed send).
Proof.
  unfold checksum_seed, is_byte.
  destruct (len send =? 1); vm_compute; split; congruence.
Qed.

(** Whenever the builder returns, it returns the specified packet. *)
Lemma encode_inv (send packet : list Z) :
  encode send = Ok packet ->
  packet = packet_as_specified send /\ Forall is_byte send.
Proof.
  unfold encode. intros H.
  destruct (bytearray_append [] (Z.lor 128 (len send + 1))) as [p1|] eqn:H1;
    cbn [bind] in H; [|discriminate].
  apply bytearray_append_inv in H1 as [-> Hhdr].
  destruct (bytearray_append _ (len send)) as [p2|] eqn:H2;
    cbn [bind] in H; [|discriminate].
  apply bytearray_append_inv in H2 as [-> Hn].
  destruct (append_all _ send) as [p3|] eqn:H3; cbn [bind] in H; [|discriminate].
  apply append_all_inv in H3 as [-> Hsend].
  destruct (bytearray_append _ 0) as [p4|] eqn:H4; cbn [bind] in H; [|discriminate].
  apply bytearray_append_inv in H4 as [-> _].
  rewrite checksum_all_but_last in H. cbn [bind] in H.
  rewrite bytearray_setitem_last in H.
  destruct ((0 <=? _) && _); inversion H; subst.
  split; [|assumption]. reflexivity.
Qed.

(** The builder returns as soon as header, length and payload are
    bytes. *)
Lemma encode_Ok (send : list Z) :
  0 <= len send <= 254 -> Forall is_byte send ->
  encode send = Ok (packet_as_specified send).
Proof.
  intros Hn Hsend. unfold encode.
  assert (Hhdr : is_byte (Z.lor 128 (len send + 1))).
  { apply is_byte_lor; unfold is_byte; lia. }
  rewrite bytearray_append_Ok by assumption. cbn [bind].
  rewrite bytearray_append_Ok by (unfold is_byte; lia). cbn [bind].
  rewrite append_all_Ok by assumption. cbn [bind].
  rewrite bytearray_append_Ok by (unfold is_byte; lia). cbn [bind].
  rewrite checksum_all_but_last. cbn [bind].
  rewrite bytearray_setitem_last.
  assert (Hc : is_byte (xor_fold (checksum_seed send)
                          ((([] ++ [Z.lor 128 (len send + 1)]) ++ [len send]) ++ send))).
  { apply xor_fold_is_byte; [apply checksum_seed_is_byte|].
    repeat (apply Forall_app; split); try assumption;
      repeat constructor; (exact (proj1 Hhdr) || exact (proj2 Hhdr) || lia). }
  unfold is_byte in Hc. zcases. reflexivity.
Qed.

(** *** Reply validation *)

(** C2, as the code has it: for every non-empty reply buffer of length
    len, validation folds, from the seed 0x50, the bytes at positions 0
    through len-2 (every byte but the last) and accepts the reply if and
    only if that fold equals the final byte [reply[len-1]]. *)
Theorem validate_folds_all_but_final (reply : list Z) :
  reply <> [] ->
  validate reply
  = Ok (xor_fold 0x50 (take (length reply - 1) reply) =? List.last reply 0).
Proof.
  intros Hne. rewrite (snoc_decompose reply 0 Hne) at 1.
  apply validate_snoc.
Qed.

Lemma validate_folds_all_but_final_witness :
  luminance_reply <> [] /\ validate luminance_reply = Ok true.
Proof.
  split; [discriminate|].
  exact (validate_folds_all_but_final luminance_reply ltac:(discriminate)).
Defined.

(** C2 as stated fails: a genuine reply is accepted although the fold of
    positions 0 through len-3 differs from its final byte, and a buffer
    whose final byte is that shorter fold is rejected. *)
Lemma validate_as_specified_counterexample :
  (validate luminance_reply = Ok true
   /\ validate_as_specified luminance_reply = false)
  /\ (validate [0x6E; 0x88; 0x02; 0x00; 0x10; 0x00; 0x00; 0x64; 0x00; 0x4B; 0xC0]
       = Ok false
      /\ validate_as_specified
           [0x6E; 0x88; 0x02; 0x00; 0x10; 0x00; 0x00; 0x64; 0x00; 0x4B; 0xC0]
         = true).
Proof. vm_compute. repeat split. Qed.

(** *** Packet layout *)

(** C4, within the range a packet can be built in: for every payload of
    bytes of length n with 1 <= n <= 254, the packet is the header
    [0x80 | (n+1)], the length n, the payload, and the XOR fold of all of
    those (positions 0 through length-2) from the seed
    [sourceAddress << 1] when n = 1 and
    [(sourceAddress << 1) ^ dataAddress] when n >= 2. *)
Theorem encode_packet_layout (payload : list Z) :
  1 <= len payload <= 254 ->
  Forall is_byte payload ->
  let n := len payload in
  let seed :=
    if n =? 1 then Z.shiftl ARM64_DDC_7BIT_ADDRESS 1
    else Z.lxor (Z.shiftl ARM64_DDC_7BIT_ADDRESS 1) ARM64_DDC_DATA_ADDRESS in
  encode payload
  = Ok ([Z.lor 0x80 (n + 1); n] ++ payload
        ++ [xor_fold seed ([Z.lor 0x80 (n + 1); n] ++ payload)]).
Proof.
  intros Hn Hb. cbv zeta. rewrite encode_Ok by (assumption || lia).
  unfold packet_as_specified. cbv zeta. rewrite <- app_assoc. reflexivity.
Qed.

Lemma encode_packet_layout_witness :
  1 <= len [0x03; 0x10; 0x00; 0x32] <= 254
  /\ Forall is_byte [0x03; 0x10; 0x00; 0x32]
  /\ encode [0x03; 0x10; 0x00; 0x32]
     = Ok [0x85; 0x04; 0x03; 0x10; 0x00; 0x32; 0x9F].
Proof.
  assert (Hn : 1 <= len [0x03; 0x10; 0x00; 0x32] <= 254) by (vm_compute; split; congruence).
  assert (Hb : Forall is_byte [0x03; 0x10; 0x00; 0x32])
    by (repeat constructor; unfold is_byte; lia).
  split; [exact Hn|]. split; [exact Hb|].
  exact (encode_packet_layout [0x03; 0x10; 0x00; 0x32] Hn Hb).
Defined.

(** C4 as stated fails for long payloads: with 255 payload bytes the
    header [0x80 | 256] is 384, which a bytearray refuses, so no packet
    is produced. *)
Lemma encode_packet_layout_counterexample :
  len (replicate 255 0) >= 1
  /\ Forall is_byte (replicate 255 0)
  /\ encode (replicate 255 0) = Raise ValueError
  /\ encode (replicate 255 0) <> Ok (packet_as_specified (replicate 255 0)).
Proof.
  split; [vm_compute; congruence|].
  split; [apply Forall_replicate; unfold is_byte; lia|].
  split; [vm_compute; reflexivity|].
  vm_compute. discriminate.
Qed.

(** *** Encoding against validation *)

Ltac xor_bits :=
  apply Z.bits_inj'; intros ? _; rewrite ?Z.lxor_spec;
  repeat match goal with
    | |- context [Z.testbit ?a ?n] => destruct (Z.testbit a n)
    end; reflexivity.

Lemma xor_fold_insert (l : list Z) (i : nat) (x b seed : Z) :
  l !! i = Some x ->
  xor_fold seed (<[i := b]> l) = Z.lxor (Z.lxor (xor_fold seed l) x) b.
Proof.
  intros Hx.
  pose proof (lookup_lt_Some _ _ _ Hx) as Hlt.
  rewrite insert_take_drop by assumption.
  rewrite <- (take_drop_middle l i x Hx) at 3.
  rewrite !xor_fold_app. unfold xor_fold at 1 3. cbn [foldl].
  fold (xor_fold (Z.lxor (xor_fold seed (take i l)) b) (drop (S i) l)).
  fold (xor_fold (Z.lxor (xor_fold seed (take i l)) x) (drop (S i) l)).
  rewrite (xor_fold_seed _ (Z.lxor _ b)), (xor_fold_seed _ (Z.lxor _ x)).
  xor_bits.
Qed.

Lemma validate_true_inv (rep : list Z) :
  validate rep = Ok true ->
  exists body final, rep = body ++ [final] /\ xor_fold 0x50 body = final.
Proof.
  intros H. destruct rep as [|r rep'] eqn:E; [discriminate|].
  rewrite <- E in *.
  assert (Hne : rep <> []) by (subst; discriminate).
  exists (take (length rep - 1) rep), (List.last rep 0).
  split; [apply snoc_decompose; assumption|].
  rewrite (snoc_decompose rep 0 Hne), validate_snoc in H.
  inversion H as [Heq]. apply Z.eqb_eq in Heq. exact Heq.
Qed.

(** C3, as the code has it: the packet built for any valid payload is
    rejected by reply validation, whose seed 0x50 is not the builder's
    seed; and for every buffer that validation accepts, giving any
    single non-checksum byte another value makes validation reject. *)
Theorem encode_rejected_and_corruption_detected :
  (forall payload packet,
      encode payload = Ok packet -> validate packet = Ok false)
  /\ (forall reply (i : nat) x b,
         validate reply = Ok true ->
         (i < length reply - 1)%nat ->
         reply !! i = Some x ->
         b <> x ->
         validate (<[i := b]> reply) = Ok false).
Proof.
  split.
  - intros payload packet H. apply encode_inv in H as [-> _].
    unfold packet_as_specified. cbv zeta. rewrite validate_snoc.
    f_equal. apply Z.eqb_neq. intros Heq.
    match type of Heq with
    | xor_fold ?s1 ?body = xor_fold ?s2 _ =>
        rewrite (xor_fold_seed body s1), (xor_fold_seed body s2) in Heq;
        assert (Hs : Z.lxor s1 s2 = 0)
          by (rewrite <- (Z.lxor_nilpotent (Z.lxor s1 (xor_fold 0 body)));
              rewrite Heq at 2; xor_bits)
    end.
    destruct (len payload =? 1); vm_compute in Hs; discriminate.
  - intros reply i x b Hv Hi Hx Hb.
    destruct (validate_true_inv reply Hv) as (body & final & -> & Hfold).
    rewrite length_app in Hi. cbn [length] in Hi.
    rewrite lookup_app_l in Hx by lia.
    rewrite insert_app_l by lia. rewrite validate_snoc.
    rewrite (xor_fold_insert body i x b 80 Hx). f_equal.
    apply Z.eqb_neq. intros Heq. apply Hb.
    change 80 with 0x50 in Heq. rewrite Hfold in Heq.
    symmetry. apply Z.lxor_eq.
    rewrite <- (Z.lxor_nilpotent final). rewrite <- Heq at 1. xor_bits.
Qed.

Lemma encode_rejected_and_corruption_detected_witness :
  (encode [0x10] = Ok [0x82; 0x01; 0x10; 0xFD]
   /\ validate [0x82; 0x01; 0x10; 0xFD] = Ok false)
  /\ (validate luminance_reply = Ok true
      /\ validate (<[9%nat := 0x4C]> luminance_reply) = Ok false).
Proof.
  split.
  - split; [reflexivity|].
    exact (proj1 encode_rejected_and_corruption_detected
             [0x10] [0x82; 0x01; 0x10; 0xFD] eq_refl).
  - split; [reflexivity|].
    refine (proj2 encode_rejected_and_corruption_detected
              luminance_reply 9%nat 0x4B 0x4C eq_refl _ eq_refl _).
    + vm_compute. lia.
    + discriminate.
Defined.

(** C3 as stated fails at its first half: the packet built for the
    luminance read request does not pass validation. *)
Lemma validate_encode_counterexample :
  encode [0x10] = Ok [0x82; 0x01; 0x10; 0xFD]
  /\ validate [0x82; 0x01; 0x10; 0xFD] = Ok false.
Proof. split; reflexivity. Qed.

End CodecProofs.

(** ** Properties of the transport exchange *)

Module TransportProofs.
Import Macos CodecSpec TransportSpec.

Section Exchange.
Context {World service float : Type} `{!IOAVBus World service float}.

Variable ioavservice : service.
Variable writeSleepTime readSleepTime retrySleepTime : float.
Variable numOfWriteCycles : Z.

(** The incoming [success] never survives the write cycles: there is
    at least one of them. *)
Lemma write_cycles_overwrites (packet : list Z) (k : nat) :
  forall (b1 b2 : bool) (w : World),
    write_cycles ioavservice packet writeSleepTime (S k) b1 w
    = write_cycles ioavservice packet writeSleepTime (S k) b2 w.
Proof. intros b1 b2 w. reflexivity. Qed.

Lemma write_cycles_any (packet : list Z) (b : bool) (w : World) :
  write_cycles ioavservice packet writeSleepTime
    (Z.to_nat (Z.max numOfWriteCycles 1)) b w
  = write_cycles ioavservice packet writeSleepTime
      (Z.to_nat (Z.max numOfWriteCycles 1)) false w.
Proof.
  destruct (Z.to_nat (Z.max numOfWriteCycles 1)) as [|k] eqn:E; [lia|].
  apply write_cycles_overwrites.
Qed.

(** What one pass with [read_reply = True] reports when its sleeps
    return and its read returns 0: the checksum verdict. *)
Lemma attempt_with_reply (packet : list Z) (b : bool) (w w' : World)
    (rep : list Z) :
  read_after_writes ioavservice writeSleepTime readSleepTime
    numOfWriteCycles packet w = (Ok (0, rep), w') ->
  attempt ioavservice packet true writeSleepTime numOfWriteCycles
    readSleepTime b w
  = match validate rep with
    | Ok valid => (Ok (valid, rep), w')
    | Raise e => (Raise e, w')
    end.
Proof.
  unfold read_after_writes, attempt, io_bind.
  rewrite (write_cycles_any packet b w).
  destruct (write_cycles _ _ _ _ _ _) as [[st|e] w1];
    [|intros Hr; discriminate Hr].
  destruct (time_sleep readSleepTime w1) as [[[]|e] w2];
    [|intros Hr; discriminate Hr].
  destruct (read_buffer ioavservice w2) as [[[ret rep']|e] w3];
    intros Hr; inversion Hr; subst.
  cbn [Z.eqb]. unfold io_lift, io_ret.
  destruct (validate rep); reflexivity.
Qed.

Lemma attempt_after_retry (packet : list Z) (b : bool) (w w' : World)
    (rep : list Z) :
  read_after_retry ioavservice writeSleepTime readSleepTime retrySleepTime
    numOfWriteCycles packet w = (Ok (0, rep), w') ->
  exists w1,
    time_sleep retrySleepTime w = (Ok tt, w1)
    /\ attempt ioavservice packet true writeSleepTime numOfWriteCycles
         readSleepTime b w1
       = match validate rep with
         | Ok valid => (Ok (valid, rep), w')
         | Raise e => (Raise e, w')
         end.
Proof.
  unfold read_after_retry. unfold io_bind at 1.
  destruct (time_sleep retrySleepTime w) as [[[]|e] w1];
    [|intros Hr; discriminate Hr].
  intros Hr. exists w1. split; [reflexivity|].
  apply attempt_with_reply. exact Hr.
Qed.

Lemma retry_pass_failed (packet : list Z) (read_reply : bool) (k : nat)
    (b : bool) (rep0 rep : list Z) (w w1 : World) :
  attempt ioavservice packet read_reply writeSleepTime numOfWriteCycles
    readSleepTime b w = (Ok (false, rep), w1) ->
  retry_loop ioavservice packet read_reply writeSleepTime numOfWriteCycles
    readSleepTime retrySleepTime (S k) b rep0 w
  = (_ <~ time_sleep retrySleepTime ;;
     retry_loop ioavservice packet read_reply writeSleepTime numOfWriteCycles
       readSleepTime retrySleepTime k false rep) w1.
Proof.
  intros H. cbn [retry_loop]. unfold io_bind at 1. rewrite H. reflexivity.
Qed.

Lemma retry_pass_succeeded (packet : list Z) (read_reply : bool) (k : nat)
    (b : bool) (rep0 rep : list Z) (w w1 : World) :
  attempt ioavservice packet read_reply writeSleepTime numOfWriteCycles
    readSleepTime b w = (Ok (true, rep), w1) ->
  retry_loop ioavservice packet read_reply writeSleepTime numOfWriteCycles
    readSleepTime retrySleepTime (S k) b rep0 w
  = (Ok (true, rep), w1).
Proof.
  intros H. cbn [retry_loop]. unfold io_bind at 1. rewrite H. reflexivity.
Qed.

(** C5: if the replies read on passes 1 and 2 fail checksum validation
    and the reply read on pass 3 passes it, then with four retry
    attempts the exchange returns success with the reply of pass 3,
    and the world it leaves is the one right after that third read:
    nothing of a fourth pass, not even the retry sleep, happens. (That
    a pass got as far as its read says that its sleeps returned.) *)
Theorem exchange_returns_third_reply
    (send packet : list Z) (w0 w1 w2 w3 : World) (rep1 rep2 rep3 : list Z) :
  encode send = Ok packet ->
  read_after_writes ioavservice writeSleepTime readSleepTime
    numOfWriteCycles packet w0 = (Ok (0, rep1), w1) ->
  validate rep1 = Ok false ->
  read_after_retry ioavservice writeSleepTime readSleepTime retrySleepTime
    numOfWriteCycles packet w1 = (Ok (0, rep2), w2) ->
  validate rep2 = Ok false ->
  read_after_retry ioavservice writeSleepTime readSleepTime retrySleepTime
    numOfWriteCycles packet w2 = (Ok (0, rep3), w3) ->
  validate rep3 = Ok true ->
  performDDCCommunication (Some ioavservice) send true writeSleepTime
    numOfWriteCycles readSleepTime 4 retrySleepTime w0
  = (Ok (true, rep3), w3).
Proof.
  intros Henc H1 V1 H2 V2 H3 V3.
  pose proof (attempt_with_reply packet false w0 w1 rep1 H1) as A1.
  rewrite V1 in A1.
  destruct (attempt_after_retry packet false w1 w2 rep2 H2) as (w1' & S1 & A2).
  rewrite V2 in A2.
  destruct (attempt_after_retry packet false w2 w3 rep3 H3) as (w2' & S2 & A3).
  rewrite V3 in A3.
  unfold performDDCCommunication. unfold io_bind at 1. unfold io_lift.
  rewrite Henc. change (Z.to_nat 4) with 4%nat.
  rewrite (retry_pass_failed packet true 3 false [] rep1 w0 w1 A1).
  unfold io_bind at 1. rewrite S1.
  rewrite (retry_pass_failed packet true 2 false rep1 rep2 w1' w2 A2).
  unfold io_bind at 1. rewrite S2.
  apply (retry_pass_succeeded packet true 1 false rep2 rep3 w2' w3 A3).
Qed.

End Exchange.

(** *** On the simulated transport *)

Import SimulatedTransport ScriptedExchange.

Lemma exchange_returns_third_reply_witness :
  let out :=
    performDDCCommunication (Some tt) [0x10] true 10000 2 50000 4 10000
      flaky_bus in
  fst out = Ok (true, luminance_reply)
  /\ reads (log (snd out)) = 3%nat
  /\ writes (log (snd out)) = 6%nat
  /\ length (read_script (snd out)) = 1%nat.
Proof.
  pose (w1 := snd (pass flaky_bus)).
  pose (w2 := snd (next_pass w1)).
  pose (w3 := snd (next_pass w2)).
  cbv zeta.
  rewrite (exchange_returns_third_reply tt 10000 50000 10000 2
             [0x10] request flaky_bus w1 w2 w3
             [0x6E; 0x88; 0x02; 0x00; 0x10; 0x00; 0x00; 0x64; 0x00; 0x4B; 0x00]
             [0x6E; 0x88; 0x02; 0x00; 0x10; 0x00; 0x00; 0x64; 0x00; 0x4B; 0xFF]
             luminance_reply);
    try (vm_compute; reflexivity).
  repeat split.
Defined.

(** C1 does not hold of the code. With [read_reply = True], a pass whose
    read fails keeps the status of the last write, and a pass whose read
    succeeds lets the checksum verdict replace the status of the write.
    So (first) two good writes followed by a read that fails are
    reported as success, with the unread buffer as reply, and (second)
    two failed writes followed by a well-formed reply are reported as
    success too. *)
Theorem exchange_success_despite_failed_io :
  fst (performDDCCommunication (Some tt) [0x10] true 10000 2 50000 4 10000
         (mkBus [0; 0] [(kIOReturnError, zeros)] []))
  = Ok (true, zeros)
  /\ fst (performDDCCommunication (Some tt) [0x10] true 10000 2 50000 4 10000
            (mkBus [kIOReturnError; kIOReturnError] [(0, luminance_reply)] []))
     = Ok (true, luminance_reply).
Proof. split; vm_compute; reflexivity. Qed.

(** What [read] makes of the first case: a current value and a maximum
    decoded from a buffer that was never filled. *)
Example read_decodes_unread_buffer :
  fst (read (Some tt) 0x10 10000 2 50000 4 10000
         (mkBus [0; 0] [(kIOReturnError, zeros)] []))
  = Ok (Some (0, 0)).
Proof. vm_compute. reflexivity. Qed.

End TransportProofs.

(** ** Properties of the display enumeration *)

Module EnumerationProofs.
Import Macos EnumerationSpec.

Section Frame.
Context {service : Type}.
Variable good : service -> Prop.

Abbreviation World := (EnumWorld service).

Lemma keeps_ret {A} (a : A) : keeps good (io_ret a).
Proof. intros w. split; [reflexivity|tauto]. Qed.

Lemma keeps_raise {A} (e : exn) : keeps good (@io_raise World A e).
Proof. intros w. split; [reflexivity|tauto]. Qed.

Lemma keeps_lift {A} (r : result A) : keeps good (@io_lift World A r).
Proof. intros w. split; [reflexivity|tauto]. Qed.

Lemma keeps_bind {A B} (m : io World A) (k : A -> io World B) :
  keeps good m -> (forall a, keeps good (k a)) -> keeps good (io_bind m k).
Proof.
  intros Hm Hk w. unfold io_bind. specialize (Hm w).
  destruct (m w) as [[a|e] w1]; cbn [snd] in *.
  - destruct (Hk a w1) as [Hi Hs]. destruct Hm as [Hi' Hs'].
    split; [congruence|tauto].
  - exact Hm.
Qed.

Lemma keeps_alloc (o : IOregService service) :
  service_ o = None -> keeps good (alloc o).
Proof.
  intros Ho w. split; [reflexivity|]. cbn. intros Hok r o' s Hr Hs.
  apply lookup_app_Some in Hr as [Hr|[_ Hr]].
  - exact (Hok r o' s Hr Hs).
  - apply list_lookup_singleton_Some in Hr as [_ <-]. congruence.
Qed.

Lemma keeps_update (r : ref) (f : IOregService service -> IOregService service) :
  (forall o s, service_ (f o) = Some s -> service_ o = Some s \/ good s) ->
  keeps good (update r f).
Proof.
  intros Hf w. split; [reflexivity|]. cbn. intros Hok r' o' s Hr Hs.
  destruct (decide (r = r')) as [->|Hne].
  - rewrite list_lookup_alter_eq in Hr.
    destruct (heap w !! r') as [o|] eqn:Ho; [|discriminate].
    cbn in Hr. inversion Hr; subst.
    destruct (Hf o s Hs) as [Hs'|Hg]; [exact (Hok r' o s Ho Hs')|exact Hg].
  - rewrite list_lookup_alter_ne in Hr by assumption.
    exact (Hok r' o' s Hr Hs).
Qed.

Lemma keeps_if {A} (b : bool) (m1 m2 : io World A) :
  keeps good m1 -> keeps good m2 -> keeps good (if b then m1 else m2).
Proof. destruct b; tauto. Qed.

Ltac keeps_step :=
  first
    [ apply keeps_ret | apply keeps_raise | apply keeps_lift
    | apply keeps_alloc; reflexivity
    | apply keeps_update; intros ? ? Hs; left; exact Hs
    | apply keeps_if
    | apply keeps_bind; [|intros ?] ].

Lemma keeps_getIORegServiceAppleCDC2Properties (entry : RegistryEntry service) :
  keeps good (getIORegServiceAppleCDC2Properties entry).
Proof.
  unfold getIORegServiceAppleCDC2Properties.
  repeat keeps_step.
  - destruct (IORegistryEntryCreateCFProperty entry "DisplayAttributes")
      as [[s|z|d]|]; repeat keeps_step.
    destruct (dict_get d "ProductAttributes"); repeat keeps_step.
  - destruct (IORegistryEntryCreateCFProperty entry "Transport");
      repeat keeps_step.
Qed.

Lemma keeps_setIORegServiceDCPAVServiceProxy
    (entry : RegistryEntry service) (r : ref) :
  (is_External (entry_property entry "Location") = true ->
   forall s, entry_av_service entry = Some s -> good s) ->
  keeps good (setIORegServiceDCPAVServiceProxy entry r).
Proof.
  intros Hg. unfold setIORegServiceDCPAVServiceProxy,
    IORegistryEntryCreateCFProperty.
  destruct (truthy _); [|apply keeps_ret].
  apply keeps_bind; [keeps_step|intros _].
  destruct (is_External _) eqn:E; [|apply keeps_ret].
  apply keeps_update. intros o s Hs. right. exact (Hg eq_refl s Hs).
Qed.

End Frame.

Section Walk.
Context {service : Type}.

Abbreviation World := (EnumWorld service).

(** What [ioregIterateToNextObjectOfInterest] leaves on the iterator
    is shorter than what it found, strictly so when it returns an
    object, and the object it returns is a node it took off. *)
Lemma decode_Ok (b t : string) :
  decode b = Ok t -> t = b /\ utf8_valid b = true.
Proof.
  unfold decode. destruct (utf8_valid b); intros H; inversion H. tauto.
Qed.

Lemma iterate_loop_spec (interests : list string)
    (it : list (RegistryEntry service)) :
  forall e0 o rest,
    iterate_loop interests e0 it = (o, rest) ->
    (length rest <= length it)%nat
    /\ (forall e, e ∈ rest -> e ∈ it)
    /\ (forall x, o = Ok (Some x) ->
                  (length rest < length it)%nat
                  /\ entry x ∈ it
                  /\ name x = entry_name (entry x)).
Proof.
  induction it as [|e it IH]; intros e0 o rest H; cbn [iterate_loop] in H.
  - inversion H; subst. split; [lia|]. split; [tauto|]. discriminate.
  - destruct (negb _).
    { inversion H; subst. split; [cbn; lia|]. split; [|discriminate].
      intros e' He'. apply elem_of_cons. tauto. }
    destruct (decode (entry_name e)) as [name_|err] eqn:Ed.
    2:{ inversion H; subst. split; [cbn; lia|]. split; [|discriminate].
        intros e' He'. apply elem_of_cons. tauto. }
    apply decode_Ok in Ed as [-> _].
    destruct (existsb _ _).
    { inversion H; subst. split; [cbn; lia|]. split.
      - intros e' He'. apply elem_of_cons. tauto.
      - intros x Hx. inversion Hx; subst. cbn.
        split; [lia|]. split; [apply elem_of_cons; tauto|reflexivity]. }
    destruct (IH _ _ _ H) as (Hl & Hin & Ho).
    split; [cbn; lia|]. split.
    + intros e' He'. apply elem_of_cons. right. auto.
    + intros x Hx. destruct (Ho x Hx) as (? & ? & ?).
      split; [cbn; lia|]. split; [apply elem_of_cons; tauto|assumption].
Qed.

Lemma is_External_true (v : option plist) :
  is_External v = true <-> v = Some (PStr "External").
Proof.
  unfold is_External. split.
  - destruct v as [[s|z|d]|]; try discriminate.
    intros H. apply String.eqb_eq in H. congruence.
  - intros ->. reflexivity.
Qed.

(** The loop keeps the channels of the store good as long as it is
    fed nodes of [nodes]. *)
Lemma matching_loop_services_ok (nodes : list (RegistryEntry service))
    (fuel : nat) :
  forall serviceLocation_ (r : ref) (l : list ref) (w : World),
    (forall e, e ∈ iterator w -> e ∈ nodes) ->
    services_ok (from_external_proxy nodes) (heap w) ->
    services_ok (from_external_proxy nodes)
      (heap (snd (matching_loop fuel serviceLocation_ r l w))).
Proof.
  induction fuel as [|fuel IH]; intros sl r l w Hit Hok; [exact Hok|].
  cbn [matching_loop]. unfold io_bind at 1.
  unfold ioregIterateToNextObjectOfInterest.
  destruct (iterate_loop _ None (iterator w)) as [o rest] eqn:Eit.
  destruct (iterate_loop_spec _ _ _ _ _ Eit) as (_ & Hrest & Ho).
  destruct o as [[o|]|err]; [|exact Hok|exact Hok].
  destruct (Ho o eq_refl) as (_ & Hentry & Hname).
  set (w1 := mkEnumWorld (heap w) rest (released w)).
  assert (Hit1 : forall e, e ∈ iterator w1 -> e ∈ nodes) by (cbn; auto).
  destruct (in_list (name o) keysFramebuffer).
  - unfold io_bind.
    pose proof (keeps_getIORegServiceAppleCDC2Properties
                  (from_external_proxy nodes) (entry o) w1) as [Hi Hs].
    destruct (getIORegServiceAppleCDC2Properties (entry o) w1)
      as [[r'|e] w2]; cbn [snd] in *; [|auto].
    apply IH; cbn; [rewrite Hi; exact Hit1|].
    intros r0 o0 s0 Hr0 Hs0.
    destruct (decide (r' = r0)) as [->|Hne].
    + rewrite list_lookup_alter_eq in Hr0.
      destruct (heap w2 !! r0) as [o2|] eqn:E2; [|discriminate].
      cbn in Hr0. inversion Hr0; subst. cbn in Hs0.
      exact (Hs Hok r0 o2 s0 E2 Hs0).
    + rewrite list_lookup_alter_ne in Hr0 by assumption.
      exact (Hs Hok r0 o0 s0 Hr0 Hs0).
  - destruct (String.eqb_spec (name o) keyDCPAVServiceProxy) as [Hkey|Hkey].
    + unfold io_bind.
      assert (Hg : is_External (entry_property (entry o) "Location") = true ->
                   forall s, entry_av_service (entry o) = Some s ->
                             from_external_proxy nodes s).
      { intros Hext s Hs. exists (entry o).
        apply is_External_true in Hext.
        repeat split; auto. congruence. }
      pose proof (keeps_setIORegServiceDCPAVServiceProxy
                    (from_external_proxy nodes) (entry o) r Hg w1) as [Hi Hs].
      destruct (setIORegServiceDCPAVServiceProxy (entry o) r w1)
        as [[[]|e] w2]; cbn [snd] in *; [|auto].
      apply IH; [rewrite Hi; exact Hit1|auto].
    + apply IH; [exact Hit1|exact Hok].
Qed.

(** Fuel beyond the length of the iterator is never used. *)
Lemma matching_loop_fuel (n : nat) :
  forall (m : nat) serviceLocation_ (r : ref) (l : list ref) (w : World),
    (length (iterator w) < n)%nat ->
    (length (iterator w) < m)%nat ->
    matching_loop n serviceLocation_ r l w
    = matching_loop m serviceLocation_ r l w.
Proof.
  induction n as [|n IH]; intros m sl r l w Hn Hm; [lia|].
  destruct m as [|m]; [lia|].
  cbn [matching_loop]. unfold io_bind, ioregIterateToNextObjectOfInterest.
  destruct (iterate_loop _ None (iterator w)) as [o rest] eqn:Eit.
  destruct (iterate_loop_spec _ _ _ _ _ Eit) as (_ & _ & Ho).
  destruct o as [[o|]|err]; [|reflexivity|reflexivity].
  destruct (Ho o eq_refl) as (Hlt & _ & _).
  set (w1 := mkEnumWorld (heap w) rest (released w)).
  destruct (in_list (name o) keysFramebuffer).
  - pose proof (keeps_getIORegServiceAppleCDC2Properties
                  (fun _ => True) (entry o) w1) as [Hi _].
    destruct (getIORegServiceAppleCDC2Properties (entry o) w1)
      as [[r'|e] w2]; cbn [snd] in *; [|reflexivity].
    unfold update. apply IH; cbn; rewrite Hi; cbn; lia.
  - destruct (String.eqb (name o) keyDCPAVServiceProxy).
    + pose proof (keeps_setIORegServiceDCPAVServiceProxy
                    (fun _ => True) (entry o) r (fun _ _ _ => I) w1) as [Hi _].
      destruct (setIORegServiceDCPAVServiceProxy (entry o) r w1)
        as [[[]|e] w2]; cbn [snd] in *; [|reflexivity].
      apply IH; rewrite Hi; cbn; lia.
    + apply IH; cbn; lia.
Qed.

Lemma services_ok_nil (good : service -> Prop) : services_ok good [].
Proof. intros r o s Hr. rewrite lookup_nil in Hr. discriminate. Qed.

(** The [finally] clause releases the two objects and touches nothing
    else. *)
Lemma getIoregServicesForMatching_unfold (reg : Registry service) (w : World) :
  getIoregServicesForMatching reg w
  = let w0 := mkEnumWorld (heap w) (tree reg) (released w) in
    let out : result (list ref) * World :=
      if negb (create_iterator_ret reg =? KERN_SUCCESS) then (Ok [], w0)
      else matching_loop (service := service) (S (length (tree reg))) 0
             (length (heap w)) []
             (mkEnumWorld (heap w ++ [IOregService_new]) (tree reg) (released w)) in
    (fst out,
     mkEnumWorld (heap (snd out)) (iterator (snd out))
       ((released (snd out) ++ [obj_ioregRoot]) ++ [obj_iterator])).
Proof.
  unfold getIoregServicesForMatching, io_finally. cbv zeta.
  destruct (negb _); [reflexivity|].
  unfold io_bind at 1, alloc. cbn [heap iterator released].
  match goal with
  | |- context [matching_loop ?n ?sl ?r ?l ?w0] =>
      destruct (matching_loop n sl r l w0)
  end.
  reflexivity.
Qed.

Lemma getIoregServicesForMatching_services_ok (reg : Registry service) :
  services_ok (from_external_proxy (tree reg))
    (heap (snd (getIoregServicesForMatching reg empty_world))).
Proof.
  rewrite getIoregServicesForMatching_unfold. cbv zeta. cbn [snd heap].
  destruct (negb _); [apply services_ok_nil|].
  apply matching_loop_services_ok; [cbn; auto|]. cbn.
  intros r o s Hr Hs. destruct r; cbn in Hr; [|discriminate].
  inversion Hr; subst. discriminate.
Qed.

Lemma service_alter_location (h : list (IOregService service))
    (r r' : nat) (v : option plist) :
  service_ <$> alter (set_location v) r h !! r' = service_ <$> h !! r'.
Proof.
  destruct (decide (r = r')) as [->|Hne].
  - rewrite list_lookup_alter_eq. destruct (h !! r'); reflexivity.
  - rewrite list_lookup_alter_ne by assumption. reflexivity.
Qed.

(** C6: while the registry is walked, a proxy node gives its channel
    to the handle it is applied to, and to no other, only when its
    [Location] property equals ["External"]; and every handle of the
    returned list [ddc_displays] has a channel (none has a null one),
    a channel made from a [DCPAVServiceProxy] node whose location is
    ["External"]. *)
Theorem ddc_displays_have_external_channel :
  (forall (entry_ : RegistryEntry service) (r r' : ref) (w : World),
      let w' := snd (setIORegServiceDCPAVServiceProxy entry_ r w) in
      (r' <> r -> heap w' !! r' = heap w !! r')
      /\ (entry_property entry_ "Location" <> Some (PStr "External") ->
          service_ <$> heap w' !! r' = service_ <$> heap w !! r'))
  /\ (forall (reg : Registry service) displays,
         ddc_displays reg = Ok displays ->
         forall d, d ∈ displays ->
                   exists s, service_ d = Some s
                             /\ from_external_proxy (tree reg) s).
Proof.
  split.
  - intros entry_ r r' w. cbv zeta.
    unfold setIORegServiceDCPAVServiceProxy, IORegistryEntryCreateCFProperty.
    destruct (truthy _); [|tauto].
    unfold io_bind, update, io_ret.
    destruct (is_External _) eqn:E; cbn [snd heap]; split.
    + intros Hne. rewrite !list_lookup_alter_ne by congruence. reflexivity.
    + intros Hn. apply is_External_true in E. contradiction.
    + intros Hne. rewrite list_lookup_alter_ne by congruence. reflexivity.
    + intros _. apply service_alter_location.
  - intros reg displays H d Hd. unfold ddc_displays in H.
    pose proof (getIoregServicesForMatching_services_ok reg) as Hok.
    destruct (getIoregServicesForMatching reg empty_world) as [[l|e] w];
      [|discriminate].
    cbn [snd] in Hok. inversion H; subst. clear H.
    apply list_elem_of_omap in Hd as (r & Hr & Hh).
    apply list_elem_of_filter in Hr as [Hs _].
    unfold has_service in Hs. rewrite Hh in Hs.
    destruct (service_ d) as [s|] eqn:Es; [|discriminate].
    exists s. split; [reflexivity|]. exact (Hok r d s Hh Es).
Qed.

(** C9: when [IORegistryEntryCreateIterator] does not answer
    [KERN_SUCCESS], the enumeration raises nothing: it returns the list
    gathered so far, which is empty, builds no handle, releases the two
    registry objects, and the list of displays is empty as well. *)
Theorem enumeration_without_iterator (reg : Registry service) (w : World) :
  create_iterator_ret reg <> KERN_SUCCESS ->
  let out := getIoregServicesForMatching reg w in
  fst out = Ok []
  /\ heap (snd out) = heap w
  /\ released (snd out) = released w ++ [obj_ioregRoot; obj_iterator]
  /\ ddc_displays reg = Ok [].
Proof.
  intros Hret. cbv zeta. unfold ddc_displays.
  rewrite !getIoregServicesForMatching_unfold. cbv zeta.
  apply Z.eqb_neq in Hret. rewrite Hret. cbn.
  rewrite <- app_assoc. repeat split.
Qed.

End Walk.

Import SimulatedRegistry.

Lemma ddc_displays_have_external_channel_witness :
  exists d,
    ddc_displays laptop = Ok [d]
    /\ productName d = Some (PStr "DELL U2720Q")
    /\ serviceLocation d = Some 2
    /\ service_ d = Some "av-external"
    /\ from_external_proxy laptop_tree "av-external".
Proof.
  destruct (ddc_displays laptop) as [[|d [|? ?]]|] eqn:E;
    try (vm_compute in E; discriminate).
  exists d.
  destruct (proj2 ddc_displays_have_external_channel laptop [d] E d
              ltac:(apply elem_of_cons; left; reflexivity)) as (s & Hs & Hext).
  assert (Hd : Ok [d] = ddc_displays laptop) by (symmetry; exact E).
  vm_compute in Hd. inversion Hd; subst. cbn in Hs. inversion Hs; subst.
  repeat split. exact Hext.
Defined.

Lemma enumeration_without_iterator_witness :
  create_iterator_ret laptop_no_iterator <> KERN_SUCCESS
  /\ fst (getIoregServicesForMatching laptop_no_iterator empty_world) = Ok []
  /\ ddc_displays laptop_no_iterator = Ok [].
Proof.
  assert (H : create_iterator_ret laptop_no_iterator <> KERN_SUCCESS)
    by (vm_compute; discriminate).
  split; [exact H|].
  destruct (enumeration_without_iterator laptop_no_iterator empty_world H)
    as (H1 & _ & _ & H4).
  split; assumption.
Defined.

End EnumerationProofs.

(** ** Properties of get, set and toggle *)

Module ImplProofs.
Import Pyddc VcpDummy Impl DummySpec SimulatedMonitors.

(** *** On any platform *)

Section AnyPlatform.
Context {World VCP float : Type} `{!ABCVCP World VCP float}
  `{!DeclaredMaxima VCP}.

(** A successful [set_attribute] is a successful lookup of the monitor
    followed by a successful write, and nothing more. *)
Lemma set_attribute_inv
    (mon : Z) (attr : Feature) (val : Z) (timeout : float)
    (w w' : World) (r : Z) :
  set_attribute mon attr val timeout w = (Ok r, w') ->
  r = val
  /\ exists monitor w0,
      _get_monitor mon w = (Ok monitor, w0)
      /\ set_vcp_feature monitor (com attr) val timeout w0 = (Ok tt, w').
Proof.
  unfold set_attribute, io_bind, io_try, io_ret. intros H.
  destruct (_get_monitor mon w) as [[monitor|e] w0]; [|discriminate].
  destruct (set_vcp_feature monitor (com attr) val timeout w0)
    as [[[]|e] w1] eqn:Eset.
  - inversion H; subst. split; [reflexivity|]. eauto.
  - destruct e; try discriminate; cbn in H; discriminate.
Qed.

(** A value that is out of range is refused before the platform is
    asked to write: [set_vcp_feature] raises [ValueError] in the world it
    was called in, and [set_attribute] reports it as "above the max". *)
Lemma set_vcp_feature_out_of_range (monitor : VCP) (c : VCPCommand)
    (val : Z) (timeout : float) (w : World) :
  writeable c = true ->
  out_of_range monitor c val = true ->
  set_vcp_feature monitor c val timeout w = (Raise ValueError, w).
Proof.
  intros Hw Ho. unfold set_vcp_feature. rewrite Hw, Ho. reflexivity.
Qed.

Lemma set_attribute_out_of_range (mon : Z) (attr : Feature) (val : Z)
    (timeout : float) (w w0 : World) (monitor : VCP) :
  _get_monitor mon w = (Ok monitor, w0) ->
  writeable (com attr) = true ->
  out_of_range monitor (com attr) val = true ->
  set_attribute mon attr val timeout w
  = (Raise (MonitorBossError (msg_above_max val) ValueError), w0).
Proof.
  intros Hg Hw Ho. unfold set_attribute, io_bind, io_try. rewrite Hg.
  rewrite (set_vcp_feature_out_of_range monitor (com attr) val timeout w0 Hw Ho).
  reflexivity.
Qed.

Lemma above_declared_maximum (monitor : VCP) (c : VCPCommand) (val M : Z) :
  discrete c = false ->
  declared_maximum monitor c = Some M ->
  M < val ->
  out_of_range monitor c val = true.
Proof.
  intros Hd Hm Hlt. unfold out_of_range. rewrite Hd, Hm.
  destruct (Z.gtb_spec val M); [reflexivity|lia].
Qed.

(** C10: a call of [set_attribute] that succeeds returns exactly the
    value it was given, and the world it leaves is the one the write
    [set_vcp_feature] left: nothing is read back after the write, so
    the returned value is not checked against the monitor. *)
Theorem set_attribute_returns_argument
    (mon : Z) (attr : Feature) (val : Z) (timeout : float)
    (w w' : World) (r : Z) :
  set_attribute mon attr val timeout w = (Ok r, w') ->
  r = val
  /\ exists monitor w0,
      _get_monitor mon w = (Ok monitor, w0)
      /\ set_vcp_feature monitor (com attr) val timeout w0 = (Ok tt, w').
Proof.
  unfold set_attribute, io_bind, io_try, io_ret. intros H.
  destruct (_get_monitor mon w) as [[monitor|e] w0]; [|discriminate].
  destruct (set_vcp_feature monitor (com attr) val timeout w0)
    as [[[]|e] w1] eqn:Eset.
  - inversion H; subst. split; [reflexivity|].
    exists monitor, w0. split; [reflexivity|exact Eset].
  - destruct e; try discriminate; cbn in H; discriminate.
Qed.

End AnyPlatform.

(** *** On the dummy monitor *)

Section OnDummy.
Context {float : Type} {class_ : VCPCommandClass}
  {maxima : DeclaredMaxima DummyVCP}.

Lemma get_monitor_dummy (mon : Z) (cv : gmap Z Z) :
  _get_monitor (float := float) mon cv
  = (if valid_monitor mon then Ok mkDummyVCP
     else Raise (MonitorBossError (msg_monitor_does_not_exist mon) IndexError),
     cv).
Proof.
  unfold _get_monitor, list_monitors, io_bind, io_try, io_lift, valid_monitor.
  cbn [get_vcps DummyVCP_ABCVCP dummy_get_vcps io_ret].
  unfold getitem, len. cbn [length].
  destruct (Z.ltb_spec mon 0), (Z.leb_spec (-3) mon), (Z.ltb_spec mon 3);
    cbn [andb]; try lia.
  all: repeat match goal with
         | |- context [?a <=? ?b] => destruct (Z.leb_spec a b); try lia
         | |- context [?a <? ?b] => destruct (Z.ltb_spec a b); try lia
         end; cbn [andb]; try reflexivity.
  - assert (Hm : mon = -3 \/ mon = -2 \/ mon = -1) by lia.
    destruct Hm as [-> | [-> | ->]]; reflexivity.
  - assert (Hm : mon = 0 \/ mon = 1 \/ mon = 2) by lia.
    destruct Hm as [-> | [-> | ->]]; reflexivity.
Qed.

Lemma set_attribute_dummy_Ok (mon : Z) (attr : Feature) (val : Z)
    (timeout : float) (cv : gmap Z Z) :
  valid_monitor mon = true ->
  writeable (com attr) = true ->
  out_of_range mkDummyVCP (com attr) val = false ->
  accepts (code (com attr)) val = true ->
  set_attribute mon attr val timeout cv
  = (Ok val, <[code (com attr) := val]> cv).
Proof.
  intros Hm Hw Ho Ha. unfold set_attribute, io_bind.
  rewrite get_monitor_dummy, Hm.
  unfold io_try, set_vcp_feature. rewrite Hw, Ho. cbn [negb].
  cbn [_set_vcp_feature DummyVCP_ABCVCP]. unfold dummy_set_vcp_feature.
  unfold accepts in Ha.
  destruct (supported_codes !! code (com attr)) as [[params|]|]; [| |discriminate].
  - rewrite Ha. reflexivity.
  - destruct (unknown_max_values !! code (com attr)) as [maxv|]; [|discriminate].
    destruct (val >? maxv); [discriminate|]. reflexivity.
Qed.

Lemma set_attribute_dummy_inv (mon : Z) (attr : Feature) (val : Z)
    (timeout : float) (cv cv' : gmap Z Z) (r : Z) :
  set_attribute mon attr val timeout cv = (Ok r, cv') ->
  r = val /\ cv' = <[code (com attr) := val]> cv
  /\ accepts (code (com attr)) val = true
  /\ out_of_range mkDummyVCP (com attr) val = false
  /\ writeable (com attr) = true
  /\ valid_monitor mon = true.
Proof.
  intros H.
  destruct (set_attribute_inv mon attr val timeout cv cv' r H)
    as (-> & monitor & w0 & Hg & Hs).
  rewrite get_monitor_dummy in Hg.
  destruct (valid_monitor mon); inversion Hg; subst w0 monitor.
  unfold set_vcp_feature in Hs.
  destruct (writeable (com attr)); [|discriminate]. cbn [negb] in Hs.
  destruct (out_of_range mkDummyVCP (com attr) val); [discriminate|].
  cbn [_set_vcp_feature DummyVCP_ABCVCP] in Hs.
  unfold dummy_set_vcp_feature, accepts in *.
  destruct (supported_codes !! code (com attr)) as [[params|]|]; [| |discriminate].
  - destruct (existsb _ _); inversion Hs; subst. repeat split.
  - destruct (unknown_max_values !! code (com attr)) as [maxv|]; [|discriminate].
    destruct (val >? maxv);
      [destruct VCPCommand_name; discriminate|].
    inversion Hs; subst. repeat split.
Qed.

Lemma get_attribute_dummy_Ok (mon : Z) (attr : Feature)
    (timeout : float) (cv : gmap Z Z) (v : Z) :
  valid_monitor mon = true ->
  readable (com attr) = true ->
  answers (com attr) = true ->
  cv !! code (com attr) = Some v ->
  exists maxv,
    get_attribute mon attr timeout cv = (Ok (mkVCPFeatureReturn v maxv), cv).
Proof.
  intros Hm Hr Ha Hv. unfold get_attribute, io_bind.
  rewrite get_monitor_dummy, Hm.
  unfold io_try, get_vcp_feature. rewrite Hr. cbn [negb].
  cbn [_get_vcp_feature DummyVCP_ABCVCP]. unfold dummy_get_vcp_feature.
  unfold answers in Ha.
  destruct (supported_codes !! code (com attr)); [|discriminate].
  destruct (discrete (com attr)); cbn [negb orb] in *.
  - rewrite Hv. eauto.
  - destruct (unknown_max_values !! code (com attr)); [|discriminate].
    rewrite Hv. eauto.
Qed.

Lemma get_attribute_dummy_inv (mon : Z) (attr : Feature)
    (timeout : float) (cv cv' : gmap Z Z) (got : VCPFeatureReturn) :
  get_attribute mon attr timeout cv = (Ok got, cv') ->
  cv' = cv /\ cv !! code (com attr) = Some (value got).
Proof.
  unfold get_attribute, io_bind. rewrite get_monitor_dummy.
  destruct (valid_monitor mon); [|intros H; discriminate H].
  unfold io_try, get_vcp_feature.
  destruct (negb (readable (com attr))); [intros H; discriminate H|].
  cbn [_get_vcp_feature DummyVCP_ABCVCP]. unfold dummy_get_vcp_feature.
  destruct (supported_codes !! code (com attr)); [|intros H; discriminate H].
  destruct (if negb (discrete (com attr)) then _ else _) as [m|e];
    [|destruct e; intros H; discriminate H].
  destruct (cv !! code (com attr)) as [v|] eqn:Ev; [|intros H; discriminate H].
  intros H. inversion H; subst. auto.
Qed.

(** What [set_attribute] makes of a value above the maximum that the
    dummy monitor keeps for a continuous code: the error of the range
    check when that refuses the value first, and else what line 47 of
    the dummy raises. *)
Lemma set_attribute_above_dummy_max (mon : Z) (attr : Feature) (val M : Z)
    (timeout : float) (cv : gmap Z Z) :
  valid_monitor mon = true ->
  writeable (com attr) = true ->
  supported_codes !! code (com attr) = Some None ->
  unknown_max_values !! code (com attr) = Some M ->
  M < val ->
  set_attribute mon attr val timeout cv
  = (Raise (if out_of_range mkDummyVCP (com attr) val || VCPCommand_has_name
            then MonitorBossError (msg_above_max val) ValueError
            else AttributeError), cv).
Proof.
  intros Hm Hw Hc Hmax Hlt.
  destruct (out_of_range mkDummyVCP (com attr) val) eqn:Ho; cbn [orb].
  - apply set_attribute_out_of_range with (monitor := mkDummyVCP);
      [rewrite get_monitor_dummy, Hm; reflexivity|exact Hw|exact Ho].
  - unfold set_attribute, io_bind. rewrite get_monitor_dummy, Hm.
    unfold io_try, set_vcp_feature. rewrite Hw, Ho. cbn [negb].
    cbn [_set_vcp_feature DummyVCP_ABCVCP]. unfold dummy_set_vcp_feature.
    rewrite Hc, Hmax.
    destruct (Z.gtb_spec val M); [|lia].
    unfold VCPCommand_name. destruct VCPCommand_has_name; reflexivity.
Qed.

(** C7: for a writable continuous feature with declared maximum M and a
    value v > M, the range check of [set_vcp_feature] refuses the value:
    [set_attribute] fails with the "above the max" error raised from
    [ValueError], and the state of the monitor, hence the current value
    of the feature, is exactly what it was: nothing was written. Behind
    that check the dummy monitor has its own (lines 44-47), against the
    maximum M it keeps for a continuous code: a value v > M that reaches
    it is not stored either, and fails in the same way, except that the
    error is [AttributeError] when the class [VCPCommand] has no
    attribute [name]: the message of the [ValueError] asks for it. *)
Theorem set_attribute_above_max (mon : Z) (attr : Feature) (val M : Z)
    (timeout : float) (cv : gmap Z Z) :
  valid_monitor mon = true ->
  writeable (com attr) = true ->
  M < val ->
  (discrete (com attr) = false ->
   declared_maximum mkDummyVCP (com attr) = Some M ->
   set_attribute mon attr val timeout cv
   = (Raise (MonitorBossError (msg_above_max val) ValueError), cv))
  /\ (supported_codes !! code (com attr) = Some None ->
      unknown_max_values !! code (com attr) = Some M ->
      set_attribute mon attr val timeout cv
      = (Raise (if out_of_range mkDummyVCP (com attr) val || VCPCommand_has_name
                then MonitorBossError (msg_above_max val) ValueError
                else AttributeError), cv)).
Proof.
  intros Hm Hw Hlt. split.
  - intros Hd Hmax.
    apply set_attribute_out_of_range with (monitor := mkDummyVCP);
      [rewrite get_monitor_dummy, Hm; reflexivity|exact Hw|].
    exact (above_declared_maximum mkDummyVCP (com attr) val M Hd Hmax Hlt).
  - intros Hc Hmax.
    exact (set_attribute_above_dummy_max mon attr val M timeout cv
             Hm Hw Hc Hmax Hlt).
Qed.

(** C8: on the dummy monitor, a successful [toggle_attribute] has read
    the current value, has written [val2] if that value equals [val1]
    and [val1] otherwise, and returns the value read as [old] and the
    value written as [new]; so, starting from the current value
    [val1], two calls in a row return [old = val1, new = val2] and then
    [old = val2, new = val1], for a feature that can be read and written
    and two values that are in range and that the monitor takes. *)
Theorem toggle_attribute_oscillates :
  (forall (mon : Z) (attr : Feature) (val1 val2 : Z) (timeout : float)
          (cv cv' : gmap Z Z) (t : ToggledAttribute),
      toggle_attribute mon attr val1 val2 timeout cv = (Ok t, cv') ->
      cv !! code (com attr) = Some (old t)
      /\ new t = (if old t =? val1 then val2 else val1)
      /\ cv' = <[code (com attr) := new t]> cv)
  /\ (forall (mon : Z) (attr : Feature) (val1 val2 : Z) (timeout : float)
            (cv : gmap Z Z),
         valid_monitor mon = true ->
         readable (com attr) = true ->
         writeable (com attr) = true ->
         answers (com attr) = true ->
         out_of_range mkDummyVCP (com attr) val1 = false ->
         out_of_range mkDummyVCP (com attr) val2 = false ->
         accepts (code (com attr)) val1 = true ->
         accepts (code (com attr)) val2 = true ->
         cv !! code (com attr) = Some val1 ->
         exists cv1 cv2,
           toggle_attribute mon attr val1 val2 timeout cv
           = (Ok (mkToggledAttribute val1 val2), cv1)
           /\ toggle_attribute mon attr val1 val2 timeout cv1
              = (Ok (mkToggledAttribute val2 val1), cv2)
           /\ cv2 !! code (com attr) = Some val1).
Proof.
  split.
  - intros mon attr val1 val2 timeout cv cv' t H.
    unfold toggle_attribute, io_bind in H.
    destruct (get_attribute mon attr timeout cv) as [[got|e] cv0] eqn:Eg;
      [|discriminate].
    apply get_attribute_dummy_inv in Eg as [-> Hcur].
    destruct (set_attribute mon attr _ timeout cv) as [[r|e] cv1] eqn:Es;
      [|discriminate].
    apply set_attribute_dummy_inv in Es as (_ & -> & _).
    inversion H; subst. cbn. auto.
  - intros mon attr val1 val2 timeout cv Hm Hr Hw Ha O1 O2 H1 H2 Hcur.
    destruct (get_attribute_dummy_Ok mon attr timeout cv val1 Hm Hr Ha Hcur)
      as [m1 Hg1].
    pose (cv1 := <[code (com attr) := val2]> cv).
    assert (Hcur1 : cv1 !! code (com attr) = Some val2)
      by apply lookup_insert_eq.
    destruct (get_attribute_dummy_Ok mon attr timeout cv1 val2 Hm Hr Ha Hcur1)
      as [m2 Hg2].
    exists cv1, (<[code (com attr) := val1]> cv1).
    split; [|split].
    + unfold toggle_attribute, io_bind. rewrite Hg1. cbn [value].
      rewrite Z.eqb_refl.
      rewrite (set_attribute_dummy_Ok mon attr val2 timeout cv Hm Hw O2 H2).
      reflexivity.
    + unfold toggle_attribute, io_bind. rewrite Hg2. cbn [value].
      assert (Hnew : (if val2 =? val1 then val2 else val1) = val1).
      { destruct (Z.eqb_spec val2 val1); congruence. }
      rewrite Hnew.
      rewrite (set_attribute_dummy_Ok mon attr val1 timeout cv1 Hm Hw O1 H1).
      reflexivity.
    + apply lookup_insert_eq.
Qed.

End OnDummy.

(** *** Concrete runs *)

(** With the maxima of the specification's example declared, and a
    class [VCPCommand] that keeps [name] in its instances. *)
Section Runs.
#[local] Existing Instance plain_class.
#[local] Existing Instance registry_maxima.

Lemma set_attribute_above_max_witness :
  set_attribute (float := Z) 1 luminance 200 40 current_values
  = (Raise (MonitorBossError (msg_above_max 200) ValueError), current_values)
  /\ set_attribute (float := Z) 1 luminance 90 40 current_values
     = (Raise AttributeError, current_values)
  /\ current_values !! 16 = Some 75.
Proof.
  split; [|split; [|reflexivity]].
  - apply (proj1 (set_attribute_above_max (float := Z) 1 luminance 200 100 40
                    current_values eq_refl eq_refl ltac:(lia)));
      reflexivity.
  - exact (proj2 (set_attribute_above_max (float := Z) 1 luminance 90 80 40
                    current_values eq_refl eq_refl ltac:(lia))
             eq_refl eq_refl).
Defined.

Lemma toggle_attribute_oscillates_witness :
  exists cv1 cv2,
    toggle_attribute (float := Z) 0 input_source 27 15 40 current_values
    = (Ok (mkToggledAttribute 27 15), cv1)
    /\ toggle_attribute (float := Z) 0 input_source 27 15 40 cv1
       = (Ok (mkToggledAttribute 15 27), cv2)
    /\ cv2 !! 96 = Some 27.
Proof.
  apply (proj2 (toggle_attribute_oscillates (float := Z))
           0 input_source 27 15 40 current_values); reflexivity.
Defined.

Lemma set_attribute_returns_argument_witness :
  set_attribute (float := Z) 2 luminance 50 40 current_values
  = (Ok 50, <[16 := 50]> current_values)
  /\ exists monitor w0,
      _get_monitor (float := Z) 2 current_values = (Ok monitor, w0)
      /\ set_vcp_feature monitor (com luminance) 50 40 w0
         = (Ok tt, <[16 := 50]> current_values).
Proof.
  assert (H : set_attribute (float := Z) 2 luminance 50 40 current_values
              = (Ok 50, <[16 := 50]> current_values)) by reflexivity.
  split; [exact H|].
  exact (proj2 (set_attribute_returns_argument 2 luminance 50 40 _ _ 50 H)).
Defined.

Example set_attribute_not_confirmed :
  let '(r, w) := set_attribute (VCP := DeafVCP) 0 luminance 50 40 75 in
  r = Ok 50
  /\ fst (get_attribute (VCP := DeafVCP) 0 luminance 40 w)
     = Ok (mkVCPFeatureReturn 75 100).
Proof. split; reflexivity. Qed.

(** A toggle between two values the monitor takes is refused when the
    command does not name them among its parameters. *)
Example toggle_attribute_unnamed_value :
  fst (toggle_attribute (float := Z) 0
         (mkFeature (mkVCPCommand "input_source" "input source" 96 true true true
                       [("usbc", 27)]) "input source")
         27 15 40 current_values)
  = Raise (MonitorBossError (msg_above_max 15) ValueError).
Proof. reflexivity. Qed.

End Runs.

(** The same value above the dummy's maximum, with a class [VCPCommand]
    that has an attribute [name]. *)
Section RunsNamed.
#[local] Existing Instance named_class.
#[local] Existing Instance registry_maxima.

Example set_attribute_above_dummy_max_named :
  set_attribute (float := Z) 1 luminance 90 40 current_values
  = (Raise (MonitorBossError (msg_above_max 90) ValueError), current_values).
Proof. reflexivity. Qed.

End RunsNamed.

End ImplProofs.

(** ** More on the packet codec *)

Module CodecExtras.
Import Macos CodecSpec CodecProofs.

Lemma getitem_overrun {A} (l : list A) (i : nat) :
  (length l <= i)%nat -> getitem l (Z.of_nat i) = Raise IndexError.
Proof. intros H. unfold getitem, len. zcases; reflexivity. Qed.

Lemma checksum_loop_overrun (data : list Z) (count : nat) :
  forall (chkd : Z) (i : nat),
    (0 < count)%nat ->
    (length data < i + count)%nat ->
    checksum_loop chkd data (Z.of_nat i) count = Raise IndexError.
Proof.
  induction count as [|k IH]; intros chkd i Hpos H; [lia|].
  cbn [checksum_loop].
  destruct (data !! i) as [x|] eqn:Hx.
  - rewrite (getitem_nonneg _ _ _ Hx). cbn [bind].
    pose proof (lookup_lt_Some _ _ _ Hx).
    replace (Z.of_nat i + 1) with (Z.of_nat (S i)) by lia.
    apply IH; lia.
  - apply lookup_ge_None in Hx. rewrite getitem_overrun by lia. reflexivity.
Qed.

Lemma checksum_loop_split (data : list Z) (k1 : nat) :
  forall (k2 : nat) (chkd i : Z),
    checksum_loop chkd data i (k1 + k2)
    = (c <- checksum_loop chkd data i k1 ;;
       checksum_loop c data (i + Z.of_nat k1) k2).
Proof.
  induction k1 as [|k1 IH]; intros k2 chkd i.
  - cbn. rewrite Z.add_0_r. reflexivity.
  - cbn [Nat.add checksum_loop].
    destruct (getitem data i) as [x|e]; cbn [bind]; [|reflexivity].
    rewrite IH. replace (i + 1 + Z.of_nat k1) with (i + Z.of_nat (S k1)) by lia.
    reflexivity.
Qed.

(** X1: [checksum(chk, data, start, end)] with [0 <= start <= end + 1]
    returns the XOR of [chk] with the elements [data[start..end]] when
    [end] is an index of [data] (for [end = start - 1] that is [chk]
    itself), and raises [IndexError] when [end] is at or past the length
    of [data] and the range is not empty. *)
Theorem checksum_slice_or_IndexError (chk : Z) (data : list Z) (start end_ : Z) :
  0 <= start ->
  start <= end_ + 1 ->
  (end_ < len data ->
   checksum chk data start end_
   = Ok (xor_fold chk (take (Z.to_nat (end_ + 1 - start))
                         (drop (Z.to_nat start) data))))
  /\ (len data <= end_ -> start <= end_ ->
      checksum chk data start end_ = Raise IndexError).
Proof.
  intros H0 H1. unfold checksum, len.
  assert (Hn : (Z.to_nat (end_ + 1 - start) = Z.to_nat (end_ + 1) - Z.to_nat start)%nat)
    by lia.
  set (n := Z.to_nat (end_ + 1 - start)) in *.
  assert (Hs : start = Z.of_nat (Z.to_nat start)) by lia.
  split.
  - intros H2. rewrite Hs at 1. apply checksum_loop_fold. lia.
  - intros H2 H3. rewrite Hs at 1. apply checksum_loop_overrun; lia.
Qed.

Lemma checksum_slice_or_IndexError_witness :
  checksum 0x50 luminance_reply 6 9 = Ok (Z.lxor 0x50 (Z.lxor 0x64 0x4B))
  /\ checksum 0x50 luminance_reply 6 11 = Raise IndexError.
Proof.
  destruct (checksum_slice_or_IndexError 0x50 luminance_reply 6 9
              ltac:(lia) ltac:(lia)) as [Hin _].
  destruct (checksum_slice_or_IndexError 0x50 luminance_reply 6 11
              ltac:(lia) ltac:(lia)) as [_ Hout].
  split.
  - rewrite Hin by (vm_compute; reflexivity). reflexivity.
  - apply Hout; vm_compute; congruence.
Defined.

(** X2: a checksum can be computed in two runs: folding [start..end] is
    folding [start..mid] and then, from that result, [mid+1..end]; an
    [IndexError] of either run is the [IndexError] of the whole. *)
Theorem checksum_in_two_runs (chk : Z) (data : list Z) (start mid end_ : Z) :
  start <= mid + 1 ->
  mid <= end_ ->
  checksum chk data start end_
  = (c <- checksum chk data start mid ;; checksum c data (mid + 1) end_).
Proof.
  intros H1 H2. unfold checksum.
  replace (Z.to_nat (end_ + 1 - start))
    with (Z.to_nat (mid + 1 - start) + Z.to_nat (end_ + 1 - (mid + 1)))%nat by lia.
  rewrite checksum_loop_split.
  replace (start + Z.of_nat (Z.to_nat (mid + 1 - start))) with (mid + 1) by lia.
  reflexivity.
Qed.

Lemma checksum_in_two_runs_witness :
  checksum 0x50 luminance_reply 0 9
  = (c <- checksum 0x50 luminance_reply 0 4 ;; checksum c luminance_reply 5 9).
Proof.
  exact (checksum_in_two_runs 0x50 luminance_reply 0 4 9 ltac:(lia) ltac:(lia)).
Defined.

Lemma header_is_byte_inv (n : Z) :
  0 <= n -> is_byte (Z.lor 128 (n + 1)) -> n <= 254.
Proof.
  intros Hn Hb. apply is_byte_log2 in Hb as [_ Hl].
  rewrite Z.log2_lor in Hl by lia.
  destruct (Z.le_gt_cases (n + 1) 255) as [|Hgt]; [lia|].
  assert (8 <= Z.log2 (n + 1)) by (apply Z.log2_le_pow2; lia).
  lia.
Qed.

Lemma encode_raises_ValueError (send : list Z) (e : exn) :
  encode send = Raise e -> e = ValueError.
Proof.
  unfold encode, bytearray_append at 1.
  destruct ((0 <=? _) && _); cbn [bind]; [|intros H; inversion H; reflexivity].
  unfold bytearray_append at 1.
  destruct ((0 <=? _) && _); cbn [bind]; [|intros H; inversion H; reflexivity].
  destruct (append_all _ send) as [p3|e3] eqn:H3; cbn [bind].
  - rewrite bytearray_append_Ok by (unfold is_byte; lia). cbn [bind].
    rewrite checksum_all_but_last. cbn [bind].
    rewrite bytearray_setitem_last.
    destruct ((0 <=? _) && _); intros H; inversion H; reflexivity.
  - intros H. inversion H; subst e3. clear H.
    revert H3. generalize ([] ++ [Z.lor 128 (len send + 1)] ++ [len send]).
    generalize (([] ++ [Z.lor 128 (len send + 1)]) ++ [len send]).
    intros l _. revert l.
    induction send as [|x send IH]; intros l; cbn [append_all]; [discriminate|].
    unfold bytearray_append at 1.
    destruct ((0 <=? x) && _); cbn [bind]; [apply IH|].
    intros H; inversion H; reflexivity.
Qed.

Lemma encode_Ok_inv (send packet : list Z) :
  encode send = Ok packet ->
  packet = packet_as_specified send /\ len send <= 254 /\ Forall is_byte send.
Proof.
  intros E. pose proof E as E'. apply encode_inv in E' as [-> Hb].
  split; [reflexivity|]. split; [|assumption].
  unfold encode in E.
  destruct (bytearray_append [] _) as [p1|] eqn:H1; [|discriminate].
  apply bytearray_append_inv in H1 as [_ Hh].
  apply header_is_byte_inv; [apply len_nonneg|assumption].
Qed.

(** X3: building a packet succeeds exactly when the payload has at most
    254 elements, all of them bytes, and then gives the specified packet;
    in every other case it raises [ValueError] and nothing else. *)
Theorem encode_Ok_or_ValueError (send : list Z) :
  (encode send = Ok (packet_as_specified send)
   /\ len send <= 254 /\ Forall is_byte send)
  \/ (encode send = Raise ValueError
      /\ (254 < len send \/ ~ Forall is_byte send)).
Proof.
  destruct (encode send) as [p|e] eqn:E.
  - left. destruct (encode_Ok_inv send p E) as (-> & Hn & Hb). tauto.
  - right. rewrite (encode_raises_ValueError send e E). split; [reflexivity|].
    destruct (Z.le_gt_cases (len send) 254) as [Hle|Hgt]; [|left; lia].
    right. intros Hb.
    pose proof (len_nonneg send) as Hn.
    rewrite (encode_Ok send (conj Hn Hle) Hb) in E. discriminate.
Qed.

(** X4: a packet that was built has three elements more than the
    payload, holds only bytes, and checks itself: the XOR of the seed the
    payload calls for with every element of the packet, checksum
    included, is 0. *)
Theorem encode_self_checking (send packet : list Z) :
  encode send = Ok packet ->
  len packet = len send + 3
  /\ Forall is_byte packet
  /\ xor_fold (checksum_seed send) packet = 0.
Proof.
  intros E. destruct (encode_Ok_inv send packet E) as (-> & Hn & Hb).
  unfold packet_as_specified. cbv zeta.
  fold (checksum_seed send).
  set (body := [Z.lor 128 (len send + 1); len send] ++ send).
  assert (Hbody : Forall is_byte body).
  { unfold body. apply Forall_app. split; [|assumption].
    pose proof (len_nonneg send).
    repeat constructor; try lia; apply is_byte_lor; unfold is_byte; lia. }
  split; [|split].
  - unfold body, len. rewrite !length_app. cbn [length]. lia.
  - apply Forall_app. split; [assumption|]. constructor; [|constructor].
    apply xor_fold_is_byte; [apply checksum_seed_is_byte|assumption].
  - rewrite xor_fold_app. unfold xor_fold at 1. cbn [foldl].
    apply Z.lxor_nilpotent.
Qed.

Lemma encode_self_checking_witness :
  encode [0x03; 0x10; 0x00; 0x32] = Ok [0x85; 0x04; 0x03; 0x10; 0x00; 0x32; 0x9F]
  /\ len [0x85; 0x04; 0x03; 0x10; 0x00; 0x32; 0x9F] = 7
  /\ xor_fold 0x3F [0x85; 0x04; 0x03; 0x10; 0x00; 0x32; 0x9F] = 0.
Proof.
  assert (E : encode [0x03; 0x10; 0x00; 0x32]
              = Ok [0x85; 0x04; 0x03; 0x10; 0x00; 0x32; 0x9F]) by reflexivity.
  destruct (encode_self_checking _ _ E) as (Hl & _ & Hx).
  split; [exact E|]. split; [exact Hl|exact Hx].
Defined.

Lemma eqb_lxor (a b : Z) : (a =? b) = (Z.lxor a b =? 0).
Proof.
  destruct (Z.eqb_spec a b) as [->|Hne].
  - rewrite Z.lxor_nilpotent. reflexivity.
  - symmetry. apply Z.eqb_neq. intros H. apply Hne. apply Z.lxor_eq. exact H.
Qed.

(** X5: a non-empty reply passes validation exactly when the XOR of 0x50
    with all of its elements, the final one included, is 0; an empty
    reply makes validation raise [IndexError]. *)
Theorem validate_is_zero_sum (reply : list Z) :
  validate reply
  = match reply with
    | [] => Raise IndexError
    | _ :: _ => Ok (xor_fold 0x50 reply =? 0)
    end.
Proof.
  destruct reply as [|r reply']; [reflexivity|].
  assert (Hne : r :: reply' <> []) by discriminate.
  rewrite (snoc_decompose (r :: reply') 0 Hne) at 1 2.
  rewrite validate_snoc, xor_fold_app. unfold xor_fold at 2. cbn [foldl].
  rewrite eqb_lxor. reflexivity.
Qed.

Lemma xor_fold_Permutation (l l' : list Z) :
  Permutation l l' -> forall seed, xor_fold seed l = xor_fold seed l'.
Proof.
  induction 1 as [|x l l' _ IH|x y l|l l' l'' _ IH1 _ IH2]; intros seed.
  - reflexivity.
  - unfold xor_fold in *. cbn [foldl]. apply IH.
  - unfold xor_fold. cbn [foldl]. f_equal. xor_bits.
  - rewrite IH1. apply IH2.
Qed.

(** X6: validation does not see the order of the bytes before the
    checksum: two replies with the same final byte whose other bytes are
    a rearrangement of one another are both accepted or both rejected. *)
Theorem validate_ignores_order (body body' : list Z) (final : Z) :
  Permutation body body' ->
  validate (body ++ [final]) = validate (body' ++ [final]).
Proof.
  intros Hp. rewrite !validate_snoc.
  rewrite (xor_fold_Permutation body body' Hp). reflexivity.
Qed.

Lemma validate_ignores_order_witness :
  validate [0x6E; 0x88; 0x02; 0x00; 0x10; 0x00; 0x00; 0x64; 0x00; 0x4B; 0x8B]
  = validate [0x6E; 0x88; 0x02; 0x00; 0x10; 0x00; 0x00; 0x4B; 0x00; 0x64; 0x8B].
Proof.
  apply (validate_ignores_order
           [0x6E; 0x88; 0x02; 0x00; 0x10; 0x00; 0x00; 0x64; 0x00; 0x4B]
           [0x6E; 0x88; 0x02; 0x00; 0x10; 0x00; 0x00; 0x4B; 0x00; 0x64] 0x8B).
  do 7 apply perm_skip.
  apply (perm_trans (l' := [0x00; 0x64; 0x4B])); [apply perm_swap|].
  apply (perm_trans (l' := [0x00; 0x4B; 0x64])); [apply perm_skip, perm_swap|].
  apply perm_swap.
Defined.

End CodecExtras.

(** ** More on the transport exchange *)

Module TransportExtras.
Import Macos CodecSpec CodecProofs CodecExtras TransportSpec TrafficSpec.

Section AnyBus.
Context {World service float : Type} `{!IOAVBus World service float}.

Variable writeSleepTime readSleepTime retrySleepTime : float.
Variable numOfWriteCycles : Z.

(** X7: the bus is left alone, and the world is as it was, when there is
    no service (the [assert] fails), when the payload cannot be built into
    a packet (its [ValueError] comes out), and when the number of retry
    attempts is 0 or negative, in which case the result is failure with an
    empty reply. *)
Theorem exchange_without_bus_activity
    (ioavservice : option service) (send : list Z) (read_reply : bool)
    (numOfRetryAttempts : Z) (w : World) :
  let out :=
    performDDCCommunication ioavservice send read_reply writeSleepTime
      numOfWriteCycles readSleepTime numOfRetryAttempts retrySleepTime w in
  (ioavservice = None -> out = (Raise AssertionError, w))
  /\ (forall s e, ioavservice = Some s -> encode send = Raise e ->
                 out = (Raise e, w))
  /\ (forall s packet, ioavservice = Some s -> encode send = Ok packet ->
                      numOfRetryAttempts <= 0 -> out = (Ok (false, []), w)).
Proof.
  cbv zeta. unfold performDDCCommunication. split; [|split].
  - intros ->. reflexivity.
  - intros s e -> E. unfold io_bind, io_lift. rewrite E. reflexivity.
  - intros s packet -> E Hn. unfold io_bind, io_lift. rewrite E.
    replace (Z.to_nat numOfRetryAttempts) with 0%nat by lia. reflexivity.
Qed.

Lemma write_cycles_returns (ioavservice : service) (packet : list Z) (k : nat) :
  sleeps writeSleepTime ->
  forall (b : bool) (w : World),
    exists b' w',
      write_cycles ioavservice packet writeSleepTime k b w = (Ok b', w').
Proof.
  intros Hs. induction k as [|k IH]; intros b w; cbn [write_cycles].
  - unfold io_ret. eauto.
  - unfold io_bind. destruct (Hs w) as [w1 ->]. unfold write_packet.
    destruct (IOAVServiceWriteI2C _ _ _ _ _ _) as [ret w2]. apply IH.
Qed.

Lemma retry_loop_write_only (ioavservice : service) (packet : list Z) (k : nat) :
  sleeps writeSleepTime ->
  sleeps retrySleepTime ->
  forall (b : bool) (w : World),
    exists b' w',
      retry_loop ioavservice packet false writeSleepTime numOfWriteCycles
        readSleepTime retrySleepTime k b [] w
      = (Ok (b', []), w').
Proof.
  intros Hw Hr. induction k as [|k IH]; intros b w; cbn [retry_loop].
  - unfold io_ret. eauto.
  - unfold io_bind at 1. unfold attempt. unfold io_bind at 1.
    destruct (write_cycles_returns ioavservice packet
                (Z.to_nat (Z.max numOfWriteCycles 1)) Hw b w) as (st & w1 & ->).
    unfold io_ret at 1. cbn [fst snd].
    destruct st; [unfold io_ret; eauto|].
    unfold io_bind. destruct (Hr w1) as [w2 ->]. apply IH.
Qed.

Lemma retry_loop_no_reply (ioavservice : service) (packet : list Z) (k : nat) :
  forall (b b' : bool) (rep : list Z) (w w' : World),
    retry_loop ioavservice packet false writeSleepTime numOfWriteCycles
      readSleepTime retrySleepTime k b [] w
    = (Ok (b', rep), w') ->
    rep = [].
Proof.
  induction k as [|k IH]; intros b b' rep w w'; cbn [retry_loop].
  - unfold io_ret. intros H. inversion H. reflexivity.
  - unfold io_bind at 1. unfold attempt. unfold io_bind at 1.
    destruct (write_cycles _ _ _ _ _ _) as [[st|e] w1];
      [|intros H; discriminate H].
    unfold io_ret at 1. cbn [fst snd].
    destruct st; [unfold io_ret; intros H; inversion H; reflexivity|].
    unfold io_bind.
    destruct (time_sleep retrySleepTime w1) as [[[]|e] w2];
      [|intros H; discriminate H].
    apply IH.
Qed.

(** X8: an exchange that expects no reply never reads, and whenever it
    returns it returns an empty reply beside its success flag; once the
    packet is built it does return, and raises nothing, provided
    [time.sleep] accepts the two durations it is called with (it raises
    [ValueError] on a negative one). *)
Theorem exchange_write_only (ioavservice : service) (send packet : list Z)
    (numOfRetryAttempts : Z) (w : World) :
  encode send = Ok packet ->
  let out :=
    performDDCCommunication (Some ioavservice) send false writeSleepTime
      numOfWriteCycles readSleepTime numOfRetryAttempts retrySleepTime w in
  (forall success reply w', out = (Ok (success, reply), w') -> reply = [])
  /\ (sleeps writeSleepTime -> sleeps retrySleepTime ->
      exists success w', out = (Ok (success, []), w')).
Proof.
  intros E. cbv zeta. unfold performDDCCommunication, io_bind, io_lift.
  rewrite E. split.
  - intros success reply w'. apply retry_loop_no_reply.
  - intros Hw Hr. apply retry_loop_write_only; assumption.
Qed.

Lemma getitem_nth (l : list Z) (i : Z) :
  0 <= i < len l -> getitem l i = Ok (nth (Z.to_nat i) l 0).
Proof.
  intros Hi. unfold len in Hi.
  destruct (lookup_lt_is_Some_2 l (Z.to_nat i) ltac:(lia)) as [x Hx].
  rewrite <- (Z2Nat.id i) at 1 by lia.
  rewrite (getitem_nonneg _ _ _ Hx). f_equal. symmetry.
  apply nth_lookup_Some with (d := 0) in Hx. exact Hx.
Qed.

Lemma getitem_past_end (l : list Z) (i : Z) :
  len l <= i -> getitem l i = Raise IndexError.
Proof.
  intros Hi. pose proof (len_nonneg l). unfold len in Hi.
  rewrite <- (Z2Nat.id i) by lia. apply getitem_overrun. lia.
Qed.

Lemma nth_is_byte (l : list Z) (i : nat) :
  Forall is_byte l -> is_byte (nth i l 0).
Proof.
  intros Hl. destruct (l !! i) as [x|] eqn:Hx.
  - rewrite (nth_lookup_Some _ _ _ _ Hx).
    rewrite Forall_lookup in Hl. exact (Hl i x Hx).
  - apply lookup_ge_None in Hx. rewrite nth_overflow by lia.
    unfold is_byte. lia.
Qed.

(** X9: [read] gives [None] exactly when the exchange reports failure;
    when the exchange reports success with a reply of at least 10 bytes,
    [read] gives the pair (current, maximum) with current =
    [reply[8]*256 + reply[9]] and maximum = [reply[6]*256 + reply[7]],
    both between 0 and 65535; a successful reply of fewer than 10 elements
    makes [read] raise [IndexError]. *)
Theorem read_decodes_reply (ioavservice : service) (command : Z)
    (numOfRetryAttempts : Z) (w w' : World) (success : bool) (reply : list Z) :
  performDDCCommunication (Some ioavservice) [command] true writeSleepTime
    numOfWriteCycles readSleepTime numOfRetryAttempts retrySleepTime w
  = (Ok (success, reply), w') ->
  let out :=
    read (Some ioavservice) command writeSleepTime numOfWriteCycles
      readSleepTime numOfRetryAttempts retrySleepTime w in
  (success = false -> out = (Ok None, w'))
  /\ (success = true -> 10 <= len reply ->
      out = (Ok (Some (decoded reply)), w')
      /\ (Forall is_byte reply ->
          0 <= fst (decoded reply) <= 65535 /\ 0 <= snd (decoded reply) <= 65535))
  /\ (success = true -> len reply < 10 -> out = (Raise IndexError, w')).
Proof.
  intros H. cbv zeta. unfold read, io_bind. rewrite H.
  split; [|split].
  - intros ->. reflexivity.
  - intros -> Hl. split.
    + unfold io_lift, decoded.
      rewrite (getitem_nth reply 6), (getitem_nth reply 7),
        (getitem_nth reply 8), (getitem_nth reply 9) by lia.
      reflexivity.
    + intros Hb. unfold decoded. cbn [fst snd].
      pose proof (nth_is_byte reply 6 Hb). pose proof (nth_is_byte reply 7 Hb).
      pose proof (nth_is_byte reply 8 Hb). pose proof (nth_is_byte reply 9 Hb).
      unfold is_byte in *. lia.
  - intros -> Hl. unfold io_lift. pose proof (len_nonneg reply) as Hn.
    destruct (Z.le_gt_cases (len reply) 6);
      [rewrite (getitem_past_end reply 6) by lia; reflexivity|].
    rewrite (getitem_nth reply 6) by lia. cbn [bind].
    destruct (Z.le_gt_cases (len reply) 7);
      [rewrite (getitem_past_end reply 7) by lia; reflexivity|].
    rewrite (getitem_nth reply 7) by lia. cbn [bind].
    destruct (Z.le_gt_cases (len reply) 8);
      [rewrite (getitem_past_end reply 8) by lia; reflexivity|].
    rewrite (getitem_nth reply 8) by lia. cbn [bind].
    rewrite (getitem_past_end reply 9) by lia. reflexivity.
Qed.

End AnyBus.

(** *** On a scripted bus *)

Import SimulatedTransport.

Lemma writes_app (l k : list event) : writes (l ++ k) = (writes l + writes k)%nat.
Proof. unfold writes. rewrite List.filter_app, length_app. reflexivity. Qed.

Lemma reads_app (l k : list event) : reads (l ++ k) = (reads l + reads k)%nat.
Proof. unfold reads. rewrite List.filter_app, length_app. reflexivity. Qed.

Lemma traffic_nil (packet : list Z) : traffic packet 0 0 [].
Proof. repeat split. constructor. Qed.

Lemma traffic_app (packet : list Z) (a b a' b' : nat) (d d' : list event) :
  traffic packet a b d -> traffic packet a' b' d' ->
  traffic packet (a + a') (b + b') (d ++ d').
Proof.
  intros (Hw & Hr & Hf) (Hw' & Hr' & Hf'). unfold traffic.
  rewrite writes_app, reads_app, Hw, Hr, Hw', Hr'.
  split; [reflexivity|]. split; [reflexivity|]. apply Forall_app. tauto.
Qed.

Lemma traffic_sleep (packet : list Z) (t : Z) : traffic packet 0 0 [ev_sleep t].
Proof. repeat split. constructor; [discriminate|constructor]. Qed.

Lemma traffic_write (packet : list Z) : traffic packet 1 0 [ev_write packet].
Proof. repeat split. constructor; [reflexivity|constructor]. Qed.

Lemma traffic_read (packet : list Z) (n : Z) : traffic packet 0 1 [ev_read n].
Proof. repeat split. constructor; [discriminate|constructor]. Qed.

Lemma sim_sleep_Ok (d : Z) (b : Bus) :
  0 <= d ->
  sim_sleep d b
  = (Ok tt, mkBus (write_script b) (read_script b) (log b ++ [ev_sleep d])).
Proof.
  intros Hd. unfold sim_sleep. destruct (Z.ltb_spec d 0); [lia|reflexivity].
Qed.

Section Scripted.
Variable packet : list Z.
Variable read_reply : bool.
Variable writeSleepTime readSleepTime retrySleepTime : Z.
Variable numOfWriteCycles : Z.

Hypothesis write_sleep_accepted : 0 <= writeSleepTime.
Hypothesis read_sleep_accepted : read_reply = true -> 0 <= readSleepTime.
Hypothesis retry_sleep_accepted : 0 <= retrySleepTime.

Lemma sim_write_cycles (k : nat) :
  forall (st : bool) (b : Bus),
    exists st' b',
      write_cycles tt packet writeSleepTime k st b = (Ok st', b')
      /\ read_script b' = read_script b
      /\ exists d, log b' = log b ++ d /\ traffic packet k 0 d.
Proof.
  induction k as [|k IH]; intros st b; cbn [write_cycles].
  - exists st, b. split; [reflexivity|]. split; [reflexivity|].
    exists []. rewrite app_nil_r. split; [reflexivity|apply traffic_nil].
  - unfold io_bind. cbn [time_sleep Bus_IOAVBus].
    rewrite (sim_sleep_Ok writeSleepTime b write_sleep_accepted).
    unfold write_packet. cbn [IOAVServiceWriteI2C Bus_IOAVBus].
    set (b0 := mkBus (write_script b) (read_script b)
                 (log b ++ [ev_sleep writeSleepTime])).
    destruct (sim_write tt ARM64_DDC_7BIT_ADDRESS ARM64_DDC_DATA_ADDRESS packet
                (len packet) b0) as [ret b1] eqn:E.
    assert (Hb1 : read_script b1 = read_script b
                  /\ log b1 = log b ++ [ev_sleep writeSleepTime; ev_write packet]).
    { unfold sim_write, b0 in E. cbn in E.
      destruct (write_script b); inversion E; subst; cbn;
        rewrite <- app_assoc; split; reflexivity. }
    destruct Hb1 as [Hrs Hlog].
    destruct (IH (ret =? 0) b1) as (st' & b' & Hrun & Hrs' & d & Hd & Ht).
    exists st', b'. split; [exact Hrun|]. split; [congruence|].
    exists ([ev_sleep writeSleepTime; ev_write packet] ++ d).
    split; [rewrite Hd, Hlog, <- app_assoc; reflexivity|].
    change (S k) with (1 + k)%nat. change 0%nat with (0 + 0)%nat at 2.
    apply traffic_app; [|exact Ht].
    change [ev_sleep writeSleepTime; ev_write packet]
      with ([ev_sleep writeSleepTime] ++ [ev_write packet]).
    change 1%nat with (0 + 1)%nat. change 0%nat with (0 + 0)%nat at 3.
    apply traffic_app; [apply traffic_sleep|apply traffic_write].
Qed.

Lemma sim_attempt (st : bool) (b : Bus) :
  let out :=
    attempt tt packet read_reply writeSleepTime numOfWriteCycles readSleepTime
      st b in
  exists d,
    log (snd out) = log b ++ d
    /\ traffic packet (Z.to_nat (Z.max numOfWriteCycles 1))
         (if read_reply then 1 else 0) d.
Proof.
  cbv zeta. unfold attempt. unfold io_bind at 1.
  destruct (sim_write_cycles (Z.to_nat (Z.max numOfWriteCycles 1)) st b)
    as (st1 & b1 & -> & _ & d & Hd & Ht).
  destruct read_reply.
  - unfold io_bind at 1. cbn [time_sleep Bus_IOAVBus].
    rewrite (sim_sleep_Ok readSleepTime b1 (read_sleep_accepted eq_refl)).
    unfold io_bind at 1, read_buffer. cbn [IOAVServiceReadI2C Bus_IOAVBus].
    set (b0 := mkBus (write_script b1) (read_script b1)
                 (log b1 ++ [ev_sleep readSleepTime])).
    destruct (sim_read tt ARM64_DDC_7BIT_ADDRESS ARM64_DDC_DATA_ADDRESS
                read_buffer_size b0) as [[ret rep] b2] eqn:E.
    assert (Hb2 : log b2 = log b1 ++ [ev_sleep readSleepTime; ev_read read_buffer_size]).
    { unfold sim_read, b0 in E. cbn in E.
      destruct (read_script b1); inversion E; subst; cbn;
        rewrite <- app_assoc; reflexivity. }
    exists (d ++ [ev_sleep readSleepTime] ++ [ev_read read_buffer_size]).
    split.
    + unfold io_bind, io_lift, io_ret.
      destruct (ret =? 0); [destruct (validate rep)|]; cbn [snd];
        rewrite Hb2, Hd, <- app_assoc; reflexivity.
    + rewrite <- (Nat.add_0_r (Z.to_nat _)). change 1%nat with (0 + (0 + 1))%nat.
      apply traffic_app; [exact Ht|].
      change 0%nat with (0 + 0)%nat at 1.
      apply traffic_app; [apply traffic_sleep|apply traffic_read].
  - exists d. cbn [snd io_ret]. split; [exact Hd|]. exact Ht.
Qed.

Lemma sim_retry_loop (k : nat) :
  forall (st : bool) (rep : list Z) (b : Bus),
    let out :=
      retry_loop tt packet read_reply writeSleepTime numOfWriteCycles
        readSleepTime retrySleepTime k st rep b in
    exists (passes : nat) (d : list event),
      log (snd out) = log b ++ d
      /\ (passes <= k)%nat
      /\ (0 < k -> 0 < passes)%nat
      /\ traffic packet (passes * Z.to_nat (Z.max numOfWriteCycles 1))
           (if read_reply then passes else 0) d.
Proof.
  induction k as [|k IH]; intros st rep b; cbv zeta; cbn [retry_loop].
  - exists 0%nat, []. rewrite app_nil_r. cbn [io_ret snd Nat.mul].
    split; [reflexivity|]. split; [lia|]. split; [lia|].
    destruct read_reply; apply traffic_nil.
  - unfold io_bind at 1.
    destruct (sim_attempt st b) as (d & Hd & Ht).
    assert (Hone : traffic packet (1 * Z.to_nat (Z.max numOfWriteCycles 1))
                     (if read_reply then 1 else 0)%nat d).
    { rewrite Nat.mul_1_l. exact Ht. }
    destruct (attempt _ _ _ _ _ _ _ _) as [[r|e] b1]; cbn [snd] in Hd.
    + destruct (fst r).
      * exists 1%nat, d. cbn [snd io_ret].
        split; [exact Hd|]. split; [lia|]. split; [lia|]. exact Hone.
      * unfold io_bind. cbn [time_sleep Bus_IOAVBus].
        rewrite (sim_sleep_Ok retrySleepTime b1 retry_sleep_accepted).
        set (b2 := mkBus (write_script b1) (read_script b1)
                     (log b1 ++ [ev_sleep retrySleepTime])).
        destruct (IH false (snd r) b2) as (p & d' & Hd' & Hle & _ & Ht').
        exists (S p), (d ++ [ev_sleep retrySleepTime] ++ d').
        split; [|split; [lia|split; [lia|]]].
        -- rewrite Hd'. unfold b2. cbn [log].
           rewrite Hd, <- !app_assoc. reflexivity.
        -- replace (S p * Z.to_nat (Z.max numOfWriteCycles 1))%nat
             with (Z.to_nat (Z.max numOfWriteCycles 1)
                   + (0 + p * Z.to_nat (Z.max numOfWriteCycles 1)))%nat by lia.
           replace (if read_reply then S p else 0%nat)
             with ((if read_reply then 1 else 0)
                   + (0 + (if read_reply then p else 0)))%nat
             by (destruct read_reply; lia).
           apply traffic_app; [exact Ht|].
           apply traffic_app; [apply traffic_sleep|exact Ht'].
    + exists 1%nat, d. cbn [snd].
      split; [exact Hd|]. split; [lia|]. split; [lia|]. exact Hone.
Qed.

Lemma sim_attempt_invalid (st : bool) (b : Bus) (rep : list Z)
    (rs : list (Z * list Z)) :
  read_reply = true ->
  read_script b = (0, rep) :: rs ->
  validate rep = Ok false ->
  exists b',
    attempt tt packet true writeSleepTime numOfWriteCycles readSleepTime st b
    = (Ok (false, rep), b')
    /\ read_script b' = rs.
Proof.
  intros Hrr Hrs Hv. unfold attempt. unfold io_bind at 1.
  destruct (sim_write_cycles (Z.to_nat (Z.max numOfWriteCycles 1)) st b)
    as (st1 & b1 & -> & Hsame & _).
  unfold io_bind at 1. cbn [time_sleep Bus_IOAVBus].
  rewrite (sim_sleep_Ok readSleepTime b1 (read_sleep_accepted Hrr)).
  unfold io_bind at 1, read_buffer. cbn [IOAVServiceReadI2C Bus_IOAVBus].
  unfold sim_read. cbn [read_script write_script log].
  rewrite Hsame, Hrs. cbn [Z.eqb]. unfold io_bind, io_lift, io_ret.
  rewrite Hv. eexists. split; reflexivity.
Qed.

Lemma last_cons {A} (x d : A) (l : list A) : List.last (x :: l) d = List.last l x.
Proof.
  revert x d. induction l as [|y l IH]; intros x d; [reflexivity|].
  change (List.last (x :: y :: l) d) with (List.last (y :: l) d).
  rewrite IH. symmetry. apply IH.
Qed.

Lemma sim_retry_exhaust (replies : list (list Z)) :
  read_reply = true ->
  forall (st : bool) (rep0 : list Z) (b : Bus) (rest : list (Z * list Z)),
    read_script b = map (fun rep => (0, rep)) replies ++ rest ->
    Forall (fun rep => validate rep = Ok false) replies ->
    fst (retry_loop tt packet true writeSleepTime numOfWriteCycles
           readSleepTime retrySleepTime (length replies) st rep0 b)
    = Ok (match replies with [] => st | _ :: _ => false end,
          List.last replies rep0).
Proof.
  intros Hrr.
  induction replies as [|r rs IH]; intros st rep0 b rest Hrs Hall.
  - reflexivity.
  - apply Forall_cons in Hall as [Hr Hrest].
    cbn [length retry_loop]. unfold io_bind at 1.
    destruct (sim_attempt_invalid st b r (map (fun rep => (0, rep)) rs ++ rest)
                Hrr Hrs Hr) as (b' & -> & Hrs').
    cbn [fst snd]. unfold io_bind. cbn [time_sleep Bus_IOAVBus].
    rewrite (sim_sleep_Ok retrySleepTime b' retry_sleep_accepted).
    set (b2 := mkBus (write_script b') (read_script b')
                 (log b' ++ [ev_sleep retrySleepTime])).
    assert (Hrs'' : read_script b2 = map (fun rep => (0, rep)) rs ++ rest)
      by exact Hrs'.
    rewrite (IH false r b2 rest Hrs'' Hrest).
    rewrite last_cons. destruct rs; reflexivity.
Qed.

End Scripted.



(** A negative duration stops the exchange at its first sleep: nothing
    is written, and the [ValueError] of [time.sleep] comes out. *)
Example exchange_negative_sleep :
  performDDCCommunication (Some tt) [0x10] true (-1) 2 50000 4 10000
    (mkBus [0; 0] [(0, luminance_reply)] [])
  = (Raise ValueError, mkBus [0; 0] [(0, luminance_reply)] []).
Proof. vm_compute. reflexivity. Qed.

(** *** Concrete runs *)

Lemma exchange_without_bus_activity_witness :
  performDDCCommunication (World := Bus) (service := unit) None [0x10] true
    10000 2 50000 4 10000 (mkBus [] [] [])
  = (Raise AssertionError, mkBus [] [] [])
  /\ performDDCCommunication (Some tt) [0x100] true 10000 2 50000 4 10000
       (mkBus [] [] [])
     = (Raise ValueError, mkBus [] [] [])
  /\ performDDCCommunication (Some tt) [0x10] true 10000 2 50000 0 10000
       (mkBus [] [] [])
     = (Ok (false, []), mkBus [] [] []).
Proof.
  split; [|split].
  - exact (proj1 (exchange_without_bus_activity 10000 50000 10000 2
                    None [0x10] true 4 (mkBus [] [] [])) eq_refl).
  - exact (proj1 (proj2 (exchange_without_bus_activity 10000 50000 10000 2
                           (Some tt) [0x100] true 4 (mkBus [] [] [])))
             tt ValueError eq_refl eq_refl).
  - exact (proj2 (proj2 (exchange_without_bus_activity 10000 50000 10000 2
                           (Some tt) [0x10] true 0 (mkBus [] [] [])))
             tt [0x82; 0x01; 0x10; 0xFD] eq_refl eq_refl ltac:(lia)).
Defined.

Lemma exchange_write_only_witness :
  exists success w',
    performDDCCommunication (Some tt) [0x03; 0x10; 0x00; 0x32] false
      10000 2 50000 4 10000 (mkBus [0; 0] [(0, luminance_reply)] [])
    = (Ok (success, []), w').
Proof.
  apply (proj2 (exchange_write_only 10000 50000 10000 2 tt
                  [0x03; 0x10; 0x00; 0x32]
                  [0x85; 0x04; 0x03; 0x10; 0x00; 0x32; 0x9F] 4
                  (mkBus [0; 0] [(0, luminance_reply)] []) eq_refl));
    intros w; eexists; reflexivity.
Defined.

Lemma read_decodes_reply_witness :
  fst (read (Some tt) 0x10 10000 2 50000 4 10000
         (mkBus [0; 0] [(0, luminance_reply)] []))
  = Ok (Some (75, 100)).
Proof.
  pose (b := mkBus [0; 0] [(0, luminance_reply)] []).
  pose (out := performDDCCommunication (Some tt) [0x10] true 10000 2 50000 4
                 10000 b).
  assert (H : out = (Ok (true, luminance_reply), snd out)) by reflexivity.
  destruct (proj1 (proj2 (read_decodes_reply 10000 50000 10000 2 tt 0x10 4
                            b (snd out) true luminance_reply H))
              eq_refl ltac:(vm_compute; congruence)) as [Hread _].
  unfold b in Hread. rewrite Hread. reflexivity.
Defined.



End TransportExtras.

(** ** More on get, set and toggle *)

Module ImplExtras.
Import Pyddc VcpDummy Impl DummySpec SimulatedMonitors CodecProofs ImplProofs.

Section AnyPlatform.
Context {World VCP float : Type} `{!ABCVCP World VCP float}.

Lemma getitem_Ok_inv {A} (l : list A) (i : Z) (x : A) :
  getitem l i = Ok x ->
  (0 <= i < len l /\ l !! Z.to_nat i = Some x)
  \/ (- len l <= i < 0 /\ l !! Z.to_nat (len l + i) = Some x).
Proof.
  unfold getitem, len.
  destruct (Z.ltb_spec i 0).
  - destruct (Z.leb_spec 0 (Z.of_nat (length l) + i)); cbn [andb];
      [|intros Heq; discriminate Heq].
    destruct (Z.ltb_spec (Z.of_nat (length l) + i) (Z.of_nat (length l)));
      [|intros Heq; discriminate Heq].
    destruct (l !! Z.to_nat (Z.of_nat (length l) + i)) eqn:E;
      [|intros Heq; discriminate Heq].
    intros Heq. inversion Heq; subst. right. split; [lia|reflexivity].
  - destruct (Z.leb_spec 0 i); [|lia]. cbn [andb].
    destruct (Z.ltb_spec i (Z.of_nat (length l)));
      [|intros Heq; discriminate Heq].
    destruct (l !! Z.to_nat i) eqn:E; [|intros Heq; discriminate Heq].
    intros Heq. inversion Heq; subst. left. split; [lia|reflexivity].
Qed.

Lemma getitem_Raise_inv {A} (l : list A) (i : Z) (e : exn) :
  getitem l i = Raise e -> e = IndexError /\ (i < - len l \/ len l <= i).
Proof.
  unfold getitem, len.
  destruct (Z.ltb_spec i 0).
  - destruct (Z.leb_spec 0 (Z.of_nat (length l) + i)); cbn [andb].
    + destruct (Z.ltb_spec (Z.of_nat (length l) + i) (Z.of_nat (length l))); [|lia].
      destruct (lookup_lt_is_Some_2 l (Z.to_nat (Z.of_nat (length l) + i))
                  ltac:(lia)) as [x ->].
      discriminate.
    + intros Heq. inversion Heq. split; [reflexivity|lia].
  - destruct (Z.leb_spec 0 i); [|lia]. cbn [andb].
    destruct (Z.ltb_spec i (Z.of_nat (length l))).
    + destruct (lookup_lt_is_Some_2 l (Z.to_nat i) ltac:(lia)) as [x ->].
      discriminate.
    + intros Heq. inversion Heq. split; [reflexivity|lia].
Qed.

(** X12: with [n] monitors listed, [_get_monitor(mon)] gives the monitor
    at position [mon] for [0 <= mon < n], the monitor at position
    [n + mon], counted from the end, for [-n <= mon < 0], and for every
    other number raises [MonitorBossError] ("does not exist") from
    [IndexError]; the world is the one the listing left. *)
Theorem get_monitor_by_index (mon : Z) (w w' : World) (monitors : list VCP) :
  get_vcps w = (Ok monitors, w') ->
  (forall m, 0 <= mon < len monitors -> monitors !! Z.to_nat mon = Some m ->
             _get_monitor mon w = (Ok m, w'))
  /\ (forall m, - len monitors <= mon < 0 ->
                monitors !! Z.to_nat (len monitors + mon) = Some m ->
                _get_monitor mon w = (Ok m, w'))
  /\ (mon < - len monitors \/ len monitors <= mon ->
      _get_monitor mon w
      = (Raise (MonitorBossError (msg_monitor_does_not_exist mon) IndexError), w')).
Proof.
  intros Hg. unfold _get_monitor, list_monitors, io_bind, io_try, io_lift.
  rewrite Hg.
  destruct (getitem monitors mon) as [x|e] eqn:E.
  - apply getitem_Ok_inv in E as [[Hr Hx]|[Hr Hx]].
    + split; [|split]; [intros m _ Hm; congruence|intros; lia|intros; lia].
    + split; [|split]; [intros; lia|intros m _ Hm; congruence|intros; lia].
  - apply getitem_Raise_inv in E as [-> Hr].
    split; [|split]; [intros; lia|intros; lia|reflexivity].
Qed.

End AnyPlatform.

(** *** On the dummy monitor *)

Section OnDummy.
Context {float : Type} {class_ : VCPCommandClass}
  {maxima : DeclaredMaxima DummyVCP}.

Lemma get_attribute_dummy_state (mon : Z) (attr : Feature) (timeout : float)
    (cv : gmap Z Z) :
  snd (get_attribute mon attr timeout cv) = cv.
Proof.
  unfold get_attribute, io_bind. rewrite get_monitor_dummy.
  destruct (valid_monitor mon); [|reflexivity].
  unfold io_try, get_vcp_feature.
  destruct (negb (readable (com attr))); [reflexivity|].
  cbn [_get_vcp_feature DummyVCP_ABCVCP]. unfold dummy_get_vcp_feature.
  destruct (supported_codes !! code (com attr)); [|reflexivity].
  destruct (if negb (discrete (com attr)) then _ else _) as [m|e];
    [|destruct e; reflexivity].
  destruct (cv !! code (com attr)); reflexivity.
Qed.

Lemma set_attribute_dummy_cases (mon : Z) (attr : Feature) (val : Z)
    (timeout : float) (cv : gmap Z Z) :
  set_attribute mon attr val timeout cv = (Ok val, <[code (com attr) := val]> cv)
  \/ exists e, set_attribute mon attr val timeout cv = (Raise e, cv).
Proof.
  unfold set_attribute, io_bind. rewrite get_monitor_dummy.
  destruct (valid_monitor mon); [|right; eauto].
  unfold io_try, set_vcp_feature.
  destruct (negb (writeable (com attr))); [right; cbn; eauto|].
  destruct (out_of_range mkDummyVCP (com attr) val); [right; cbn; eauto|].
  cbn [_set_vcp_feature DummyVCP_ABCVCP]. unfold dummy_set_vcp_feature.
  destruct (supported_codes !! code (com attr)) as [[params|]|];
    [| |right; cbn; eauto].
  - destruct (existsb _ _); [left; reflexivity|right; cbn; eauto].
  - destruct (unknown_max_values !! code (com attr)) as [maxv|];
      [|right; cbn; eauto].
    destruct (val >? maxv); [|left; reflexivity].
    right. unfold VCPCommand_name.
    destruct VCPCommand_has_name; cbn; eauto.
Qed.

(** X14: on the dummy monitor a read never changes the stored values,
    whether it returns or raises. *)
Theorem get_attribute_reads_only (mon : Z) (attr : Feature) (timeout : float)
    (cv : gmap Z Z) :
  snd (get_attribute mon attr timeout cv) = cv.
Proof.
  unfold get_attribute, io_bind. rewrite get_monitor_dummy.
  destruct (valid_monitor mon); [|reflexivity].
  unfold io_try, get_vcp_feature.
  destruct (negb (readable (com attr))); [reflexivity|].
  cbn [_get_vcp_feature DummyVCP_ABCVCP]. unfold dummy_get_vcp_feature.
  destruct (supported_codes !! code (com attr)); [|reflexivity].
  destruct (if negb (discrete (com attr)) then _ else _) as [m|e];
    [|destruct e; reflexivity].
  destruct (cv !! code (com attr)); reflexivity.
Qed.

(** X15: on the dummy monitor a [set_attribute] or a [toggle_attribute]
    that raises leaves the stored values exactly as they were. *)
Theorem failed_write_changes_nothing (mon : Z) (attr : Feature)
    (val val1 val2 : Z) (timeout : float) (cv cv' : gmap Z Z) (e : exn) :
  (set_attribute mon attr val timeout cv = (Raise e, cv') -> cv' = cv)
  /\ (toggle_attribute mon attr val1 val2 timeout cv = (Raise e, cv') -> cv' = cv).
Proof.
  split.
  - intros H.
    destruct (set_attribute_dummy_cases mon attr val timeout cv) as [Hok|[e' He]];
      congruence.
  - unfold toggle_attribute, io_bind.
    pose proof (get_attribute_dummy_state mon attr timeout cv) as Hg.
    destruct (get_attribute mon attr timeout cv) as [[got|e0] cv0];
      cbn [snd] in Hg; subst cv0; [|intros H; inversion H; reflexivity].
    destruct (set_attribute_dummy_cases mon attr
                (if value got =? val1 then val2 else val1) timeout cv)
      as [Hok|[e' He]].
    + rewrite Hok. intros H. discriminate H.
    + rewrite He. intros H. inversion H. reflexivity.
Qed.

Lemma get_attribute_dummy_KeyError (mon : Z) (attr : Feature)
    (timeout : float) (cv : gmap Z Z) :
  valid_monitor mon = true ->
  readable (com attr) = true ->
  supported_codes !! code (com attr) <> None ->
  answers (com attr) = false ->
  get_attribute mon attr timeout cv = (Raise KeyError, cv).
Proof.
  intros Hm Hr Hc Ha. unfold get_attribute, io_bind.
  rewrite get_monitor_dummy, Hm.
  unfold io_try, get_vcp_feature. rewrite Hr. cbn [negb].
  cbn [_get_vcp_feature DummyVCP_ABCVCP]. unfold dummy_get_vcp_feature.
  unfold answers in Ha.
  destruct (supported_codes !! code (com attr)); [|contradiction].
  destruct (discrete (com attr)); cbn [negb orb] in *; [discriminate|].
  destruct (unknown_max_values !! code (com attr)); [discriminate|].
  reflexivity.
Qed.

Lemma accepts_supported (c val : Z) :
  accepts c val = true -> supported_codes !! c <> None.
Proof.
  unfold accepts. destruct (supported_codes !! c); [discriminate|].
  intros H. discriminate H.
Qed.

(** X16: the dummy monitors share their stored values: after a
    [set_attribute] through one monitor has succeeded, a [get_attribute]
    of the same feature, if it is readable, through any monitor, the
    same or another, returns the value that was set, provided the dummy
    can answer the read at all: for a command that is flagged continuous
    and whose code has no entry in [unknown_max_values], the write is
    stored all the same and the read raises [KeyError]. *)
Theorem set_then_get_any_monitor (mon mon' : Z) (attr : Feature) (val r : Z)
    (timeout timeout' : float) (cv cv' : gmap Z Z) :
  set_attribute mon attr val timeout cv = (Ok r, cv') ->
  valid_monitor mon' = true ->
  readable (com attr) = true ->
  cv' !! code (com attr) = Some val
  /\ (answers (com attr) = true ->
      exists maxv,
        get_attribute mon' attr timeout' cv'
        = (Ok (mkVCPFeatureReturn val maxv), cv'))
  /\ (answers (com attr) = false ->
      get_attribute mon' attr timeout' cv' = (Raise KeyError, cv')).
Proof.
  intros Hs Hm Hr.
  apply set_attribute_dummy_inv in Hs as (_ & -> & Hacc & _).
  split; [apply lookup_insert_eq|]. split.
  - intros Ha. apply get_attribute_dummy_Ok; try assumption.
    apply lookup_insert_eq.
  - intros Ha. apply get_attribute_dummy_KeyError; try assumption.
    exact (accepts_supported _ _ Hacc).
Qed.

(** X17: on the dummy monitor a successful [set_attribute] of one feature
    changes what [get_attribute] returns for no feature with another
    code. *)
Theorem set_leaves_other_features (mon mon' : Z) (attr other : Feature)
    (val r : Z) (timeout timeout' : float) (cv cv' : gmap Z Z) :
  set_attribute mon attr val timeout cv = (Ok r, cv') ->
  code (com other) <> code (com attr) ->
  fst (get_attribute mon' other timeout' cv')
  = fst (get_attribute mon' other timeout' cv).
Proof.
  intros Hs Hne.
  apply set_attribute_dummy_inv in Hs as (_ & -> & _).
  unfold get_attribute, io_bind. rewrite !get_monitor_dummy.
  destruct (valid_monitor mon'); [|reflexivity].
  unfold io_try, get_vcp_feature.
  destruct (negb (readable (com other))); [reflexivity|].
  cbn [_get_vcp_feature DummyVCP_ABCVCP]. unfold dummy_get_vcp_feature.
  destruct (supported_codes !! code (com other)); [|reflexivity].
  destruct (if negb (discrete (com other)) then _ else _) as [m|e];
    [|destruct e; reflexivity].
  rewrite lookup_insert_ne by congruence.
  destruct (cv !! code (com other)); reflexivity.
Qed.

(** X18: on the dummy monitor, for an existing monitor and a writable
    command, [set_attribute] succeeds exactly when the value passes the
    range check of [set_vcp_feature] and the dummy takes it: the code is
    supported and the value is, for a code the dummy holds as continuous,
    at most the maximum it keeps (neither check has a lower bound:
    negative values are stored) or, for a code it holds as discrete, one
    of its listed values; it then returns the value and stores it. *)
Theorem set_attribute_succeeds_iff (mon : Z) (attr : Feature) (val : Z)
    (timeout : float) (cv : gmap Z Z) :
  valid_monitor mon = true ->
  writeable (com attr) = true ->
  (out_of_range mkDummyVCP (com attr) val = false
   /\ accepts (code (com attr)) val = true
   <-> set_attribute mon attr val timeout cv
       = (Ok val, <[code (com attr) := val]> cv))
  /\ (supported_codes !! code (com attr) = Some None ->
      forall maxv, unknown_max_values !! code (com attr) = Some maxv ->
                   (accepts (code (com attr)) val = true <-> val <= maxv))
  /\ (forall params, supported_codes !! code (com attr) = Some (Some params) ->
                     (accepts (code (com attr)) val = true <-> val ∈ params)).
Proof.
  intros Hm Hw. split; [|split].
  - split.
    + intros [Ho Ha]. apply set_attribute_dummy_Ok; assumption.
    + intros Hs. apply set_attribute_dummy_inv in Hs. tauto.
  - intros Hc maxv Hmax. unfold accepts. rewrite Hc, Hmax.
    destruct (Z.gtb_spec val maxv); cbn [negb]; split; intros; (lia || congruence).
  - intros params Hc. unfold accepts. rewrite Hc.
    rewrite existsb_exists. split.
    + intros (x & Hin & Hx). apply Z.eqb_eq in Hx. subst x.
      apply list_elem_of_In. exact Hin.
    + intros Hin. exists val. split; [apply list_elem_of_In; exact Hin|].
      apply Z.eqb_refl.
Qed.

(** X19: on the dummy monitor a write that passes the range check of
    [set_vcp_feature], but is of a code the dummy does not support or of
    a value that its list for a discrete code does not hold, raises
    [OSError], which [set_attribute] does not turn into a
    [MonitorBossError]: the bare [OSError] reaches the caller, and
    nothing is stored. *)
Theorem set_attribute_lets_OSError_out (mon : Z) (attr : Feature) (val : Z)
    (timeout : float) (cv : gmap Z Z) :
  valid_monitor mon = true ->
  writeable (com attr) = true ->
  out_of_range mkDummyVCP (com attr) val = false ->
  (supported_codes !! code (com attr) = None
   \/ exists params, supported_codes !! code (com attr) = Some (Some params)
                     /\ existsb (Z.eqb val) params = false) ->
  set_attribute mon attr val timeout cv = (Raise OSError, cv).
Proof.
  intros Hm Hw Ho Hc. unfold set_attribute, io_bind.
  rewrite get_monitor_dummy, Hm.
  unfold io_try, set_vcp_feature. rewrite Hw, Ho. cbn [negb].
  cbn [_set_vcp_feature DummyVCP_ABCVCP]. unfold dummy_set_vcp_feature.
  destruct Hc as [-> | (params & -> & ->)]; reflexivity.
Qed.

End OnDummy.

Section Runs.
#[local] Existing Instance plain_class.
#[local] Existing Instance registry_maxima.

Lemma get_monitor_by_index_witness :
  _get_monitor (float := Z) (-1) current_values = (Ok mkDummyVCP, current_values)
  /\ _get_monitor (float := Z) 3 current_values
     = (Raise (MonitorBossError (msg_monitor_does_not_exist 3) IndexError),
        current_values).
Proof.
  pose proof (get_monitor_by_index (float := Z) (-1) current_values current_values
                [mkDummyVCP; mkDummyVCP; mkDummyVCP] eq_refl) as (_ & Hneg & _).
  pose proof (get_monitor_by_index (float := Z) 3 current_values current_values
                [mkDummyVCP; mkDummyVCP; mkDummyVCP] eq_refl) as (_ & _ & Hout).
  split.
  - apply Hneg; [vm_compute; split; congruence|reflexivity].
  - apply Hout. right. vm_compute. congruence.
Defined.

Lemma failed_write_changes_nothing_witness :
  set_attribute (float := Z) 1 luminance 200 40 current_values
  = (Raise (MonitorBossError (msg_above_max 200) ValueError), current_values)
  /\ toggle_attribute (float := Z) 7 luminance 75 50 40 current_values
     = (Raise (MonitorBossError (msg_monitor_does_not_exist 7) IndexError),
        current_values).
Proof.
  split.
  - destruct (set_attribute (float := Z) 1 luminance 200 40 current_values)
      as [r cv'] eqn:E.
    assert (Hr : r = Raise (MonitorBossError (msg_above_max 200) ValueError))
      by (vm_compute in E; congruence).
    subst r.
    rewrite (proj1 (failed_write_changes_nothing (float := Z) 1 luminance
                      200 0 0 40 current_values cv' _) E).
    reflexivity.
  - destruct (toggle_attribute (float := Z) 7 luminance 75 50 40 current_values)
      as [r cv'] eqn:E.
    assert (Hr : r = Raise (MonitorBossError (msg_monitor_does_not_exist 7)
                              IndexError))
      by (vm_compute in E; congruence).
    subst r.
    rewrite (proj2 (failed_write_changes_nothing (float := Z) 7 luminance
                      0 75 50 40 current_values cv' _) E).
    reflexivity.
Defined.

Lemma set_then_get_any_monitor_witness :
  (exists maxv,
      get_attribute (float := Z) 2 luminance 40 (<[16 := 50]> current_values)
      = (Ok (mkVCPFeatureReturn 50 maxv), <[16 := 50]> current_values))
  /\ get_attribute (float := Z) 2
       (mkFeature (mkVCPCommand "input_source" "input source" 96 false true true [])
          "input source")
       40 (<[96 := 15]> current_values)
     = (Raise KeyError, <[96 := 15]> current_values).
Proof.
  split.
  - assert (Hs : set_attribute (float := Z) 0 luminance 50 40 current_values
                 = (Ok 50, <[16 := 50]> current_values)) by reflexivity.
    apply (proj1 (proj2 (set_then_get_any_monitor (float := Z) 0 2 luminance
                           50 50 40 40 current_values (<[16 := 50]> current_values)
                           Hs eq_refl eq_refl))).
    reflexivity.
  - assert (Hs : set_attribute (float := Z) 0
                   (mkFeature (mkVCPCommand "input_source" "input source"
                                 96 false true true []) "input source")
                   15 40 current_values
                 = (Ok 15, <[96 := 15]> current_values)) by reflexivity.
    apply (proj2 (proj2 (set_then_get_any_monitor (float := Z) 0 2
                           (mkFeature (mkVCPCommand "input_source" "input source"
                                         96 false true true []) "input source")
                           15 15 40 40 current_values (<[96 := 15]> current_values)
                           Hs eq_refl eq_refl))).
    reflexivity.
Defined.

Lemma set_leaves_other_features_witness :
  fst (get_attribute (float := Z) 1 input_source 40 (<[16 := 50]> current_values))
  = fst (get_attribute (float := Z) 1 input_source 40 current_values).
Proof.
  apply (set_leaves_other_features (float := Z) 0 1 luminance input_source
           50 50 40 40 current_values (<[16 := 50]> current_values));
    [reflexivity|discriminate].
Defined.

Lemma set_attribute_succeeds_iff_witness :
  set_attribute (float := Z) 0 luminance (-5) 40 current_values
  = (Ok (-5), <[16 := -5]> current_values).
Proof.
  apply (proj1 (set_attribute_succeeds_iff (float := Z) 0 luminance (-5) 40
                  current_values eq_refl eq_refl)).
  split; reflexivity.
Defined.

Lemma set_attribute_lets_OSError_out_witness :
  set_attribute (float := Z) 0 power_mode 4 40 current_values
  = (Raise OSError, current_values).
Proof.
  apply (set_attribute_lets_OSError_out (float := Z) 0 power_mode 4 40
           current_values eq_refl eq_refl eq_refl).
  left. reflexivity.
Defined.

(** A value that a discrete command does not name never reaches the
    monitor: the range check reports it as "above the max". *)
Example set_attribute_unnamed_value :
  set_attribute (float := Z) 0 input_source 18 40 current_values
  = (Raise (MonitorBossError (msg_above_max 18) ValueError), current_values).
Proof. reflexivity. Qed.

End Runs.

End ImplExtras.

(** ** More on the display enumeration *)

Module EnumerationExtras.
Import Macos EnumerationSpec WalkSpec EnumerationProofs.

Section Frames.
Context {service : Type}.

Abbreviation World := (EnumWorld service).

(** *** Computations that look at the store alone *)

Lemma heap_only_ret {A} (a : A) : heap_only (@io_ret World A a).
Proof. intros w1 w2 H. split; [reflexivity|exact H]. Qed.

Lemma heap_only_raise {A} (e : exn) : heap_only (@io_raise World A e).
Proof. intros w1 w2 H. split; [reflexivity|exact H]. Qed.

Lemma heap_only_lift {A} (r : result A) : heap_only (@io_lift World A r).
Proof. intros w1 w2 H. split; [reflexivity|exact H]. Qed.

Lemma heap_only_bind {A B} (m : io World A) (k : A -> io World B) :
  heap_only m -> (forall a, heap_only (k a)) -> heap_only (io_bind m k).
Proof.
  intros Hm Hk w1 w2 H. unfold io_bind.
  destruct (Hm w1 w2 H) as [Hf Hh].
  destruct (m w1) as [[a|e] w1'], (m w2) as [[a'|e'] w2'];
    cbn [fst snd] in Hf, Hh; inversion Hf; subst.
  - apply Hk. exact Hh.
  - split; [reflexivity|exact Hh].
Qed.

Lemma heap_only_alloc (o : IOregService service) : heap_only (alloc o).
Proof. intros w1 w2 H. cbn. rewrite H. split; reflexivity. Qed.

Lemma heap_only_update (r : ref) (f : IOregService service -> IOregService service) :
  heap_only (update r f).
Proof. intros w1 w2 H. cbn. rewrite H. split; reflexivity. Qed.

Lemma heap_only_if {A} (b : bool) (m1 m2 : io World A) :
  heap_only m1 -> heap_only m2 -> heap_only (if b then m1 else m2).
Proof. destruct b; tauto. Qed.

Ltac heap_only_step :=
  first
    [ apply heap_only_ret | apply heap_only_raise | apply heap_only_lift
    | apply heap_only_alloc | apply heap_only_update
    | apply heap_only_if
    | apply heap_only_bind; [|intros ?] ].

Lemma heap_only_getIORegServiceAppleCDC2Properties (e : RegistryEntry service) :
  heap_only (getIORegServiceAppleCDC2Properties e).
Proof.
  unfold getIORegServiceAppleCDC2Properties.
  repeat heap_only_step.
  - destruct (IORegistryEntryCreateCFProperty e "DisplayAttributes")
      as [[s|z|d]|]; repeat heap_only_step.
    destruct (dict_get d "ProductAttributes"); repeat heap_only_step.
  - destruct (IORegistryEntryCreateCFProperty e "Transport");
      repeat heap_only_step.
Qed.

Lemma heap_only_setIORegServiceDCPAVServiceProxy
    (e : RegistryEntry service) (r : ref) :
  heap_only (setIORegServiceDCPAVServiceProxy e r).
Proof.
  unfold setIORegServiceDCPAVServiceProxy.
  repeat heap_only_step.
Qed.

(** *** Computations that change one object *)

Lemma touches_ret (r : ref) {A} (a : A) : touches r (@io_ret World A a).
Proof. intros w. split; [reflexivity|tauto]. Qed.

Lemma touches_raise (r : ref) {A} (e : exn) : touches r (@io_raise World A e).
Proof. intros w. split; [reflexivity|tauto]. Qed.

Lemma touches_lift (r : ref) {A} (x : result A) : touches r (@io_lift World A x).
Proof. intros w. split; [reflexivity|tauto]. Qed.

Lemma touches_bind (r : ref) {A B} (m : io World A) (k : A -> io World B) :
  touches r m -> (forall a, touches r (k a)) -> touches r (io_bind m k).
Proof.
  intros Hm Hk w. unfold io_bind. specialize (Hm w).
  destruct (m w) as [[a|e] w1]; cbn [snd] in *; [|exact Hm].
  destruct Hm as [Hl Hr]. destruct (Hk a w1) as [Hl' Hr'].
  split; [congruence|]. intros r' Hne.
  etransitivity; [apply Hr'; assumption|apply Hr; assumption].
Qed.

Lemma touches_update (r : ref) (f : IOregService service -> IOregService service) :
  touches r (update r f).
Proof.
  intros w. cbn. split; [apply length_alter|].
  intros r' Hne. apply list_lookup_alter_ne. congruence.
Qed.

Lemma touches_if (r : ref) {A} (b : bool) (m1 m2 : io World A) :
  touches r m1 -> touches r m2 -> touches r (if b then m1 else m2).
Proof. destruct b; tauto. Qed.

Ltac touches_step :=
  first
    [ apply touches_ret | apply touches_raise | apply touches_lift
    | apply touches_update
    | apply touches_if
    | apply touches_bind; [|intros ?] ].

Lemma touches_setIORegServiceDCPAVServiceProxy
    (e : RegistryEntry service) (r : ref) :
  touches r (setIORegServiceDCPAVServiceProxy e r).
Proof.
  unfold setIORegServiceDCPAVServiceProxy.
  repeat touches_step.
Qed.

Lemma yields_ret {A} (a : A) : yields a (@io_ret World A a).
Proof. intros w a' w' H. inversion H. reflexivity. Qed.

Lemma yields_bind {A B} (b : B) (m : io World A) (k : A -> io World B) :
  (forall a, yields b (k a)) -> yields b (io_bind m k).
Proof.
  intros Hk w b' w' H. unfold io_bind in H.
  destruct (m w) as [[a|e] w1]; [|discriminate].
  exact (Hk a w1 b' w' H).
Qed.

(** [getIORegServiceAppleCDC2Properties] starts one handle at the end of
    the store, returns it, and leaves the handles that were there as they
    were; the new handle has no channel and no location number yet. *)
Lemma getIORegServiceAppleCDC2Properties_new (e : RegistryEntry service)
    (w : World) :
  let out := getIORegServiceAppleCDC2Properties e w in
  length (heap (snd out)) = S (length (heap w))
  /\ (forall r, (r < length (heap w))%nat -> heap (snd out) !! r = heap w !! r)
  /\ (forall r, fst out = Ok r -> r = length (heap w)).
Proof.
  cbv zeta.
  remember (getIORegServiceAppleCDC2Properties e w) as out eqn:Eout.
  unfold getIORegServiceAppleCDC2Properties in Eout.
  unfold io_bind at 1 in Eout. cbn [alloc] in Eout.
  set (w0 := mkEnumWorld (heap w ++ [IOregService_new]) (iterator w) (released w))
    in Eout.
  set (r0 := length (heap w)) in *.
  match type of Eout with
  | out = ?m w0 =>
      assert (Ht : touches r0 m);
      [|assert (Hy : yields r0 m);
        [|specialize (Ht w0); specialize (Hy w0); rewrite <- Eout in Ht, Hy]]
  end.
  - repeat touches_step.
    + destruct (IORegistryEntryCreateCFProperty e "DisplayAttributes")
        as [[s|z|d]|]; repeat touches_step.
      destruct (dict_get d "ProductAttributes"); repeat touches_step.
    + destruct (IORegistryEntryCreateCFProperty e "Transport");
        repeat touches_step.
  - repeat (apply yields_bind; intros ?). apply yields_ret.
  - clear Eout. destruct Ht as [Hl Hr].
    split; [|split].
    + rewrite Hl. unfold w0. cbn. rewrite length_app. cbn. lia.
    + intros r Hlt. etransitivity; [apply Hr; unfold r0; lia|].
      unfold w0. cbn. apply lookup_app_l. exact Hlt.
    + intros r Hf. destruct out as [[a|x] w1]; cbn [fst] in Hf;
        [|discriminate Hf].
      inversion Hf; subst. exact (Hy r w1 eq_refl).
Qed.

Lemma serviceLocation_setIORegServiceDCPAVServiceProxy
    (e : RegistryEntry service) (r : ref) (w : World) :
  let out := setIORegServiceDCPAVServiceProxy e r w in
  fst out = Ok tt
  /\ length (heap (snd out)) = length (heap w)
  /\ forall r' : nat,
      serviceLocation <$> heap (snd out) !! r' = serviceLocation <$> heap w !! r'.
Proof.
  cbv zeta. unfold setIORegServiceDCPAVServiceProxy.
  assert (Halter : forall (f : IOregService service -> IOregService service)
                          (h : list (IOregService service)) (r' : nat),
             (forall o, serviceLocation (f o) = serviceLocation o) ->
             serviceLocation <$> alter f r h !! r' = serviceLocation <$> h !! r').
  { intros f h r' Hf. destruct (decide (r = r')) as [->|Hne].
    - rewrite list_lookup_alter_eq. destruct (h !! r'); cbn; [rewrite Hf|];
        reflexivity.
    - rewrite list_lookup_alter_ne by assumption. reflexivity. }
  destruct (truthy _); [|repeat split].
  unfold io_bind, update, io_ret.
  destruct (is_External _); cbn [fst snd heap].
  - split; [reflexivity|]. split; [rewrite !length_alter; reflexivity|].
    intros r'. rewrite !Halter by reflexivity. reflexivity.
  - split; [reflexivity|]. split; [rewrite length_alter; reflexivity|].
    intros r'. rewrite Halter by reflexivity. reflexivity.
Qed.

End Frames.

(** *** The loop as a walk over the relevant nodes *)

Section Walks.
Context {service : Type}.

Abbreviation World := (EnumWorld service).

Lemma exact_is_interesting (e : RegistryEntry service) :
  is_framebuffer e || is_proxy e = true ->
  existsb (fun interest => str_contains interest (entry_name e)) interests = true.
Proof.
  unfold is_framebuffer, is_proxy, in_list, keysFramebuffer, interests,
    keyDCPAVServiceProxy.
  cbn [existsb app].
  destruct (String.eqb_spec (entry_name e) "AppleCLCD2") as [->|_];
    [intros _; vm_compute; reflexivity|].
  destruct (String.eqb_spec (entry_name e) "IOMobileFramebufferShim") as [->|_];
    [intros _; vm_compute; reflexivity|].
  destruct (String.eqb_spec (entry_name e) "DCPAVServiceProxy") as [->|_];
    [intros _; vm_compute; reflexivity|].
  discriminate.
Qed.

Lemma iterate_relevant (it : list (RegistryEntry service)) :
  forall e0 o rest,
    iterate_loop interests e0 it = (o, rest) ->
    match o with
    | Ok None => relevant it = [] /\ names_decode it = true
    | Ok (Some x) =>
        name x = entry_name (entry x)
        /\ relevant it
           = (if is_framebuffer (entry x) || is_proxy (entry x)
              then entry x :: relevant rest else relevant rest)
        /\ names_decode it = names_decode rest
    | Raise err => err = UnicodeDecodeError /\ names_decode it = false
    end.
Proof.
  induction it as [|e it IH]; intros e0 o rest H; cbn [iterate_loop] in H.
  - inversion H; subst. split; reflexivity.
  - cbn [relevant names_decode].
    destruct (negb (entry_name_ret e =? KERN_SUCCESS)).
    { inversion H; subst. split; reflexivity. }
    unfold decode in H.
    destruct (utf8_valid (entry_name e)) eqn:Eu; cbn [andb].
    2:{ inversion H; subst. split; reflexivity. }
    destruct (existsb _ interests) eqn:Ei.
    { inversion H; subst. cbn [name entry]. repeat split. }
    destruct (is_framebuffer e || is_proxy e) eqn:Ex.
    { apply exact_is_interesting in Ex. unfold interests in *. congruence. }
    exact (IH _ _ _ H).
Qed.

Lemma relevant_readable (it : list (RegistryEntry service)) :
  Forall (fun e => negb (entry_name_ret e =? KERN_SUCCESS) = false
                   /\ is_framebuffer e || is_proxy e = true) (relevant it).
Proof.
  induction it as [|e it IH]; cbn [relevant]; [constructor|].
  destruct (negb _) eqn:En; [constructor|].
  destruct (is_framebuffer e || is_proxy e) eqn:Ex; [|exact IH].
  constructor; [split; assumption|exact IH].
Qed.

Lemma locations_relevant (it : list (RegistryEntry service)) :
  forall count, locations count (relevant it) = locations count it.
Proof.
  induction it as [|e it IH]; intros count; cbn [relevant locations];
    [reflexivity|].
  destruct (negb _) eqn:En; [reflexivity|].
  destruct (is_framebuffer e) eqn:Ef; cbn [orb].
  - cbn [locations]. rewrite En, Ef. apply IH.
  - destruct (is_proxy e) eqn:Ep.
    + cbn [locations]. rewrite En, Ef, Ep. rewrite IH. reflexivity.
    + apply IH.
Qed.

Lemma relevant_idempotent (it : list (RegistryEntry service)) :
  relevant (relevant it) = relevant it.
Proof.
  induction it as [|e it IH]; cbn [relevant]; [reflexivity|].
  destruct (negb _) eqn:En; [reflexivity|].
  destruct (is_framebuffer e || is_proxy e) eqn:Ex; [|exact IH].
  cbn [relevant]. rewrite En, Ex, IH. reflexivity.
Qed.

(** The two nested loops do what one pass over the relevant nodes
    does, when every name they decode is UTF-8. *)
Lemma loop_is_walk (fuel : nat) :
  forall serviceLocation_ (cur : ref) (l : list ref) (w1 w2 : World),
    heap w1 = heap w2 ->
    (length (iterator w1) < fuel)%nat ->
    names_decode (iterator w1) = true ->
    fst (matching_loop fuel serviceLocation_ cur l w1)
    = fst (walk (relevant (iterator w1)) serviceLocation_ cur l w2)
    /\ heap (snd (matching_loop fuel serviceLocation_ cur l w1))
       = heap (snd (walk (relevant (iterator w1)) serviceLocation_ cur l w2)).
Proof.
  induction fuel as [|fuel IH]; intros sl cur l w1 w2 Hh Hlen Hdec; [lia|].
  cbn [matching_loop]. unfold io_bind.
  unfold ioregIterateToNextObjectOfInterest. cbv beta.
  fold interests.
  destruct (iterate_loop interests None (iterator w1)) as [o rest] eqn:Eit.
  pose proof (iterate_relevant _ _ _ _ Eit) as Hrel.
  destruct (iterate_loop_spec _ _ _ _ _ Eit) as (_ & _ & Ho).
  destruct o as [[o|]|err]; [| |destruct Hrel as [_ Hrel]; congruence].
  - destruct Hrel as (Hname & Hrel & Hdec'). rewrite Hrel. clear Hrel.
    rewrite Hdec in Hdec'. symmetry in Hdec'.
    destruct (Ho o eq_refl) as (Hlt & _ & _).
    cbv beta iota.
    set (w1' := mkEnumWorld (heap w1) rest (released w1)).
    rewrite Hname. fold (is_framebuffer (entry o)). fold (is_proxy (entry o)).
    destruct (is_framebuffer (entry o)) eqn:Ef; cbn [orb walk].
    + rewrite Ef. unfold io_bind.
      destruct (heap_only_getIORegServiceAppleCDC2Properties (entry o) w1' w2 Hh)
        as [Hf Hhp].
      pose proof (keeps_getIORegServiceAppleCDC2Properties (fun _ => True)
                    (entry o) w1') as [Hi _].
      destruct (getIORegServiceAppleCDC2Properties (entry o) w1') as [[r|x] w1a];
        destruct (getIORegServiceAppleCDC2Properties (entry o) w2) as [[r'|x'] w2a];
        cbn [fst snd] in *; inversion Hf; subst;
        [|cbn [fst snd]; split; [reflexivity|exact Hhp]].
      unfold update.
      match goal with
      | |- context [matching_loop fuel ?s ?c ?ll ?wa] =>
          destruct (IH s c ll wa
                      (mkEnumWorld
                         (alter (set_serviceLocation (Some (sl + 1))) r' (heap w2a))
                         (iterator w2a) (released w2a))) as [H1 H2]
      end.
      * cbn. rewrite Hhp. reflexivity.
      * cbn. rewrite Hi. cbn. lia.
      * cbn. rewrite Hi. cbn. exact Hdec'.
      * unfold w1' in *. cbn [iterator] in *. rewrite Hi in *.
        split; assumption.
    + destruct (is_proxy (entry o)) eqn:Ep; cbn [walk].
      * rewrite Ef, Ep. unfold io_bind.
        destruct (heap_only_setIORegServiceDCPAVServiceProxy (entry o) cur w1' w2 Hh)
          as [Hf Hhp].
        pose proof (keeps_setIORegServiceDCPAVServiceProxy (fun _ => True)
                      (entry o) cur (fun _ _ _ => I) w1') as [Hi _].
        destruct (setIORegServiceDCPAVServiceProxy (entry o) cur w1') as [[[]|x] w1a];
          destruct (setIORegServiceDCPAVServiceProxy (entry o) cur w2) as [[[]|x'] w2a];
          cbn [fst snd] in *; inversion Hf; subst;
        [|cbn [fst snd]; split; [reflexivity|exact Hhp]].
        destruct (IH sl cur (l ++ [cur]) w1a w2a Hhp) as [H1 H2].
        -- rewrite Hi. cbn. lia.
        -- rewrite Hi. cbn. exact Hdec'.
        -- unfold w1' in *. cbn [iterator] in *. rewrite Hi in *.
           split; assumption.
      * destruct (IH sl cur l w1' w2 Hh) as [H1 H2];
          [cbn; lia|cbn; exact Hdec'|].
        cbn [iterator] in H1, H2. split; assumption.
  - destruct Hrel as [Hrel _]. rewrite Hrel. cbv beta iota.
    cbn [walk io_ret fst snd heap].
    split; [reflexivity|exact Hh].
Qed.

(** An enumeration that returns has decoded every name it read. *)
Lemma matching_loop_Ok_decodes (fuel : nat) :
  forall serviceLocation_ (cur : ref) (l l' : list ref) (w w' : World),
    (length (iterator w) < fuel)%nat ->
    matching_loop fuel serviceLocation_ cur l w = (Ok l', w') ->
    names_decode (iterator w) = true.
Proof.
  induction fuel as [|fuel IH]; intros sl cur l l' w w' Hlen; [lia|].
  cbn [matching_loop]. unfold io_bind at 1.
  unfold ioregIterateToNextObjectOfInterest. fold interests.
  destruct (iterate_loop interests None (iterator w)) as [o rest] eqn:Eit.
  pose proof (iterate_relevant _ _ _ _ Eit) as Hrel.
  destruct (iterate_loop_spec _ _ _ _ _ Eit) as (_ & _ & Ho).
  destruct o as [[o|]|err]; [| |intros H; discriminate H].
  - destruct Hrel as (_ & _ & ->).
    destruct (Ho o eq_refl) as (Hlt & _ & _).
    set (w1 := mkEnumWorld (heap w) rest (released w)).
    destruct (in_list (name o) keysFramebuffer).
    + unfold io_bind at 1.
      pose proof (keeps_getIORegServiceAppleCDC2Properties (fun _ => True)
                    (entry o) w1) as [Hi _].
      destruct (getIORegServiceAppleCDC2Properties (entry o) w1)
        as [[r|x] w2]; cbn [snd] in Hi; [|intros H; discriminate H].
      unfold io_bind at 1, update. intros H.
      apply IH in H; [|cbn; rewrite Hi; cbn; lia].
      cbn in H. rewrite Hi in H. exact H.
    + destruct (String.eqb (name o) keyDCPAVServiceProxy).
      * unfold io_bind at 1.
        pose proof (keeps_setIORegServiceDCPAVServiceProxy (fun _ => True)
                      (entry o) cur (fun _ _ _ => I) w1) as [Hi _].
        destruct (setIORegServiceDCPAVServiceProxy (entry o) cur w1)
          as [[[]|x] w2]; cbn [snd] in Hi; [|intros H; discriminate H].
        intros H. apply IH in H; [|rewrite Hi; cbn; lia].
        rewrite Hi in H. exact H.
      * intros H. apply IH in H; [exact H|cbn; lia].
  - intros _. exact (proj2 Hrel).
Qed.

Lemma walk_locations (nodes : list (RegistryEntry service)) :
  forall (count : Z) (cur : ref) (l l' : list ref) (w w' : World),
    0 <= count ->
    serviceLocation <$> heap w !! cur
    = Some (if count =? 0 then None else Some count) ->
    Forall (fun e => negb (entry_name_ret e =? KERN_SUCCESS) = false
                     /\ is_framebuffer e || is_proxy e = true) nodes ->
    walk nodes count cur l w = (Ok l', w') ->
    exists tail,
      l' = l ++ tail
      /\ map (fun r : nat => serviceLocation <$> heap w' !! r) tail
         = map Some (locations count nodes)
      /\ (length (heap w) <= length (heap w'))%nat
      /\ forall r : nat,
          (r < length (heap w))%nat ->
          serviceLocation <$> heap w' !! r = serviceLocation <$> heap w !! r.
Proof.
  induction nodes as [|e rest IH]; intros count cur l l' w w' Hc Hcur Hall H.
  - cbn in H. inversion H; subst. exists []. rewrite app_nil_r.
    split; [reflexivity|]. split; [reflexivity|]. split; [lia|]. reflexivity.
  - inversion Hall as [|? ? [Hread _] Hall']; subst.
    cbn [walk] in H. cbn [locations]. rewrite Hread.
    destruct (is_framebuffer e) eqn:Ef.
    + unfold io_bind in H.
      destruct (getIORegServiceAppleCDC2Properties_new e w) as (Hlen & Hold & Hret).
      destruct (getIORegServiceAppleCDC2Properties e w) as [[r'|x] w1];
        [|discriminate H]. cbn [fst snd] in *.
      specialize (Hret r' eq_refl). subst r'.
      unfold update in H. cbv beta iota in H.
      apply IH in H; [|lia| |exact Hall'].
      * destruct H as (tail & -> & Hmap & Hle & Hframe).
        cbn [heap] in Hle, Hframe. rewrite length_alter in Hle, Hframe.
        exists tail. split; [reflexivity|]. split; [exact Hmap|].
        split; [lia|]. intros r Hr.
        etransitivity; [apply Hframe; lia|].
        rewrite list_lookup_alter_ne by lia. rewrite Hold by lia. reflexivity.
      * cbn [heap]. rewrite list_lookup_alter_eq.
        destruct (lookup_lt_is_Some_2 (heap w1) (length (heap w)) ltac:(lia))
          as [o Ho].
        rewrite Ho. cbn. destruct (Z.eqb_spec (count + 1) 0); [lia|reflexivity].
    + destruct (is_proxy e) eqn:Ep.
      * unfold io_bind in H.
        destruct (serviceLocation_setIORegServiceDCPAVServiceProxy e cur w)
          as (Hok & Hlen & Hsame).
        destruct (setIORegServiceDCPAVServiceProxy e cur w) as [[[]|x] w1];
          cbn [fst snd] in *; [|discriminate Hok].
        assert (Hcur1 : serviceLocation <$> heap w1 !! cur
                        = Some (if count =? 0 then None else Some count)).
        { etransitivity; [apply Hsame|exact Hcur]. }
        assert (Hlt : (cur < length (heap w1))%nat).
        { destruct (heap w1 !! cur) as [o|] eqn:Eo; [|discriminate Hcur1].
          apply lookup_lt_Some in Eo. exact Eo. }
        apply IH in H; [|lia|exact Hcur1|exact Hall'].
        destruct H as (tail & -> & Hmap & Hle & Hframe).
        exists (cur :: tail). split; [rewrite <- app_assoc; reflexivity|].
        split; [|split; [lia|]].
        -- cbn [map]. f_equal; [|exact Hmap].
           etransitivity; [apply Hframe; exact Hlt|exact Hcur1].
        -- intros r Hr. etransitivity; [apply Hframe; lia|apply Hsame].
      * exact (IH count cur l l' w w' Hc Hcur Hall' H).
Qed.

(** An enumeration that returns is a walk over the relevant nodes of
    the tree, started on the blank handle. *)
Lemma enumeration_is_walk (reg : Registry service) (displays : list ref)
    (w : World) :
  create_iterator_ret reg = KERN_SUCCESS ->
  getIoregServicesForMatching reg empty_world = (Ok displays, w) ->
  exists ww,
    walk (relevant (tree reg)) 0 0%nat []
      (mkEnumWorld [IOregService_new] (tree reg) [])
    = (Ok displays, ww)
    /\ heap ww = heap w.
Proof.
  intros Hret H.
  set (w0 := mkEnumWorld [IOregService_new] (tree reg) []).
  assert (Hloop : fst (getIoregServicesForMatching reg empty_world)
                  = fst (matching_loop (S (length (tree reg))) 0 0%nat [] w0)
                  /\ heap (snd (getIoregServicesForMatching reg empty_world))
                     = heap (snd (matching_loop (S (length (tree reg))) 0 0%nat [] w0))).
  { rewrite getIoregServicesForMatching_unfold. cbv zeta. rewrite Hret.
    split; reflexivity. }
  rewrite H in Hloop. cbn [fst snd] in Hloop. destruct Hloop as [Hd Hw].
  destruct (matching_loop (S (length (tree reg))) 0 0%nat [] w0)
    as [[l1|x] w1] eqn:Em; cbn [fst snd] in Hd, Hw; [|discriminate Hd].
  inversion Hd; subst l1.
  pose proof (matching_loop_Ok_decodes (S (length (tree reg))) 0 0%nat []
                displays w0 w1 ltac:(cbn; lia) Em) as Hdec.
  destruct (loop_is_walk (S (length (tree reg))) 0 0%nat [] w0 w0 eq_refl
              ltac:(cbn; lia) Hdec) as [Hf Hh].
  change (iterator w0) with (tree reg) in Hf, Hh.
  rewrite Em in Hf, Hh. cbn [fst snd] in Hf, Hh.
  destruct (walk (relevant (tree reg)) 0 0%nat [] w0) as [[l'|x] ww] eqn:Ew;
    cbn [fst snd] in Hf, Hh; [|discriminate Hf].
  inversion Hf; subst l'. exists ww. split; [reflexivity|congruence].
Qed.

(** X20: when the iterator opens and the enumeration returns, it has
    appended one handle per proxy node, in the order of the nodes, and the
    location number of each is the number of framebuffer nodes that came
    before that proxy node ([None] when none did); nodes are counted by
    exact name, up to the first node whose name cannot be read. *)
Theorem enumeration_location_numbers (reg : Registry service)
    (displays : list ref) (w : World) :
  create_iterator_ret reg = KERN_SUCCESS ->
  getIoregServicesForMatching reg empty_world = (Ok displays, w) ->
  map (fun r : nat => serviceLocation <$> heap w !! r) displays
  = map Some (locations 0 (tree reg)).
Proof.
  intros Hret H.
  destruct (enumeration_is_walk reg displays w Hret H) as (ww & Ew & Hh).
  destruct (walk_locations (relevant (tree reg)) 0 0%nat [] displays
              (mkEnumWorld [IOregService_new] (tree reg) []) ww
              ltac:(lia) eq_refl (relevant_readable (tree reg)) Ew)
    as (tail & Ht & Hmap & _ & _).
  cbn [app] in Ht. subst tail. rewrite <- Hh, Hmap, locations_relevant.
  reflexivity.
Qed.

Lemma walk_handles (nodes : list (RegistryEntry service)) :
  forall (count : Z) (l l' : list ref) (w w' : World),
    0 <= count ->
    length (heap w) = S (Z.to_nat count) ->
    Forall (fun e => negb (entry_name_ret e =? KERN_SUCCESS) = false
                     /\ is_framebuffer e || is_proxy e = true) nodes ->
    walk nodes count (Z.to_nat count) l w = (Ok l', w') ->
    l' = l ++ map handle_of (locations count nodes).
Proof.
  induction nodes as [|e rest IH]; intros count l l' w w' Hc Hlen Hall H.
  - cbn in H. inversion H; subst. cbn. rewrite app_nil_r. reflexivity.
  - inversion Hall as [|? ? [Hread _] Hall']; subst.
    cbn [walk] in H. cbn [locations]. rewrite Hread.
    destruct (is_framebuffer e) eqn:Ef.
    + unfold io_bind in H.
      destruct (getIORegServiceAppleCDC2Properties_new e w) as (Hlen1 & _ & Hret).
      destruct (getIORegServiceAppleCDC2Properties e w) as [[r'|x] w1];
        [|discriminate H]. cbn [fst snd] in *.
      specialize (Hret r' eq_refl). subst r'.
      unfold update in H. cbv beta iota in H.
      replace (length (heap w)) with (Z.to_nat (count + 1)) in H by lia.
      apply IH in H; [exact H|lia| |exact Hall'].
      cbn [heap]. rewrite length_alter. lia.
    + destruct (is_proxy e) eqn:Ep.
      * unfold io_bind in H.
        destruct (serviceLocation_setIORegServiceDCPAVServiceProxy e
                    (Z.to_nat count) w) as (Hok & Hlen1 & _).
        destruct (setIORegServiceDCPAVServiceProxy e (Z.to_nat count) w)
          as [[[]|x] w1]; cbn [fst snd] in *; [|discriminate Hok].
        apply IH in H; [|lia|congruence|exact Hall'].
        rewrite H, <- app_assoc. cbn [map app]. do 2 f_equal.
        destruct (Z.eqb_spec count 0) as [->|Hne]; reflexivity.
      * exact (IH count l l' w w' Hc Hlen Hall' H).
Qed.

(** X23: every proxy node appends the handle of the framebuffer node
    last met before it (the blank handle made before the loop when there
    was none): started on an empty store, the list is, proxy by proxy,
    the reference 0 or the number of that framebuffer. Proxy nodes that
    follow the same framebuffer therefore append one and the same handle
    again, which the later of them has overwritten. *)
Theorem enumeration_shares_handles (reg : Registry service)
    (displays : list ref) (w : World) :
  create_iterator_ret reg = KERN_SUCCESS ->
  getIoregServicesForMatching reg empty_world = (Ok displays, w) ->
  displays = map handle_of (locations 0 (tree reg)).
Proof.
  intros Hret H.
  destruct (enumeration_is_walk reg displays w Hret H) as (ww & Ew & _).
  rewrite (walk_handles (relevant (tree reg)) 0 [] displays
             (mkEnumWorld [IOregService_new] (tree reg) []) ww
             ltac:(lia) eq_refl (relevant_readable (tree reg)) Ew).
  rewrite locations_relevant. reflexivity.
Qed.

(** X21: on registries whose node names are UTF-8, the enumeration acts
    only on the nodes named exactly ["AppleCLCD2"],
    ["IOMobileFramebufferShim"] or ["DCPAVServiceProxy"] that come before
    the first node whose name cannot be read: two such registries that
    agree on those nodes give the same list, the same handles and the
    same displays. (Every name read is decoded, though, and one that is
    not UTF-8 stops the enumeration, whatever the node.) *)
Theorem enumeration_reads_relevant_nodes (reg1 reg2 : Registry service)
    (w : World) :
  create_iterator_ret reg1 = KERN_SUCCESS ->
  create_iterator_ret reg2 = KERN_SUCCESS ->
  names_decode (tree reg1) = true ->
  names_decode (tree reg2) = true ->
  relevant (tree reg1) = relevant (tree reg2) ->
  fst (getIoregServicesForMatching reg1 w) = fst (getIoregServicesForMatching reg2 w)
  /\ heap (snd (getIoregServicesForMatching reg1 w))
     = heap (snd (getIoregServicesForMatching reg2 w))
  /\ ddc_displays reg1 = ddc_displays reg2.
Proof.
  intros H1 H2 D1 D2 Hrel.
  assert (Hgen : forall w0 : World,
             fst (getIoregServicesForMatching reg1 w0)
             = fst (getIoregServicesForMatching reg2 w0)
             /\ heap (snd (getIoregServicesForMatching reg1 w0))
                = heap (snd (getIoregServicesForMatching reg2 w0))).
  { intros w0. rewrite !getIoregServicesForMatching_unfold. cbv zeta.
    rewrite H1, H2.
    change (negb (KERN_SUCCESS =? KERN_SUCCESS)) with false. cbv iota.
    cbn [fst snd heap].
    set (c := mkEnumWorld (heap w0 ++ [IOregService_new]) [] (released w0)).
    destruct (loop_is_walk (S (length (tree reg1))) 0 (length (heap w0)) []
                (mkEnumWorld (heap w0 ++ [IOregService_new]) (tree reg1)
                   (released w0)) c eq_refl ltac:(cbn; lia) D1) as [Hf1 Hh1].
    destruct (loop_is_walk (S (length (tree reg2))) 0 (length (heap w0)) []
                (mkEnumWorld (heap w0 ++ [IOregService_new]) (tree reg2)
                   (released w0)) c eq_refl ltac:(cbn; lia) D2) as [Hf2 Hh2].
    cbn [iterator] in Hf1, Hh1, Hf2, Hh2. rewrite Hrel in Hf1, Hh1.
    split; congruence. }
  destruct (Hgen w) as [Hf Hh]. split; [exact Hf|]. split; [exact Hh|].
  unfold ddc_displays. destruct (Hgen empty_world) as [Hf0 Hh0].
  destruct (getIoregServicesForMatching reg1 empty_world) as [r1 w1].
  destruct (getIoregServicesForMatching reg2 empty_world) as [r2 w2].
  cbn [fst snd] in Hf0, Hh0. subst r2. rewrite Hh0. reflexivity.
Qed.

Lemma returns_ret {A} (a : A) : returns (@io_ret World A a).
Proof. intros w. unfold io_ret. eauto. Qed.

Lemma returns_lift {A} (a : A) : returns (@io_lift World A (Ok a)).
Proof. intros w. unfold io_lift. eauto. Qed.

Lemma returns_bind {A B} (m : io World A) (k : A -> io World B) :
  returns m -> (forall a, returns (k a)) -> returns (io_bind m k).
Proof.
  intros Hm Hk w. unfold io_bind. destruct (Hm w) as (a & w1 & ->). apply Hk.
Qed.

Lemma returns_alloc (o : IOregService service) : returns (alloc o).
Proof. intros w. unfold alloc. eauto. Qed.

Lemma returns_update (r : ref) (f : IOregService service -> IOregService service) :
  returns (update r f).
Proof. intros w. unfold update. eauto. Qed.

Lemma returns_if {A} (b : bool) (m1 m2 : io World A) :
  returns m1 -> returns m2 -> returns (if b then m1 else m2).
Proof. destruct b; tauto. Qed.

Ltac returns_step :=
  first
    [ apply returns_ret | apply returns_lift | apply returns_alloc
    | apply returns_update
    | apply returns_bind; [|intros ?] ].

Lemma getIORegServiceAppleCDC2Properties_returns (e : RegistryEntry service) :
  wellformed_display e -> returns (getIORegServiceAppleCDC2Properties e).
Proof.
  intros (Hpath & Hd & Ht).
  unfold getIORegServiceAppleCDC2Properties, IORegistryEntryCreateCFProperty.
  apply returns_bind; [apply returns_alloc|intros r].
  apply returns_bind;
    [apply returns_if; [apply returns_update|apply returns_ret]|intros _].
  apply returns_bind;
    [unfold decode; rewrite Hpath; apply returns_lift|intros cpath].
  apply returns_bind; [apply returns_update|intros _].
  apply returns_bind; [|intros _].
  { destruct Hd as [Hd|(d & Hd & Hp)].
    - rewrite Hd. apply returns_ret.
    - rewrite Hd. apply returns_if; [|apply returns_ret].
      apply returns_bind; [apply returns_update|intros _].
      destruct Hp as [Hp|(p & Hp)]; rewrite Hp; [apply returns_ret|].
      cbn [get_method]. repeat returns_step. }
  apply returns_bind; [|intros _; apply returns_ret].
  destruct Ht as [Ht|(t & Ht)].
  - destruct (entry_property e "Transport") as [tv|]; [|apply returns_ret].
    rewrite Ht. apply returns_ret.
  - rewrite Ht. apply returns_if; [|apply returns_ret].
    cbn [get_method]. repeat returns_step.
Qed.

Lemma matching_loop_returns (fuel : nat) :
  forall serviceLocation_ (cur : ref) (l : list ref) (w : World),
    names_decode (iterator w) = true ->
    (forall e, e ∈ iterator w -> is_framebuffer e = true -> wellformed_display e) ->
    exists l' w', matching_loop fuel serviceLocation_ cur l w = (Ok l', w').
Proof.
  induction fuel as [|fuel IH]; intros sl cur l w Hdec Hwf; cbn [matching_loop].
  - unfold io_ret. eauto.
  - unfold io_bind at 1. unfold ioregIterateToNextObjectOfInterest.
    fold interests.
    destruct (iterate_loop interests None (iterator w)) as [o rest] eqn:Eit.
    pose proof (iterate_relevant _ _ _ _ Eit) as Hrel.
    destruct (iterate_loop_spec _ _ _ _ _ Eit) as (_ & Hrest & Ho).
    destruct o as [[o|]|err];
      [|unfold io_ret; eauto|destruct Hrel as [_ Hrel]; congruence].
    destruct Hrel as (_ & _ & Hdec'). rewrite Hdec in Hdec'. symmetry in Hdec'.
    destruct (Ho o eq_refl) as (_ & Hin & Hname).
    set (w1 := mkEnumWorld (heap w) rest (released w)).
    assert (Hwf1 : forall e, e ∈ rest -> is_framebuffer e = true ->
                             wellformed_display e) by auto.
    destruct (in_list (name o) keysFramebuffer) eqn:Ef.
    + unfold io_bind at 1.
      assert (Hfb : is_framebuffer (entry o) = true)
        by (unfold is_framebuffer; rewrite <- Hname; exact Ef).
      pose proof (keeps_getIORegServiceAppleCDC2Properties (fun _ => True)
                    (entry o) w1) as [Hi _].
      destruct (getIORegServiceAppleCDC2Properties_returns (entry o)
                  (Hwf _ Hin Hfb) w1) as (r & w2 & E).
      rewrite E in *. cbn [snd] in Hi.
      unfold io_bind, update.
      apply IH; cbn [iterator]; rewrite Hi; [exact Hdec'|exact Hwf1].
    + destruct (String.eqb (name o) keyDCPAVServiceProxy).
      * unfold io_bind.
        pose proof (keeps_setIORegServiceDCPAVServiceProxy (fun _ => True)
                      (entry o) cur (fun _ _ _ => I) w1) as [Hi _].
        destruct (serviceLocation_setIORegServiceDCPAVServiceProxy (entry o) cur w1)
          as (Hok & _).
        destruct (setIORegServiceDCPAVServiceProxy (entry o) cur w1) as [[[]|x] w2];
          cbn [fst snd] in *; [|discriminate Hok].
        apply IH; rewrite Hi; [exact Hdec'|exact Hwf1].
      * apply IH; [exact Hdec'|exact Hwf1].
Qed.

(** X22: the enumeration returns a list, and raises nothing, on every
    registry whose node names are UTF-8 (those before the first one that
    cannot be read) and whose framebuffer nodes are well formed (their
    path is UTF-8, and their [DisplayAttributes], [ProductAttributes]
    and [Transport] are dictionaries where they are present), whatever
    else the nodes carry and whether or not the iterator opens. *)
Theorem enumeration_returns (reg : Registry service) (w : World) :
  names_decode (tree reg) = true ->
  (forall e, e ∈ tree reg -> is_framebuffer e = true -> wellformed_display e) ->
  exists displays, fst (getIoregServicesForMatching reg w) = Ok displays.
Proof.
  intros Hdec Hwf.
  rewrite getIoregServicesForMatching_unfold. cbv zeta. cbn [fst].
  destruct (negb _); [eauto|].
  destruct (matching_loop_returns (S (length (tree reg))) 0 (length (heap w)) []
              (mkEnumWorld (heap w ++ [IOregService_new]) (tree reg) (released w))
              Hdec Hwf) as (l' & w' & E).
  rewrite E. eauto.
Qed.

Lemma matching_loop_raises (fuel : nat) :
  forall serviceLocation_ (cur : ref) (l : list ref) (w : World),
    (length (iterator w) < fuel)%nat ->
    names_decode (iterator w) = false ->
    (forall e, e ∈ iterator w -> is_framebuffer e = true -> wellformed_display e) ->
    fst (matching_loop fuel serviceLocation_ cur l w) = Raise UnicodeDecodeError.
Proof.
  induction fuel as [|fuel IH]; intros sl cur l w Hlen Hdec Hwf; [lia|].
  cbn [matching_loop]. unfold io_bind at 1.
  unfold ioregIterateToNextObjectOfInterest. fold interests.
  destruct (iterate_loop interests None (iterator w)) as [o rest] eqn:Eit.
  pose proof (iterate_relevant _ _ _ _ Eit) as Hrel.
  destruct (iterate_loop_spec _ _ _ _ _ Eit) as (_ & Hrest & Ho).
  destruct o as [[o|]|err];
    [|destruct Hrel as [_ Hrel]; congruence
     |destruct Hrel as [-> _]; reflexivity].
  destruct Hrel as (_ & _ & Hdec'). rewrite Hdec in Hdec'. symmetry in Hdec'.
  destruct (Ho o eq_refl) as (Hlt & Hin & Hname).
  set (w1 := mkEnumWorld (heap w) rest (released w)).
  assert (Hwf1 : forall e, e ∈ rest -> is_framebuffer e = true ->
                           wellformed_display e) by auto.
  destruct (in_list (name o) keysFramebuffer) eqn:Ef.
  - unfold io_bind at 1.
    assert (Hfb : is_framebuffer (entry o) = true)
      by (unfold is_framebuffer; rewrite <- Hname; exact Ef).
    pose proof (keeps_getIORegServiceAppleCDC2Properties (fun _ => True)
                  (entry o) w1) as [Hi _].
    destruct (getIORegServiceAppleCDC2Properties_returns (entry o)
                (Hwf _ Hin Hfb) w1) as (r & w2 & E).
    rewrite E in *. cbn [snd] in Hi.
    unfold io_bind, update.
    apply IH; cbn [iterator]; rewrite Hi; [cbn; lia|exact Hdec'|exact Hwf1].
  - destruct (String.eqb (name o) keyDCPAVServiceProxy).
    + unfold io_bind.
      pose proof (keeps_setIORegServiceDCPAVServiceProxy (fun _ => True)
                    (entry o) cur (fun _ _ _ => I) w1) as [Hi _].
      destruct (serviceLocation_setIORegServiceDCPAVServiceProxy (entry o) cur w1)
        as (Hok & _).
      destruct (setIORegServiceDCPAVServiceProxy (entry o) cur w1) as [[[]|x] w2];
        cbn [fst snd] in *; [|discriminate Hok].
      apply IH; rewrite Hi; [cbn; lia|exact Hdec'|exact Hwf1].
    + apply IH; [cbn; lia|exact Hdec'|exact Hwf1].
Qed.

(** X24: every name the iterator yields is decoded, of interest or not:
    when the iterator opens on a registry whose framebuffer nodes are
    well formed and one of whose names, before the first that cannot be
    read, is not UTF-8, the enumeration raises [UnicodeDecodeError], and
    so does the list of displays. *)
Theorem enumeration_stops_at_garbled_name (reg : Registry service) (w : World) :
  create_iterator_ret reg = KERN_SUCCESS ->
  names_decode (tree reg) = false ->
  (forall e, e ∈ tree reg -> is_framebuffer e = true -> wellformed_display e) ->
  fst (getIoregServicesForMatching reg w) = Raise UnicodeDecodeError
  /\ ddc_displays reg = Raise UnicodeDecodeError.
Proof.
  intros Hret Hdec Hwf.
  assert (Hgen : forall w0 : World,
             fst (getIoregServicesForMatching reg w0) = Raise UnicodeDecodeError).
  { intros w0. rewrite getIoregServicesForMatching_unfold. cbv zeta. cbn [fst].
    rewrite Hret. change (negb (KERN_SUCCESS =? KERN_SUCCESS)) with false.
    cbv iota. apply matching_loop_raises; [cbn; lia|exact Hdec|exact Hwf]. }
  split; [apply Hgen|].
  unfold ddc_displays. specialize (Hgen empty_world).
  destruct (getIoregServicesForMatching reg empty_world) as [[displays|e] w1];
    cbn [fst] in Hgen; [discriminate Hgen|].
  inversion Hgen. reflexivity.
Qed.

End Walks.

Import SimulatedRegistry NoisyRegistry.

Lemma enumeration_returns_witness :
  exists displays,
    fst (getIoregServicesForMatching laptop empty_world) = Ok displays.
Proof.
  apply (enumeration_returns laptop empty_world); [reflexivity|].
  intros e He Hf. unfold laptop, laptop_tree, tree in He.
  repeat (apply elem_of_cons in He as [->|He]);
    try (vm_compute in Hf; discriminate Hf);
    try (apply elem_of_nil in He; contradiction).
  - split; [reflexivity|].
    split; [right; eexists; split; [reflexivity|right; eexists; reflexivity]|].
    right. eexists. reflexivity.
  - split; [reflexivity|].
    split; [right; eexists; split; [reflexivity|right; eexists; reflexivity]|].
    right. eexists. reflexivity.
Defined.

(** A display node whose [Transport] is a string stops the whole
    enumeration with [AttributeError]. *)
Example enumeration_raises_on_odd_display :
  fst (getIoregServicesForMatching odd empty_world) = Raise AttributeError.
Proof. vm_compute. reflexivity. Qed.

(** A node whose name is not UTF-8 stops it with [UnicodeDecodeError],
    though the walk has no use for the node and both displays were
    already found; the [finally] clause still releases the two
    objects. *)
Example enumeration_raises_on_garbled_name :
  relevant garbled_tree = relevant laptop_tree
  /\ fst (getIoregServicesForMatching garbled empty_world)
     = Raise UnicodeDecodeError
  /\ released (snd (getIoregServicesForMatching garbled empty_world))
     = [obj_ioregRoot; obj_iterator]
  /\ ddc_displays garbled = Raise UnicodeDecodeError.
Proof. repeat split; vm_compute; reflexivity. Qed.

Lemma enumeration_stops_at_garbled_name_witness :
  fst (getIoregServicesForMatching garbled empty_world) = Raise UnicodeDecodeError
  /\ ddc_displays garbled = Raise UnicodeDecodeError.
Proof.
  apply (enumeration_stops_at_garbled_name garbled empty_world);
    [reflexivity|reflexivity|].
  intros e He Hf. unfold garbled, garbled_tree, laptop_tree, tree in He.
  cbn [app] in He.
  repeat (apply elem_of_cons in He as [->|He]);
    try (vm_compute in Hf; discriminate Hf);
    try (apply elem_of_nil in He; contradiction).
  - split; [reflexivity|].
    split; [right; eexists; split; [reflexivity|right; eexists; reflexivity]|].
    right. eexists. reflexivity.
  - split; [reflexivity|].
    split; [right; eexists; split; [reflexivity|right; eexists; reflexivity]|].
    right. eexists. reflexivity.
Defined.

Lemma enumeration_location_numbers_witness :
  exists displays w,
    getIoregServicesForMatching laptop empty_world = (Ok displays, w)
    /\ map (fun r : nat => serviceLocation <$> heap w !! r) displays
       = [Some (Some 1); Some (Some 2)].
Proof.
  destruct (getIoregServicesForMatching laptop empty_world) as [[displays|x] w]
    eqn:E; [|vm_compute in E; discriminate E].
  exists displays, w. split; [reflexivity|].
  exact (enumeration_location_numbers laptop displays w eq_refl E).
Defined.

Lemma enumeration_shares_handles_witness :
  exists w,
    getIoregServicesForMatching twin empty_world = (Ok [1%nat; 1%nat], w)
    /\ (location <$> heap w !! 1%nat) = Some (Some (PStr "Embedded"))
    /\ (service_ <$> heap w !! 1%nat) = Some (Some "av-external").
Proof.
  destruct (getIoregServicesForMatching twin empty_world) as [[displays|x] w]
    eqn:E; [|vm_compute in E; discriminate E].
  exists w.
  rewrite (enumeration_shares_handles twin displays w eq_refl E).
  split; [reflexivity|].
  assert (Hw : w = snd (getIoregServicesForMatching twin empty_world))
    by (rewrite E; reflexivity).
  rewrite Hw. split; vm_compute; reflexivity.
Defined.

Lemma enumeration_reads_relevant_nodes_witness :
  relevant noisy_tree = relevant laptop_tree
  /\ ddc_displays noisy = ddc_displays laptop.
Proof.
  assert (Hrel : relevant (tree noisy) = relevant (tree laptop))
    by (vm_compute; reflexivity).
  split; [exact Hrel|].
  exact (proj2 (proj2 (enumeration_reads_relevant_nodes noisy laptop empty_world
                         eq_refl eq_refl eq_refl eq_refl Hrel))).
Defined.

End EnumerationExtras.
